(** * CRYSTALS-Kyber (TypeScript): a shallow embedding of the polynomial
  engine and of the KEM wiring, with the properties of the specification.

  Sources embedded here:
  - [lib/utilities]  (byte and integer casts, [constantTimeCompare]);
  - [lib/poly]       (class [Poly]: codecs, NTT, base multiplication);
  - [services/kyber.service] (parameters, zeta tables, [encrypt], [decrypt]).

  Conventions.  A JavaScript number that holds an integer is a [Z].  The
  bitwise operators of JavaScript first cast their operands to a signed
  32-bit integer ([toInt32]); that cast is written out in [js_and],
  [js_or], [js_xor], [js_shl] and [js_shr].  The operator [%] is the
  truncated remainder [Z.rem].  An array of numbers is a list of slots,
  where an empty slot (a hole of [new Array(n)], or an index past the end)
  reads as [undefined] and is [None]. *)

From stdpp Require Import base list gmap.
From Stdlib Require Import ZArith Lia.
From Equations Require Import Equations.

Local Open Scope Z_scope.

(** ** JavaScript integers and bitwise operators *)

Module Js.

(** ToInt32 of ECMAScript, on integers. *)
Definition toInt32 (n : Z) : Z := (n + 2147483648) mod 4294967296 - 2147483648.

Definition js_and (a b : Z) : Z := Z.land (toInt32 a) (toInt32 b).
Definition js_or (a b : Z) : Z := Z.lor (toInt32 a) (toInt32 b).
Definition js_xor (a b : Z) : Z := Z.lxor (toInt32 a) (toInt32 b).
(** [a << n] and [a >> n]; the shift count is taken modulo 32. *)
Definition js_shl (a n : Z) : Z := toInt32 (Z.shiftl (toInt32 a) (n mod 32)).
Definition js_shr (a n : Z) : Z := Z.shiftr (toInt32 a) (n mod 32).

(** A JavaScript array of numbers: [None] is an empty slot. *)
Abbreviation array := (list (option Z)).

(** [new Array(n)]: n empty slots. *)
Definition new_array (n : nat) : array := replicate n None.
(** [new Array(n).fill(v)]. *)
Definition new_filled (n : nat) (v : Z) : array := replicate n (Some v).
(** An array literal, or a dense array of numbers. *)
Definition of_list (l : list Z) : array := Some <$> l.

(** [a[i]] read as a number.  An empty slot is [undefined]; every read of
    the embedded functions that can meet one goes through a bitwise
    operator, where [undefined] counts as 0. *)
Definition rd (a : array) (i : nat) : Z := default 0 (a !!! i).

(** [a[i] = v]: in range the slot is overwritten, past the end the array
    grows, with holes in between. *)
Definition wr (a : array) (i : nat) (v : Z) : array :=
  if decide (i < length a)%nat then <[i := Some v]> a
  else a ++ replicate (i - length a) None ++ [Some v].

End Js.
Import Js.

(** ** lib/utilities *)

Module Utilities.

(** [while (n < 0) n += 256] *)
Equations? byte_loop (n : Z) : Z by wf (Z.to_nat ((255 - n) / 256)) lt :=
  byte_loop n with Z_lt_dec n 0 => {
    | left _ := byte_loop (n + 256);
    | right _ := n }.
Proof.
  replace (255 - (n + 256)) with ((255 - n) + (-1) * 256) by lia.
  rewrite Z.div_add by lia.
  assert (1 <= (255 - n) / 256) by (apply Z.div_le_lower_bound; lia).
  lia.
Qed.

Definition byte (n : Z) : Z := byte_loop (Z.rem n 256).

(** [while (n > 255) n -= 256] *)
Equations? intToByte (n : Z) : Z by wf (Z.to_nat (n / 256)) lt :=
  intToByte n with Z_lt_dec 255 n => {
    | left _ := intToByte (n - 256);
    | right _ := n }.
Proof.
  replace (n - 256) with (n + (-1) * 256) by lia.
  rewrite Z.div_add by lia.
  assert (1 <= n / 256) by (apply Z.div_le_lower_bound; lia).
  lia.
Qed.

(** [while (n < 0) n += 65536] *)
Equations? uint16_loop (n : Z) : Z by wf (Z.to_nat ((65535 - n) / 65536)) lt :=
  uint16_loop n with Z_lt_dec n 0 => {
    | left _ := uint16_loop (n + 65536);
    | right _ := n }.
Proof.
  replace (65535 - (n + 65536)) with ((65535 - n) + (-1) * 65536) by lia.
  rewrite Z.div_add by lia.
  assert (1 <= (65535 - n) / 65536) by (apply Z.div_le_lower_bound; lia).
  lia.
Qed.

Definition uint16 (n : Z) : Z := uint16_loop (Z.rem n 65536).

Definition int16 (n : Z) : Z :=
  let end_ := -32768 in
  let start := 32767 in
  if decide (n < end_) then start + uint16 (n + 32769)
  else if decide (n > start) then end_ + uint16 (n - 32768)
  else n.

(** [while (n < 4294967296) n += 4294967296] *)
Equations? uint32_loop (n : Z) : Z
  by wf (Z.to_nat ((8589934592 - n) / 4294967296)) lt :=
  uint32_loop n with Z_lt_dec n 4294967296 => {
    | left _ := uint32_loop (n + 4294967296);
    | right _ := n }.
Proof.
  replace (8589934592 - (n + 4294967296))
    with ((8589934592 - n) + (-1) * 4294967296) by lia.
  rewrite Z.div_add by lia.
  assert (1 <= (8589934592 - n) / 4294967296)
    by (apply Z.div_le_lower_bound; lia).
  lia.
Qed.

Definition uint32 (n : Z) : Z := uint32_loop (Z.rem n 4294967296).

Definition int32 (n : Z) : Z :=
  let end_ := -2147483648 in
  let start := 2147483647 in
  if decide (n < end_) then start + uint32 (n + 2147483649)
  else if decide (n > start) then end_ + uint32 (n - 2147483648)
  else n.

(** The loop of [constantTimeCompare], from index [i] with [n] rounds
    left: the first differing slot returns 1. *)
Fixpoint compare_from (a b : list Z) (i : nat) (n : nat) : Z :=
  match n with
  | O => 0
  | S n' =>
      if decide (a !! i ≠ b !! i) then 1
      else compare_from a b (S i) n'
  end.

Definition constantTimeCompare (a b : list Z) : Z :=
  if decide (length a ≠ length b) then 1
  else compare_from a b 0 (length a).

End Utilities.
Import Utilities.

(** ** services/kyber.service: parameters and zeta tables *)

Module KyberService.

Definition nttZetas : list Z := [
  2285; 2571; 2970; 1812; 1493; 1422; 287; 202; 3158; 622; 1577; 182; 962;
  2127; 1855; 1468; 573; 2004; 264; 383; 2500; 1458; 1727; 3199; 2648; 1017;
  732; 608; 1787; 411; 3124; 1758; 1223; 652; 2777; 1015; 2036; 1491; 3047;
  1785; 516; 3321; 3009; 2663; 1711; 2167; 126; 1469; 2476; 3239; 3058; 830;
  107; 1908; 3082; 2378; 2931; 961; 1821; 2604; 448; 2264; 677; 2054; 2226;
  430; 555; 843; 2078; 871; 1550; 105; 422; 587; 177; 3094; 3038; 2869; 1574;
  1653; 3083; 778; 1159; 3182; 2552; 1483; 2727; 1119; 1739; 644; 2457; 349;
  418; 329; 3173; 3254; 817; 1097; 603; 610; 1322; 2044; 1864; 384; 2114; 3193;
  1218; 1994; 2455; 220; 2142; 1670; 2144; 1799; 2051; 794; 1819; 2475; 2459;
  478; 3221; 3021; 996; 991; 958; 1869; 1522; 1628].

Definition nttZetasInv : list Z := [
  1701; 1807; 1460; 2371; 2338; 2333; 308; 108; 2851; 870; 854; 1510; 2535;
  1278; 1530; 1185; 1659; 1187; 3109; 874; 1335; 2111; 136; 1215; 2945; 1465;
  1285; 2007; 2719; 2726; 2232; 2512; 75; 156; 3000; 2911; 2980; 872; 2685;
  1590; 2210; 602; 1846; 777; 147; 2170; 2551; 246; 1676; 1755; 460; 291; 235;
  3152; 2742; 2907; 3224; 1779; 2458; 1251; 2486; 2774; 2899; 1103; 1275; 2652;
  1065; 2881; 725; 1508; 2368; 398; 951; 247; 1421; 3222; 2499; 271; 90; 853;
  1860; 3203; 1162; 1618; 666; 320; 8; 2813; 1544; 282; 1838; 1293; 2314; 552;
  2677; 2106; 1571; 205; 2918; 1542; 2721; 2597; 2312; 681; 130; 1602; 1871;
  829; 2946; 3065; 1325; 2756; 1861; 1474; 1202; 2367; 3147; 1752; 2707; 171;
  3127; 3042; 1907; 1836; 1517; 359; 758; 1441].

(** [table[k]] for the two tables above. *)
Definition zeta_at (table : list Z) (k : nat) : Z := default 0 (table !! k).

Definition paramsN : nat := 256.
Definition paramsQ : Z := 3329.
Definition paramsQinv : Z := 62209.
Definition paramsSymBytes : nat := 32.
Definition paramsPolyBytes : nat := 384.
Definition paramsETAK512 : Z := 3.
Definition paramsETAK768K1024 : Z := 2.
Definition paramsPolyvecBytesK512 : nat := 2 * paramsPolyBytes.
Definition paramsPolyvecBytesK768 : nat := 3 * paramsPolyBytes.
Definition paramsPolyvecBytesK1024 : nat := 4 * paramsPolyBytes.
Definition paramsIndcpaPublicKeyBytesK512 : nat := paramsPolyvecBytesK512 + paramsSymBytes.
Definition paramsIndcpaPublicKeyBytesK768 : nat := paramsPolyvecBytesK768 + paramsSymBytes.
Definition paramsIndcpaPublicKeyBytesK1024 : nat := paramsPolyvecBytesK1024 + paramsSymBytes.
Definition paramsIndcpaSecretKeyBytesK512 : nat := 2 * paramsPolyBytes.
Definition paramsIndcpaSecretKeyBytesK768 : nat := 3 * paramsPolyBytes.
Definition paramsIndcpaSecretKeyBytesK1024 : nat := 4 * paramsPolyBytes.
Definition Kyber512SKBytes : nat :=
  paramsPolyvecBytesK512 + ((paramsPolyvecBytesK512 + paramsSymBytes) + 2 * paramsSymBytes).
Definition Kyber768SKBytes : nat :=
  paramsPolyvecBytesK768 + ((paramsPolyvecBytesK768 + paramsSymBytes) + 2 * paramsSymBytes).
Definition Kyber1024SKBytes : nat :=
  paramsPolyvecBytesK1024 + ((paramsPolyvecBytesK1024 + paramsSymBytes) + 2 * paramsSymBytes).
Definition paramsPolyCompressedBytesK512 : nat := 128.
Definition paramsPolyCompressedBytesK768 : nat := 128.
Definition paramsPolyCompressedBytesK1024 : nat := 160.
Definition paramsPolyvecCompressedBytesK512 : nat := 2 * 320.
Definition paramsPolyvecCompressedBytesK768 : nat := 3 * 320.
Definition paramsPolyvecCompressedBytesK1024 : nat := 4 * 352.
Definition Kyber512CTBytes : nat :=
  paramsPolyvecCompressedBytesK512 + paramsPolyCompressedBytesK512.
Definition Kyber768CTBytes : nat :=
  paramsPolyvecCompressedBytesK768 + paramsPolyCompressedBytesK768.
Definition Kyber1024CTBytes : nat :=
  paramsPolyvecCompressedBytesK1024 + paramsPolyCompressedBytesK1024.

(** The number [(x + paramsQ / 2) / paramsQ] cast to an integer by a bitwise
    operator.  [paramsQ / 2] is the double 1664.5 and the quotient is a
    double; the cast drops its fractional part.  With [x] an integer the
    exact quotient is [(2x + 3329) / 6658], which is never an integer and
    lies at least [1/6658] away from one, so the rounding of the double
    division does not change its integer part: it is the truncated
    quotient below. *)
Definition div_round_q (x : Z) : Z := Z.quot (2 * x + paramsQ) (2 * paramsQ).

End KyberService.
Import KyberService.

(** ** lib/byte-ops: the reductions *)

Module ByteOps.

(** Modelled from the spec: [barrettReduce] of lib/byte-ops, which is not
    among the sources.  Section 4.A: "Barrett reduce b(a): returns
    a - floor(a * 20159 / 2^26) * q". *)
Definition barrettReduce (a : Z) : Z :=
  a - (a * 20159) / 2 ^ 26 * paramsQ.

(** Modelled from the spec: [montgomeryReduce] of lib/byte-ops, which is not
    among the sources.  Section 4.A: "computes u = (a * qinv) mod 2^16
    interpreted as signed 16-bit, returns (a - u*q) >> 16". *)
Definition montgomeryReduce (a : Z) : Z :=
  let u := (a * paramsQinv + 2 ^ 15) mod 2 ^ 16 - 2 ^ 15 in
  Z.shiftr (a - u * paramsQ) 16.

(** Modelled from the spec: [modQMulMont] of lib/byte-ops, which is not
    among the sources.  Section 4.A: "modQMulMont(x, y) = m(x * y)". *)
Definition modQMulMont (x y : Z) : Z := montgomeryReduce (x * y).

End ByteOps.
Import ByteOps.

(** ** lib/poly: class Poly *)

Module Poly.

(** [for (let i = lo; i < lo + n; i++) body], on the state [s]. *)
Definition for_loop {St : Type} (lo n : nat) (body : nat → St → St) (s : St) : St :=
  fold_left (λ s i, body i s) (seq lo n) s.

Definition polyConditionalSubQ (r : array) : array :=
  for_loop 0 paramsN (λ i r,
    let r := wr r i (rd r i - paramsQ) in
    wr r i (rd r i + js_and (js_shr (rd r i) 31) paramsQ)) r.

Definition polyToBytes (a : array) : array :=
  let r := new_array paramsPolyBytes in
  let a2 := polyConditionalSubQ a in
  for_loop 0 (paramsN / 2) (λ i r,
    let t0 := uint16 (rd a2 (2 * i)) in
    let t1 := uint16 (rd a2 (2 * i + 1)) in
    let r := wr r (3 * i) (byte t0) in
    let r := wr r (3 * i + 1) (js_or (byte (js_shr t0 8)) (byte (js_shl t1 4))) in
    wr r (3 * i + 2) (byte (js_shr t1 4))) r.

Definition polyFromBytes (a : array) : array :=
  let r := new_array paramsPolyBytes in
  for_loop 0 (paramsN / 2) (λ i r,
    let r := wr r (2 * i)
      (int16 (js_and (js_or (uint16 (rd a (3 * i)))
                            (js_shl (uint16 (rd a (3 * i + 1))) 8)) 0xFFF)) in
    wr r (2 * i + 1)
      (int16 (js_and (js_or (js_shr (uint16 (rd a (3 * i + 1))) 4)
                            (js_shl (uint16 (rd a (3 * i + 2))) 4)) 0xFFF))) r.

(** [uint16(paramsQ / 2)] is 1664.5 and [uint16(paramsQ)] is 3329: the
    quotient and its cast by [& 1] are [div_round_q]. *)
Definition polyToMsg (a : array) : array :=
  let message := new_filled 32 0 in
  let a2 := polyConditionalSubQ a in
  for_loop 0 (paramsN / 8) (λ i message,
    for_loop 0 8 (λ j message,
      let t := js_and (div_round_q (js_shl (uint16 (rd a2 (8 * i + j))) 1)) 1 in
      wr message i (js_or (rd message i) (byte (js_shl t (Z.of_nat j)))))
    message) message.

Definition polyFromData (message : array) : array :=
  let r := new_filled paramsPolyBytes 0 in
  for_loop 0 (paramsN / 8) (λ i r,
    for_loop 0 8 (λ j r,
      let mask := - int16 (js_and (js_shr (rd message i) (Z.of_nat j)) 1) in
      wr r (8 * i + j) (js_and mask (int16 ((paramsQ + 1) / 2))))
    r) r.

(** The two inner loops that [ntt] and [invNTT] share,
    [for (start = 0; start < 256; start = j + l) {
       zeta = table[k]; k++;
       for (j = start; j < start + l; j++) body }],
    on the state [(k, r)].  The inner loop leaves [j = start + l], so the
    next group starts at [start + l + l].  [fuel] bounds the number of
    groups; 128 is enough for every [l >= 1] ([group_loop_fuel]). *)
Fixpoint group_loop (fuel : nat) (table : list Z)
    (body : Z → nat → nat → array → array)
    (l start k : nat) (r : array) : nat * array :=
  match fuel with
  | O => (k, r)
  | S fuel' =>
      if decide (start < 256)%nat then
        let zeta := zeta_at table k in
        let r := for_loop start l (body zeta l) r in
        group_loop fuel' table body l (start + l + l) (S k) r
      else (k, r)
  end.

(** The outer loop over [l], given the values that [l] takes. *)
Definition layer_loop (table : list Z) (body : Z → nat → nat → array → array)
    (ls : list nat) (k : nat) (r : array) : nat * array :=
  fold_left (λ '(k, r) l, group_loop 128 table body l 0 k r) ls (k, r).

Definition ntt_body (zeta : Z) (l j : nat) (r : array) : array :=
  let t := modQMulMont zeta (rd r (j + l)) in
  let r := wr r (j + l) (int16 (rd r j - t)) in
  wr r j (int16 (rd r j + t)).

(** [for (let l = 128; l >= 2; l >>= 1)] *)
Definition ntt (r : array) : array :=
  snd (layer_loop nttZetas ntt_body [128; 64; 32; 16; 8; 4; 2]%nat 1 r).

Definition invNTT_body (zeta : Z) (l j : nat) (r : array) : array :=
  let t := rd r j in
  let r := wr r j (barrettReduce (t + rd r (j + l))) in
  let r := wr r (j + l) (t - rd r (j + l)) in
  wr r (j + l) (modQMulMont zeta (rd r (j + l))).

(** [for (let l = 2; l <= 128; l <<= 1)], then the scaling loop. *)
Definition invNTT (r : array) : array :=
  let r := snd (layer_loop nttZetasInv invNTT_body [2; 4; 8; 16; 32; 64; 128]%nat 0 r) in
  for_loop 0 256 (λ j r, wr r j (modQMulMont (rd r j) (zeta_at nttZetasInv 127))) r.

Definition polyInvNTTMont (r : array) : array := invNTT r.

Definition polyReduce (r : array) : array :=
  for_loop 0 paramsN (λ i r, wr r i (barrettReduce (rd r i))) r.

Definition polyToMont (r : array) : array :=
  for_loop 0 paramsN (λ i r, wr r i (montgomeryReduce (int32 (rd r i) * int32 1353))) r.

Definition nttBaseMuliplier (a0 a1 b0 b1 zeta : Z) : Z * Z :=
  (modQMulMont (modQMulMont a1 b1) zeta + modQMulMont a0 b0,
   modQMulMont a0 b1 + modQMulMont a1 b0).

(** One round of the loop of [polyBaseMulMont], reading [a] and [b] and
    giving the new content of [a]. *)
Definition polyBaseMulMont_round (i : nat) (a b : array) : array :=
  let rx := nttBaseMuliplier
    (rd a (4 * i)) (rd a (4 * i + 1))
    (rd b (4 * i)) (rd b (4 * i + 1))
    (zeta_at nttZetas (64 + i)) in
  let ry := nttBaseMuliplier
    (rd a (4 * i + 2)) (rd a (4 * i + 3))
    (rd b (4 * i + 2)) (rd b (4 * i + 3))
    (- zeta_at nttZetas (64 + i)) in
  let a := wr a (4 * i) (fst rx) in
  let a := wr a (4 * i + 1) (snd rx) in
  let a := wr a (4 * i + 2) (fst ry) in
  wr a (4 * i + 3) (snd ry).

(** [polyBaseMulMont(a, b)] for two distinct arrays: the content of [a]
    after the call (the array the call returns).  The version on a store,
    where [a] and [b] may be the same array, is [Store.polyBaseMulMont]. *)
Definition polyBaseMulMont (a b : array) : array :=
  for_loop 0 (paramsN / 4) (λ i a, polyBaseMulMont_round i a b) a.

Definition polyAdd (a b : array) : array :=
  let c := new_array (length a) in
  for_loop 0 paramsN (λ i c, wr c i (rd a i + rd b i)) c.

Definition subtract (a b : array) : array :=
  for_loop 0 paramsN (λ i a, wr a i (rd a i - rd b i)) a.

(** [step2 = int32((step1 + qDiv2) / paramsQ)] is a double that [int32]
    returns as it is; [step2 & 15] casts it: [div_round_q].  The state of
    the loop is [(rr, r)]. *)
Definition compressPoly (K : nat) (polyA : array) : array :=
  let compress_t (i : nat) (shift mask : Z) : array :=
    for_loop 0 8 (λ j t,
      let step1 := int32 (js_shl (rd polyA (8 * i + j)) shift) in
      let step2 := div_round_q step1 in
      wr t j (intToByte (js_and step2 mask))) (new_array 8) in
  if decide (K = 2 ∨ K = 3)%nat then
    snd (for_loop 0 (paramsN / 8) (λ i '(rr, r),
      let t := compress_t i 4 15 in
      let r := wr r rr (intToByte (js_or (rd t 0) (js_shl (rd t 1) 4))) in
      let r := wr r (rr + 1) (intToByte (js_or (rd t 2) (js_shl (rd t 3) 4))) in
      let r := wr r (rr + 2) (intToByte (js_or (rd t 4) (js_shl (rd t 5) 4))) in
      let r := wr r (rr + 3) (intToByte (js_or (rd t 6) (js_shl (rd t 7) 4))) in
      (rr + 4, r)%nat) (0%nat, []))
  else
    snd (for_loop 0 (paramsN / 8) (λ i '(rr, r),
      let t := compress_t i 5 31 in
      let r := wr r rr (intToByte (js_or (rd t 0) (js_shl (rd t 1) 5))) in
      let r := wr r (rr + 1) (intToByte
        (js_or (js_or (js_shr (rd t 1) 3) (js_shl (rd t 2) 2)) (js_shl (rd t 3) 7))) in
      let r := wr r (rr + 2) (intToByte (js_or (js_shr (rd t 3) 1) (js_shl (rd t 4) 4))) in
      let r := wr r (rr + 3) (intToByte
        (js_or (js_or (js_shr (rd t 4) 4) (js_shl (rd t 5) 1)) (js_shl (rd t 6) 6))) in
      let r := wr r (rr + 4) (intToByte (js_or (js_shr (rd t 6) 2) (js_shl (rd t 7) 3))) in
      (rr + 5, r)%nat) (0%nat, [])).

(** A vector of polynomials, as the list of its (distinct) arrays. *)
Definition polyVectorCSubQ (K : nat) (r : list array) : list array :=
  for_loop 0 K (λ i r, <[i := polyConditionalSubQ (r !!! i)]> r) r.

Definition polyVectorInvNTTMont (K : nat) (r : list array) : list array :=
  for_loop 0 K (λ i r, <[i := polyInvNTTMont (r !!! i)]> r) r.

Definition polyVectorReduce (K : nat) (r : list array) : list array :=
  for_loop 0 K (λ i r, <[i := polyReduce (r !!! i)]> r) r.

Definition polyVectorNTT (K : nat) (r : list array) : list array :=
  for_loop 0 K (λ i r, <[i := ntt (r !!! i)]> r) r.

(** [a[i] = polyAdd(a[i], b[i])]: the polynomials of [a] are replaced by
    new arrays. *)
Definition polyVectorAdd (K : nat) (a b : list array) : list array :=
  for_loop 0 K (λ i a, <[i := polyAdd (a !!! i) (b !!! i)]> a) a.

(** The state of the loops is [(rr, r, t)]. *)
Definition compressPolyVector (K : nat) (a : list array) : array :=
  let a := polyVectorCSubQ K a in
  if decide (K = 2 ∨ K = 3)%nat then
    snd (fst (for_loop 0 K (λ i st,
      for_loop 0 (paramsN / 4) (λ j '(rr, r, t),
        let t := for_loop 0 4 (λ k t,
          wr t k (js_and (div_round_q (js_shl (rd (a !!! i) (4 * j + k)) 10)) 1023)) t in
        let r := wr r rr (byte (rd t 0)) in
        let r := wr r (rr + 1)
          (byte (js_or (byte (js_shr (rd t 0) 8)) (byte (js_shl (rd t 1) 2)))) in
        let r := wr r (rr + 2)
          (byte (js_or (byte (js_shr (rd t 1) 6)) (byte (js_shl (rd t 2) 4)))) in
        let r := wr r (rr + 3)
          (byte (js_or (byte (js_shr (rd t 2) 4)) (byte (js_shl (rd t 3) 6)))) in
        let r := wr r (rr + 4) (byte (js_shr (rd t 3) 2)) in
        (rr + 5, r, t)%nat) st) (0%nat, [], [])))
  else
    snd (fst (for_loop 0 K (λ i st,
      for_loop 0 (paramsN / 8) (λ j '(rr, r, t),
        let t := for_loop 0 8 (λ k t,
          wr t k (int32 (js_and
            (div_round_q (js_shl (int32 (rd (a !!! i) (8 * j + k))) 11)) 2047))) t in
        let r := wr r rr (byte (rd t 0)) in
        let r := wr r (rr + 1) (byte (js_or (js_shr (rd t 0) 8) (js_shl (rd t 1) 3))) in
        let r := wr r (rr + 2) (byte (js_or (js_shr (rd t 1) 5) (js_shl (rd t 2) 6))) in
        let r := wr r (rr + 3) (byte (js_shr (rd t 2) 2)) in
        let r := wr r (rr + 4) (byte (js_or (js_shr (rd t 2) 10) (js_shl (rd t 3) 1))) in
        let r := wr r (rr + 5) (byte (js_or (js_shr (rd t 3) 7) (js_shl (rd t 4) 4))) in
        let r := wr r (rr + 6) (byte (js_or (js_shr (rd t 4) 4) (js_shl (rd t 5) 7))) in
        let r := wr r (rr + 7) (byte (js_shr (rd t 5) 1)) in
        let r := wr r (rr + 8) (byte (js_or (js_shr (rd t 5) 9) (js_shl (rd t 6) 2))) in
        let r := wr r (rr + 9) (byte (js_or (js_shr (rd t 6) 6) (js_shl (rd t 7) 5))) in
        let r := wr r (rr + 10) (byte (js_shr (rd t 7) 3)) in
        (rr + 11, r, t)%nat) st) (0%nat, [], []))).

(** [r = new Array(384)]; the state of the loops is [(aa, r)].
    [uint32(paramsQ)] is [paramsQ + 2^32]; the products stay below [2^53]
    and [>>] casts them to 32 bits. *)
Definition decompressPoly (K : nat) (a : array) : array :=
  let r := new_array 384 in
  if decide (K = 2 ∨ K = 3)%nat then
    snd (for_loop 0 (paramsN / 2) (λ i '(aa, r),
      let r := wr r (2 * i)
        (int16 (js_shr (js_and (byte (rd a aa)) 15 * uint32 paramsQ + 8) 4)) in
      let r := wr r (2 * i + 1)
        (int16 (js_shr (js_shr (byte (rd a aa)) 4 * uint32 paramsQ + 8) 4)) in
      (aa + 1, r)%nat) (0%nat, r))
  else
    snd (for_loop 0 (paramsN / 8) (λ i '(aa, r),
      let t := of_list [
        rd a aa;
        js_or (byte (js_shr (rd a aa) 5)) (byte (js_shl (rd a (aa + 1)) 3));
        js_shr (rd a (aa + 1)) 2;
        js_or (byte (js_shr (rd a (aa + 1)) 7)) (byte (js_shl (rd a (aa + 2)) 1));
        js_or (byte (js_shr (rd a (aa + 2)) 4)) (byte (js_shl (rd a (aa + 3)) 4));
        js_shr (rd a (aa + 3)) 1;
        js_or (byte (js_shr (rd a (aa + 3)) 6)) (byte (js_shl (rd a (aa + 4)) 2));
        js_shr (rd a (aa + 4)) 3] in
      let aa := (aa + 5)%nat in
      let r := for_loop 0 8 (λ j r,
        wr r (8 * i + j)
          (int16 (js_shr (byte (js_and (rd t j) 31) * uint32 paramsQ + 16) 5))) r in
      (aa, r)) (0%nat, r)).

(** [r[i] = []] for [i < K]; the state of the loops is [(aa, r)] (the
    counter [ctr] of the source is never read). *)
Definition decompressPolyVector (K : nat) (a : array) : list array :=
  let r := replicate K ([] : array) in
  if decide (K = 2 ∨ K = 3)%nat then
    snd (for_loop 0 K (λ i st,
      for_loop 0 (paramsN / 4) (λ j '(aa, r),
        let t := of_list [
          js_or (uint16 (rd a aa)) (js_shl (uint16 (rd a (aa + 1))) 8);
          js_or (js_shr (uint16 (rd a (aa + 1))) 2) (js_shl (uint16 (rd a (aa + 2))) 6);
          js_or (js_shr (uint16 (rd a (aa + 2))) 4) (js_shl (uint16 (rd a (aa + 3))) 4);
          js_or (js_shr (uint16 (rd a (aa + 3))) 6) (js_shl (uint16 (rd a (aa + 4))) 2)] in
        let aa := (aa + 5)%nat in
        let r := for_loop 0 4 (λ k r,
          <[i := wr (r !!! i) (4 * j + k)
                   (js_shr (uint32 (js_and (rd t k) 1023) * paramsQ + 512) 10)]> r) r in
        (aa, r)) st) (0%nat, r))
  else
    snd (for_loop 0 K (λ i st,
      for_loop 0 (paramsN / 8) (λ j '(aa, r),
        let t := of_list [
          js_or (uint16 (rd a aa)) (js_shl (uint16 (rd a (aa + 1))) 8);
          js_or (js_shr (uint16 (rd a (aa + 1))) 3) (js_shl (uint16 (rd a (aa + 2))) 5);
          js_or (js_or (js_shr (uint16 (rd a (aa + 2))) 6)
                       (js_shl (uint16 (rd a (aa + 3))) 2))
                (js_shl (uint16 (rd a (aa + 4))) 10);
          js_or (js_shr (uint16 (rd a (aa + 4))) 1) (js_shl (uint16 (rd a (aa + 5))) 7);
          js_or (js_shr (uint16 (rd a (aa + 5))) 4) (js_shl (uint16 (rd a (aa + 6))) 4);
          js_or (js_or (js_shr (uint16 (rd a (aa + 6))) 7)
                       (js_shl (uint16 (rd a (aa + 7))) 1))
                (js_shl (uint16 (rd a (aa + 8))) 9);
          js_or (js_shr (uint16 (rd a (aa + 8))) 2) (js_shl (uint16 (rd a (aa + 9))) 6);
          js_or (js_shr (uint16 (rd a (aa + 9))) 5) (js_shl (uint16 (rd a (aa + 10))) 3)] in
        let aa := (aa + 11)%nat in
        let r := for_loop 0 8 (λ k r,
          <[i := wr (r !!! i) (8 * j + k)
                   (js_shr (uint32 (js_and (rd t k) 2047) * paramsQ + 1024) 11)]> r) r in
        (aa, r)) st) (0%nat, r)).

(** [a.slice(start, end)] on an array, for [0 <= start]. *)
Definition slice (a : array) (start end_ : nat) : array :=
  take (end_ - start) (drop start a).

(** [r = new Array(K)]; [r[i] = polyFromBytes(a.slice(...))]. *)
Definition polyVectorFromBytes (K : nat) (a : array) : list array :=
  for_loop 0 K (λ i r,
    let start := (i * paramsPolyBytes)%nat in
    let end_ := ((i + 1) * paramsPolyBytes)%nat in
    <[i := polyFromBytes (slice a start end_)]> r) (replicate K ([] : array)).

End Poly.

(** ** Arrays as shared objects

    [polyBaseMulMont] writes into the array it is given, and
    [polyVectorPointWiseAccMont] calls it on the polynomials of its
    first argument: the arrays live in a store, and a polynomial is
    the location of its array. *)

Module Store.

(** A location is a natural number. *)

Definition load (h : gmap nat array) (a : nat) : array := default [] (h !! a).

(** A new array object. *)
Definition alloc (v : array) (h : gmap nat array) : nat * gmap nat array :=
  let l := fresh (dom h) in (l, <[l := v]> h).

(** Each round reads [a] and [b] in the store and writes [a]. *)
Definition polyBaseMulMont (a b : nat) (h : gmap nat array) : nat * gmap nat array :=
  (a, Poly.for_loop 0 (paramsN / 4)
        (λ i h, <[a := Poly.polyBaseMulMont_round i (load h a) (load h b)]> h) h).

(** [polyAdd] reads [a] and [b] and returns a new array [c]. *)
Definition polyAdd (a b : nat) (h : gmap nat array) : nat * gmap nat array :=
  alloc (Poly.polyAdd (load h a) (load h b)) h.

Definition polyReduce (r : nat) (h : gmap nat array) : nat * gmap nat array :=
  (r, <[r := Poly.polyReduce (load h r)]> h).

(** The vectors [a] and [b] are the lists of the locations of their
    polynomials. *)
Definition polyVectorPointWiseAccMont (K : nat) (a b : list nat) (h : gmap nat array)
    : nat * gmap nat array :=
  let '(r, h) := polyBaseMulMont (a !!! 0%nat) (b !!! 0%nat) h in
  let '(r, h) := Poly.for_loop 1 (K - 1) (λ i '(r, h),
    let '(t, h) := polyBaseMulMont (a !!! i) (b !!! i) h in
    polyAdd r t h) (r, h) in
  polyReduce r h.

End Store.

(** ** services/kyber.service: the KEM *)

Module Kem.

(** What the KEM calls and is not part of it: the hashes of the sha3
    package (on the concatenation of the [update]s) and the IND-CPA scheme
    of lib/indcpa.  [indcpaKeyGen] draws its own randomness, given here as
    its second argument. *)
Class Collaborators := {
  sha3_256 : list Z → list Z;
  sha3_512 : list Z → list Z;
  shake256 : list Z → list Z;
  indcpaKeyGen : nat → list Z → list Z * list Z;
  indcpaEncrypt : nat → list Z → list Z → list Z → list Z;
  indcpaDecrypt : nat → list Z → list Z → list Z }.

(** [a.slice(start, end)] for [0 <= start]. *)
Definition slice (a : list Z) (start end_ : nat) : list Z :=
  take (end_ - start) (drop start a).

(** [a[i]] in a bitwise operation, for an index that may be negative. *)
Definition at_index (a : list Z) (i : Z) : Z :=
  if decide (i < 0) then 0 else default 0 (a !! Z.to_nat i).

Section WithCollaborators.
Context `{Collaborators}.

(** [rnd]: the 32 bytes drawn with [randomIntUpTo(256)]. *)
Definition generateKyberKeys (K : nat) (seed rnd : list Z) : list Z * list Z :=
  let '(pk, sk) := indcpaKeyGen K seed in
  let pkHash := sha3_256 pk in
  let sk := sk ++ pk in
  let sk := sk ++ pkHash in
  let sk := sk ++ rnd in
  (pk, sk).

(** Returns [(cipherText, sharedSecret)]. *)
Definition encrypt (K : nat) (publicKey rnd : list Z) : list Z * list Z :=
  let rndHash := sha3_256 rnd in
  let pkh := sha3_256 publicKey in
  let kr := sha3_512 (rndHash ++ pkh) in
  let kr1Buffer := slice kr 0 paramsSymBytes in
  let kr2 := slice kr paramsSymBytes (length kr) in
  let cipherText := indcpaEncrypt K publicKey rndHash kr2 in
  let cipherTextHash := sha3_256 cipherText in
  let sharedSecret := shake256 (kr1Buffer ++ cipherTextHash) in
  (cipherText, sharedSecret).

(** The run of [decrypt]: the value of [fail], the array [kr] after the
    masking loop, and the shared secret.  [kr = [...krBuf]] is a copy of
    the digest, and [kr1 = krBuf.slice(0, 32)] is a view of the digest
    itself: the loop writes the copy, and the final hash reads [kr1]. *)
Definition decrypt_run (K : nat) (cipherText privateKey : list Z)
    : Z * list Z * list Z :=
  let startIndex := 0%nat in
  let endIndex :=
    if decide (K = 2%nat) then paramsIndcpaSecretKeyBytesK512
    else if decide (K = 3%nat) then paramsIndcpaSecretKeyBytesK768
    else paramsIndcpaSecretKeyBytesK1024 in
  let indcpaPrivateKey := slice privateKey startIndex endIndex in
  let startIndex := endIndex in
  let endIndex :=
    if decide (K = 2%nat) then (endIndex + paramsIndcpaPublicKeyBytesK512)%nat
    else if decide (K = 3%nat) then (endIndex + paramsIndcpaPublicKeyBytesK768)%nat
    else (endIndex + paramsIndcpaPublicKeyBytesK1024)%nat in
  let indcpaPublicKey := slice privateKey startIndex endIndex in
  let startIndex := endIndex in
  let endIndex := (endIndex + paramsSymBytes)%nat in
  let pkHash := slice privateKey startIndex endIndex in
  let m := indcpaDecrypt K cipherText indcpaPrivateKey in
  let krBuf := sha3_512 (m ++ pkHash) in
  let kr := krBuf in
  let kr1 := slice krBuf 0 paramsSymBytes in
  let kr2 := slice krBuf paramsSymBytes (length kr) in
  let cmp := indcpaEncrypt K indcpaPublicKey m kr2 in
  let fail := constantTimeCompare cipherText cmp in
  let index := Z.of_nat (length privateKey) - Z.of_nat paramsSymBytes in
  let kr := Poly.for_loop 0 paramsSymBytes (λ i kr,
    <[i := intToByte (js_xor (at_index kr (Z.of_nat i))
             (js_and (js_and fail 255)
                     (js_xor (at_index kr (Z.of_nat i))
                             (at_index privateKey (index + Z.of_nat i)))))]> kr) kr in
  let cipherTextHash := sha3_256 cipherText in
  let sharedSecret := shake256 (kr1 ++ cipherTextHash) in
  (fail, kr, sharedSecret).

Definition decrypt (K : nat) (cipherText privateKey : list Z) : list Z :=
  snd (decrypt_run K cipherText privateKey).

(** Section 4.F of the specification, decapsulation steps 5 to 7, for the
    comparison with [decrypt]: the mask is 0xFF when the re-encryption
    differs, and the final hash reads the masked bytes. *)
Definition decapsulate_spec (K : nat) (ct sk : list Z) : list Z :=
  let skBytes := (K * paramsPolyBytes)%nat in
  let pkBytes := (K * paramsPolyBytes + paramsSymBytes)%nat in
  let sk_cpa := slice sk 0 skBytes in
  let pk := slice sk skBytes (skBytes + pkBytes) in
  let h := slice sk (skBytes + pkBytes) (skBytes + pkBytes + paramsSymBytes) in
  let z := drop (skBytes + pkBytes + paramsSymBytes) sk in
  let m' := indcpaDecrypt K ct sk_cpa in
  let kr := sha3_512 (m' ++ h) in
  let Kbar := slice kr 0 paramsSymBytes in
  let r' := slice kr paramsSymBytes (length kr) in
  let ct' := indcpaEncrypt K pk m' r' in
  let fail := if decide (ct = ct') then 0 else 255 in
  let Kbar := imap (λ i k,
    Z.lxor k (Z.land fail (Z.lxor k (default 0 (z !! i))))) Kbar in
  shake256 (Kbar ++ sha3_256 ct).

End WithCollaborators.

End Kem.

(** ** Closed forms used by the properties *)

(** What [polyConditionalSubQ] leaves in a slot that held [x]. *)
Definition csubq (x : Z) : Z :=
  (x - paramsQ) + js_and (js_shr (x - paramsQ) 31) paramsQ.

(** The butterfly of slot [i] in a layer of groups of [2 l] slots that
    takes its zetas from [table[k]] on: [lo] is what the body of the loop
    writes at [j] and [hi] what it writes at [j + l], from the zeta and the
    values of the two slots. *)
Definition butterfly (table : list Z) (lo hi : Z → Z → Z → Z)
    (l k : nat) (r : array) (i : nat) : Z :=
  let zeta := zeta_at table (k + i / (2 * l)) in
  if decide (i mod (2 * l) < l)%nat
  then lo zeta (rd r i) (rd r (i + l))
  else hi zeta (rd r (i - l)) (rd r i).

(** One layer of [ntt] and of [invNTT]: the groups of one value of [l]. *)
Definition ntt_layer (l k : nat) (r : array) : array :=
  snd (Poly.group_loop 128 nttZetas Poly.ntt_body l 0 k r).
Definition invNTT_layer (l k : nat) (r : array) : array :=
  snd (Poly.group_loop 128 nttZetasInv Poly.invNTT_body l 0 k r).

(** Congruence modulo [paramsQ]. *)
Definition eqm_q (a b : Z) : Prop := (paramsQ | a - b).

(** What the bodies of the loops of [ntt] and [invNTT] write at [j] and at
    [j + l], from the zeta and the values [a] of slot [j] and [b] of slot
    [j + l]. *)
Definition ntt_lo (zeta a b : Z) : Z := int16 (a + modQMulMont zeta b).
Definition ntt_hi (zeta a b : Z) : Z := int16 (a - modQMulMont zeta b).
Definition invNTT_lo (zeta a b : Z) : Z := barrettReduce (a + b).
Definition invNTT_hi (zeta a b : Z) : Z := modQMulMont zeta (a - b).

(** [l] is one of the values of the outer loops, with [c] groups. *)
Definition layer_of (l c : nat) : Prop :=
  (0 < l)%nat ∧ (2 * l * c = 256)%nat ∧ (c ≤ 128)%nat.


(** The three bytes that [polyToBytes] writes for the coefficients [t0]
    and [t1]. *)
Definition pack_b0 (t0 : Z) : Z := byte t0.
Definition pack_b1 (t0 t1 : Z) : Z := js_or (byte (js_shr t0 8)) (byte (js_shl t1 4)).
Definition pack_b2 (t1 : Z) : Z := byte (js_shr t1 4).

(** The two coefficients that [polyFromBytes] reads in the bytes [b0],
    [b1] and [b2]. *)
Definition unpack_c0 (b0 b1 : Z) : Z :=
  int16 (js_and (js_or (uint16 b0) (js_shl (uint16 b1) 8)) 4095).
Definition unpack_c1 (b1 b2 : Z) : Z :=
  int16 (js_and (js_or (js_shr (uint16 b1) 4) (js_shl (uint16 b2) 4)) 4095).

(** The coefficient that [polyFromData] writes for bit [j] of the byte
    [b], the bit that [polyToMsg] reads in the coefficient [x] (after the
    conditional subtraction), and the byte that [polyToMsg] builds from
    the eight coefficients of [b]. *)
Definition data_coeff (b : Z) (j : nat) : Z :=
  js_and (- int16 (js_and (js_shr b (Z.of_nat j)) 1)) (int16 ((paramsQ + 1) / 2)).
Definition msg_bit (x : Z) (j : nat) : Z :=
  byte (js_shl (js_and (div_round_q (js_shl (uint16 x) 1)) 1) (Z.of_nat j)).
Definition msg_byte (coeff : nat → Z) (v : Z) : Z :=
  Poly.for_loop 0 8 (λ j v, js_or v (msg_bit (coeff j) j)) v.

(** Section 9 of the specification, for the comparison with [uint32]:
    "the correct semantics for a modular cast to 32-bit unsigned is
    ((n % 2^32) + 2^32) % 2^32". *)
Definition uint32_spec (n : Z) : Z :=
  Z.rem (Z.rem n 4294967296 + 4294967296) 4294967296.

(** Two arrays with the same first 256 slots, and two vectors whose
    polynomials have. *)
Definition same256 (a a' : array) : Prop :=
  ∀ i, (i < 256)%nat → a !!! i = a' !!! i.
Definition same256_vec (v v' : list array) : Prop :=
  length v = length v' ∧ ∀ i, same256 (v !!! i) (v' !!! i).

(** [f] reads its argument in the first 256 slots only: two arguments
    that agree there give results related by [R]. *)
Definition coefficients_only {B : Type} (R : B → B → Prop) (f : array → B) : Prop :=
  ∀ a a', same256 a a' → R (f a) (f a').

(** The state of the loop of [polyVectorPointWiseAccMont] before round
    [i]: the polynomials of [a] before [i] hold their products, the others
    and those of [b] are as in [h], and [r] is [a[0]] or a new array. *)
Definition acc_inv (K : nat) (a b : list nat) (h : gmap nat array)
    (i : nat) (st : nat * gmap nat array) : Prop :=
  let '(r, hc) := st in
  dom h ⊆ dom hc
  ∧ (∀ j, (j < i)%nat → (j < K)%nat →
       Store.load hc (a !!! j)
       = Poly.polyBaseMulMont (Store.load h (a !!! j)) (Store.load h (b !!! j)))
  ∧ (∀ j, (i ≤ j < K)%nat → Store.load hc (a !!! j) = Store.load h (a !!! j))
  ∧ (∀ j, (j < K)%nat → Store.load hc (b !!! j) = Store.load h (b !!! j))
  ∧ (r = a !!! 0%nat ∧ i = 1%nat ∨ r ∉ dom h).


(** The secret key bytes that [decrypt] reads before the final hash, for
    the three parameter sets. *)
Definition sk_body_bytes (K : nat) : nat :=
  if decide (K = 2%nat) then Kyber512SKBytes - paramsSymBytes
  else if decide (K = 3%nat) then Kyber768SKBytes - paramsSymBytes
  else Kyber1024SKBytes - paramsSymBytes.


(** Two vectors that agree on the first 256 slots of their polynomials
    give the same bytes. *)
Definition coefficients_only_vec (f : list array → array) : Prop :=
  ∀ v v', same256_vec v v' → f v = f v'.

(** Stand-ins for the collaborators, to run the KEM on concrete bytes:
    constant digests, a [shake256] that returns its input, and an IND-CPA
    scheme with constant outputs of the sizes of Kyber-512. *)
Definition stand_ins : Kem.Collaborators := {|
  Kem.sha3_256 := λ _, replicate 32 7;
  Kem.sha3_512 := λ _, replicate 64 170;
  Kem.shake256 := λ x, x;
  Kem.indcpaKeyGen := λ K _,
    (replicate (K * 384 + 32) 1, replicate (K * 384) 2);
  Kem.indcpaEncrypt := λ _ _ _ _, replicate 768 3;
  Kem.indcpaDecrypt := λ _ _ _, replicate 32 4 |}.

(** The bit that [polyToMsg] reads in the coefficient [x]:
    [((x << 1) + q / 2) / q) & 1]. *)
Definition msg_round_bit (x : Z) : Z :=
  js_and (div_round_q (js_shl (uint16 x) 1)) 1.

(** The 256 coefficients of a polynomial, as numbers. *)
Definition coefficients (a : array) : list Z := (λ i, rd a i) <$> seq 0 256.

(** Lossy compression to 4 and 5 bits, one coefficient at a time: what
    [compressPoly] computes for the coefficient [x] ([shift] is 4 or 5 and
    [mask] is 15 or 31), and what [decompressPoly] computes for the 4-bit
    or 5-bit value [y]. *)
Definition compress_coeff (shift mask x : Z) : Z :=
  intToByte (js_and (div_round_q (int32 (js_shl x shift))) mask).
Definition decompress4 (y : Z) : Z := int16 (js_shr (y * uint32 paramsQ + 8) 4).
Definition decompress5 (y : Z) : Z :=
  int16 (js_shr (byte (js_and y 31) * uint32 paramsQ + 16) 5).

(** The distance of [x] and [y] modulo q. *)
Definition distance_mod_q (x y : Z) : Z :=
  Z.min ((x - y) mod paramsQ) ((y - x) mod paramsQ).

(** The eight 5-bit fields that [decompressPoly] reads in the five bytes
    at [aa] (before the mask [& 31]), and the five bytes that
    [compressPoly] makes of the eight 5-bit values [t 0 .. t 7]. *)
Definition unpack5 (a : array) (aa : nat) : array :=
  of_list [
    rd a aa;
    js_or (byte (js_shr (rd a aa) 5)) (byte (js_shl (rd a (aa + 1)) 3));
    js_shr (rd a (aa + 1)) 2;
    js_or (byte (js_shr (rd a (aa + 1)) 7)) (byte (js_shl (rd a (aa + 2)) 1));
    js_or (byte (js_shr (rd a (aa + 2)) 4)) (byte (js_shl (rd a (aa + 3)) 4));
    js_shr (rd a (aa + 3)) 1;
    js_or (byte (js_shr (rd a (aa + 3)) 6)) (byte (js_shl (rd a (aa + 4)) 2));
    js_shr (rd a (aa + 4)) 3].
Definition pack5 (t : nat → Z) (o : nat) : Z :=
  match o with
  | 0%nat => intToByte (js_or (t 0%nat) (js_shl (t 1%nat) 5))
  | 1%nat => intToByte
      (js_or (js_or (js_shr (t 1%nat) 3) (js_shl (t 2%nat) 2)) (js_shl (t 3%nat) 7))
  | 2%nat => intToByte (js_or (js_shr (t 3%nat) 1) (js_shl (t 4%nat) 4))
  | 3%nat => intToByte
      (js_or (js_or (js_shr (t 4%nat) 4) (js_shl (t 5%nat) 1)) (js_shl (t 6%nat) 6))
  | _ => intToByte (js_or (js_shr (t 6%nat) 2) (js_shl (t 7%nat) 3))
  end.

(** Stand-ins for the collaborators with an IND-CPA scheme that decrypts
    to the message [encrypt] hands to it (the constant digest of
    [sha3_256]), of the sizes of Kyber-768. *)
Definition decrypting_stand_ins : Kem.Collaborators := {|
  Kem.sha3_256 := λ _, replicate 32 7;
  Kem.sha3_512 := λ x, replicate 32 170 ++ replicate 32 (Z.of_nat (length x));
  Kem.shake256 := λ x, x;
  Kem.indcpaKeyGen := λ K _,
    (replicate (K * 384 + 32) 1, replicate (K * 384) 2);
  Kem.indcpaEncrypt := λ _ _ m r, m ++ r;
  Kem.indcpaDecrypt := λ _ ct _, take 32 ct |}.

(** Lossy compression to 10 and 11 bits, one coefficient at a time, as
    [compressPolyVector] and [decompressPolyVector] compute it. *)
Definition compress10 (x : Z) : Z := js_and (div_round_q (js_shl x 10)) 1023.
Definition compress11 (x : Z) : Z :=
  int32 (js_and (div_round_q (js_shl (int32 x) 11)) 2047).
Definition decompress10 (y : Z) : Z :=
  js_shr (uint32 (js_and y 1023) * paramsQ + 512) 10.
Definition decompress11 (y : Z) : Z :=
  js_shr (uint32 (js_and y 2047) * paramsQ + 1024) 11.

(** The four 10-bit fields of the five bytes at [aa], and the eight 11-bit
    fields of the eleven bytes at [aa] (before the masks), as
    [decompressPolyVector] reads them. *)
Definition unpack10 (a : array) (aa : nat) : array :=
  of_list [
    js_or (uint16 (rd a aa)) (js_shl (uint16 (rd a (aa + 1))) 8);
    js_or (js_shr (uint16 (rd a (aa + 1))) 2) (js_shl (uint16 (rd a (aa + 2))) 6);
    js_or (js_shr (uint16 (rd a (aa + 2))) 4) (js_shl (uint16 (rd a (aa + 3))) 4);
    js_or (js_shr (uint16 (rd a (aa + 3))) 6) (js_shl (uint16 (rd a (aa + 4))) 2)].
Definition unpack11 (a : array) (aa : nat) : array :=
  of_list [
    js_or (uint16 (rd a aa)) (js_shl (uint16 (rd a (aa + 1))) 8);
    js_or (js_shr (uint16 (rd a (aa + 1))) 3) (js_shl (uint16 (rd a (aa + 2))) 5);
    js_or (js_or (js_shr (uint16 (rd a (aa + 2))) 6)
                 (js_shl (uint16 (rd a (aa + 3))) 2))
          (js_shl (uint16 (rd a (aa + 4))) 10);
    js_or (js_shr (uint16 (rd a (aa + 4))) 1) (js_shl (uint16 (rd a (aa + 5))) 7);
    js_or (js_shr (uint16 (rd a (aa + 5))) 4) (js_shl (uint16 (rd a (aa + 6))) 4);
    js_or (js_or (js_shr (uint16 (rd a (aa + 6))) 7)
                 (js_shl (uint16 (rd a (aa + 7))) 1))
          (js_shl (uint16 (rd a (aa + 8))) 9);
    js_or (js_shr (uint16 (rd a (aa + 8))) 2) (js_shl (uint16 (rd a (aa + 9))) 6);
    js_or (js_shr (uint16 (rd a (aa + 9))) 5) (js_shl (uint16 (rd a (aa + 10))) 3)].

(** The five bytes of four 10-bit values and the eleven bytes of eight
    11-bit values, as [compressPolyVector] writes them. *)
Definition pack10 (t : nat → Z) (o : nat) : Z :=
  match o with
  | 0%nat => byte (t 0%nat)
  | 1%nat => byte (js_or (byte (js_shr (t 0%nat) 8)) (byte (js_shl (t 1%nat) 2)))
  | 2%nat => byte (js_or (byte (js_shr (t 1%nat) 6)) (byte (js_shl (t 2%nat) 4)))
  | 3%nat => byte (js_or (byte (js_shr (t 2%nat) 4)) (byte (js_shl (t 3%nat) 6)))
  | _ => byte (js_shr (t 3%nat) 2)
  end.
Definition pack11 (t : nat → Z) (o : nat) : Z :=
  match o with
  | 0%nat => byte (t 0%nat)
  | 1%nat => byte (js_or (js_shr (t 0%nat) 8) (js_shl (t 1%nat) 3))
  | 2%nat => byte (js_or (js_shr (t 1%nat) 5) (js_shl (t 2%nat) 6))
  | 3%nat => byte (js_shr (t 2%nat) 2)
  | 4%nat => byte (js_or (js_shr (t 2%nat) 10) (js_shl (t 3%nat) 1))
  | 5%nat => byte (js_or (js_shr (t 3%nat) 7) (js_shl (t 4%nat) 4))
  | 6%nat => byte (js_or (js_shr (t 4%nat) 4) (js_shl (t 5%nat) 7))
  | 7%nat => byte (js_shr (t 5%nat) 1)
  | 8%nat => byte (js_or (js_shr (t 5%nat) 9) (js_shl (t 6%nat) 2))
  | 9%nat => byte (js_or (js_shr (t 6%nat) 6) (js_shl (t 7%nat) 5))
  | _ => byte (js_shr (t 7%nat) 3)
  end.

(** What [compressPolyVector] and [decompressPolyVector] do by parameter
    set: the bits per coefficient are 10 (sets 2 and 3) or 11. *)
Definition vector_bytes (K : nat) : nat :=
  if decide (K = 2 ∨ K = 3)%nat then (K * 320)%nat else (K * 352)%nat.

(** The ciphertext size of the parameter set [K]. *)
Definition ciphertext_bytes (K : nat) : nat :=
  if decide (K = 2%nat) then Kyber512CTBytes
  else if decide (K = 3%nat) then Kyber768CTBytes
  else Kyber1024CTBytes.

(** ** Reading and writing the first 256 slots only *)

(** The array [r] is [a] from slot 256 on: the same length, and the same
    slots from 256 on. *)
Definition keeps_from_256 (a r : array) : Prop :=
  length r = length a ∧ ∀ j, (256 ≤ j)%nat → r !!! j = a !!! j.

(** [f] works on the first 256 slots of its argument and on nothing else:
    two arguments that agree there give results that agree there, and the
    result is its argument from slot 256 on. *)
Definition on_coefficients_in_place (f : array → array) : Prop :=
  coefficients_only same256 f
  ∧ ∀ a, (256 ≤ length a)%nat → keeps_from_256 a (f a).

(** The same for an operation on a vector of polynomials. *)
Definition on_coefficients_in_place_vec (f : list array → list array) : Prop :=
  (∀ v v', same256_vec v v' → same256_vec (f v) (f v'))
  ∧ ∀ v, length (f v) = length v
         ∧ ∀ i, (256 ≤ length (v !!! i))%nat → keeps_from_256 (v !!! i) (f v !!! i).

(** [f a b] is a new array, as long as [a], that holds values in its
    first 256 slots only, read in the first 256 slots of [a] and [b]. *)
Definition on_coefficients_new (f : array → array → array) : Prop :=
  (∀ a a' b b', same256 a a' → same256 b b' → same256 (f a b) (f a' b'))
  ∧ ∀ a b, length (f a b) = (length a `max` 256)%nat
           ∧ ∀ j, (256 ≤ j)%nat → f a b !!! j = None.

(** The same for [polyVectorAdd], which puts the new arrays in [a]: the
    polynomials below [K] are new, the others are those of [a]. *)
Definition on_coefficients_new_vec (K : nat) (f : list array → list array → list array)
    : Prop :=
  (∀ a a' b b', same256_vec a a' → same256_vec b b' → same256_vec (f a b) (f a' b'))
  ∧ ∀ a b, length (f a b) = length a
           ∧ ∀ i j, (256 ≤ j)%nat →
               (f a b !!! i) !!! j
               = if decide (i < K ∧ i < length a)%nat then None else (a !!! i) !!! j.

(** Two stores with the same locations, whose arrays agree on their
    first 256 slots. *)
Definition store_same256 (h h' : gmap nat array) : Prop :=
  dom h = dom h' ∧ ∀ l, same256 (Store.load h l) (Store.load h' l).

(** An operation on the store returns the same location in two such
    stores and leaves two such stores, and every array of at least 256
    slots is as before from slot 256 on. *)
Definition on_coefficients_in_store
    (f : gmap nat array → nat * gmap nat array) : Prop :=
  (∀ h h', store_same256 h h' → (f h).1 = (f h').1 ∧ store_same256 (f h).2 (f h').2)
  ∧ ∀ h l, (256 ≤ length (Store.load h l))%nat →
           keeps_from_256 (Store.load h l) (Store.load (f h).2 l).

(** ** The products of [polyBaseMulMont] *)

(** The array [r] holds the products of [x] and [y]: in each block of
    four slots, the product of [x0 + x1 X] and [y0 + y1 X] modulo
    [X^2 - zeta] and that of [x2 + x3 X] and [y2 + y3 X] modulo
    [X^2 + zeta], as [nttBaseMuliplier] computes them with [modQMulMont];
    modulo q they are the products times [169 = 2^-16], with [169 zeta]
    for the zeta of the table, which is in Montgomery form. *)
Definition basemul_products (x y r : array) : Prop :=
  ∀ i, (i < 64)%nat →
    let z := zeta_at nttZetas (64 + i) in
    let x0 := rd x (4 * i) in let x1 := rd x (4 * i + 1) in
    let x2 := rd x (4 * i + 2) in let x3 := rd x (4 * i + 3) in
    let y0 := rd y (4 * i) in let y1 := rd y (4 * i + 1) in
    let y2 := rd y (4 * i + 2) in let y3 := rd y (4 * i + 3) in
    r !!! (4 * i)%nat = Some (modQMulMont (modQMulMont x1 y1) z + modQMulMont x0 y0)
    ∧ r !!! (4 * i + 1)%nat = Some (modQMulMont x0 y1 + modQMulMont x1 y0)
    ∧ r !!! (4 * i + 2)%nat
      = Some (modQMulMont (modQMulMont x3 y3) (- z) + modQMulMont x2 y2)
    ∧ r !!! (4 * i + 3)%nat = Some (modQMulMont x2 y3 + modQMulMont x3 y2)
    ∧ eqm_q (rd r (4 * i)) (169 * (x0 * y0 + 169 * z * (x1 * y1)))
    ∧ eqm_q (rd r (4 * i + 1)) (169 * (x0 * y1 + x1 * y0))
    ∧ eqm_q (rd r (4 * i + 2)) (169 * (x2 * y2 - 169 * z * (x3 * y3)))
    ∧ eqm_q (rd r (4 * i + 3)) (169 * (x2 * y3 + x3 * y2)).

(** The first 256 slots of [a] hold numbers. *)
Definition dense256 (a : array) : Prop := ∀ i, (i < 256)%nat → is_Some (a !!! i).

(** * Properties *)

(** ** Reading and writing slots *)

Section Slots.
Implicit Types (a : array) (i j : nat) (v : Z).

Lemma slot_wr_eq a i v : wr a i v !!! i = Some v.
Proof.
  unfold wr. case_decide.
  - by apply list_lookup_total_insert_eq.
  - rewrite lookup_total_app_r by lia.
    rewrite lookup_total_app_r by (rewrite length_replicate; lia).
    rewrite length_replicate. by replace (i - length a - (i - length a))%nat with 0%nat by lia.
Qed.

Lemma slot_wr_ne a i j v : i ≠ j → wr a i v !!! j = a !!! j.
Proof.
  intros Hne. unfold wr. case_decide.
  - by apply list_lookup_total_insert_ne.
  - destruct (decide (j < length a)%nat) as [Hj|Hj].
    + by rewrite lookup_total_app_l.
    + rewrite (list_lookup_total_alt a), (proj2 (lookup_ge_None a j)) by lia.
      rewrite list_lookup_total_alt, lookup_app_r by lia.
      destruct (decide (j - length a < i - length a)%nat).
      * rewrite lookup_app_l by (rewrite length_replicate; lia).
        by rewrite lookup_replicate_2 by lia.
      * rewrite lookup_app_r by (rewrite length_replicate; lia).
        rewrite length_replicate.
        by rewrite (proj2 (lookup_ge_None _ _)) by (simpl; lia).
Qed.

Lemma rd_wr_eq a i v : rd (wr a i v) i = v.
Proof. unfold rd. by rewrite slot_wr_eq. Qed.

Lemma rd_wr_ne a i j v : i ≠ j → rd (wr a i v) j = rd a j.
Proof. intros. unfold rd. by rewrite slot_wr_ne. Qed.

Lemma length_wr a i v : length (wr a i v) = (length a `max` S i)%nat.
Proof.
  unfold wr. case_decide.
  - rewrite length_insert. lia.
  - rewrite !length_app, length_replicate. simpl. lia.
Qed.

Lemma length_wr_lt a i v : (i < length a)%nat → length (wr a i v) = length a.
Proof. rewrite length_wr. lia. Qed.

Lemma slot_Some_rd a i x : a !!! i = Some x → rd a i = x.
Proof. unfold rd. by intros ->. Qed.

Lemma slot_of_list (l : list Z) i x : l !! i = Some x → of_list l !!! i = Some x.
Proof.
  intros Hl. unfold of_list. apply list_lookup_total_correct.
  by rewrite list_lookup_fmap, Hl.
Qed.

End Slots.

(** ** Loops *)

Section Loops.
Context {St : Type}.
Implicit Types (body : nat → St → St) (s : St).

Lemma for_loop_0 lo body s : Poly.for_loop lo 0 body s = s.
Proof. reflexivity. Qed.

Lemma for_loop_S lo n body s :
  Poly.for_loop lo (S n) body s = Poly.for_loop (S lo) n body (body lo s).
Proof. reflexivity. Qed.

Lemma for_loop_snoc lo n body s :
  Poly.for_loop lo (S n) body s = body (lo + n)%nat (Poly.for_loop lo n body s).
Proof.
  unfold Poly.for_loop. rewrite seq_S, fold_left_app. reflexivity.
Qed.

(** Loop invariants: [P i s] holds of the state before round [i]. *)
Lemma for_loop_inv (P : nat → St → Prop) lo n body s :
  P lo s →
  (∀ i s, (lo ≤ i < lo + n)%nat → P i s → P (S i) (body i s)) →
  P (lo + n)%nat (Poly.for_loop lo n body s).
Proof.
  intros H0 Hstep. induction n as [|n IH].
  - by rewrite Nat.add_0_r.
  - rewrite for_loop_snoc. replace (lo + S n)%nat with (S (lo + n)) by lia.
    apply Hstep; [lia|]. apply IH. intros i s' Hi. apply Hstep. lia.
Qed.

Lemma for_loop_ext lo n body body' s :
  (∀ i s, (lo ≤ i < lo + n)%nat → body i s = body' i s) →
  Poly.for_loop lo n body s = Poly.for_loop lo n body' s.
Proof.
  intros Hext. induction n as [|n IH]; [done|].
  rewrite !for_loop_snoc, IH, Hext; [done|lia|]. intros i s' Hi. apply Hext. lia.
Qed.

End Loops.

(** Two loops that run in step keep their states related. *)
Lemma for_loop_rel {St St' : Type} (R : St → St' → Prop) lo n
    (body : nat → St → St) (body' : nat → St' → St') s s' :
  R s s' →
  (∀ i s s', (lo ≤ i < lo + n)%nat → R s s' → R (body i s) (body' i s')) →
  R (Poly.for_loop lo n body s) (Poly.for_loop lo n body' s').
Proof.
  intros H0 Hstep. induction n as [|n IH]; [done|].
  rewrite !for_loop_snoc. apply Hstep; [lia|]. apply IH.
  intros i t t' Hi. apply Hstep. lia.
Qed.

(** ** The casts of lib/utilities in closed form *)

Lemma rem_mod_eq n m : 0 < m → (Z.rem n m) mod m = n mod m.
Proof.
  intros Hm. rewrite (Z.quot_rem' n m) at 2.
  rewrite Z.add_comm, Z.mul_comm, Z.mod_add by lia. reflexivity.
Qed.

Lemma rem_range n m : 0 < m → - m < Z.rem n m < m.
Proof.
  intros Hm. pose proof (Z.rem_bound_abs n m ltac:(lia)). lia.
Qed.

Lemma byte_loop_eq n : byte_loop n = if decide (n < 0) then n mod 256 else n.
Proof.
  funelim (byte_loop n).
  - rewrite H. repeat case_decide; try lia.
    + replace (n + 256) with (n + 1 * 256) by lia. by rewrite Z.mod_add.
    + replace (n + 256) with (n + 1 * 256) by lia. rewrite <- (Z.mod_add n 1 256) by lia.
      rewrite Z.mod_small; lia.
  - case_decide; lia.
Qed.

Lemma byte_eq n : byte n = n mod 256.
Proof.
  unfold byte. rewrite byte_loop_eq. pose proof (rem_range n 256).
  case_decide.
  - by apply rem_mod_eq.
  - rewrite <- (rem_mod_eq n 256), Z.mod_small; lia.
Qed.

Lemma uint16_loop_eq n : uint16_loop n = if decide (n < 0) then n mod 65536 else n.
Proof.
  funelim (uint16_loop n).
  - rewrite H. repeat case_decide; try lia.
    + replace (n + 65536) with (n + 1 * 65536) by lia. by rewrite Z.mod_add.
    + replace (n + 65536) with (n + 1 * 65536) by lia.
      rewrite <- (Z.mod_add n 1 65536) by lia. rewrite Z.mod_small; lia.
  - case_decide; lia.
Qed.

Lemma uint16_eq n : uint16 n = n mod 65536.
Proof.
  unfold uint16. rewrite uint16_loop_eq. pose proof (rem_range n 65536).
  case_decide.
  - by apply rem_mod_eq.
  - rewrite <- (rem_mod_eq n 65536), Z.mod_small; lia.
Qed.

Lemma uint16_small n : 0 ≤ n < 65536 → uint16 n = n.
Proof. intros. rewrite uint16_eq. by apply Z.mod_small. Qed.

Lemma int16_small n : -32768 ≤ n ≤ 32767 → int16 n = n.
Proof. intros. unfold int16. repeat case_decide; lia. Qed.

Lemma uint32_loop_eq n :
  uint32_loop n = if decide (n < 4294967296) then n mod 4294967296 + 4294967296 else n.
Proof.
  funelim (uint32_loop n).
  - rewrite H. repeat case_decide; try lia.
    + replace (n + 4294967296) with (n + 1 * 4294967296) by lia. by rewrite Z.mod_add.
    + rewrite Z.mod_small; lia.
  - case_decide; lia.
Qed.

Lemma uint32_eq n : uint32 n = n mod 4294967296 + 4294967296.
Proof.
  unfold uint32. rewrite uint32_loop_eq. pose proof (rem_range n 4294967296).
  case_decide; [|lia]. by rewrite rem_mod_eq.
Qed.

Lemma intToByte_eq n : intToByte n = if decide (255 < n) then n mod 256 else n.
Proof.
  funelim (intToByte n).
  - rewrite H. repeat case_decide; try lia.
    + replace (n - 256) with (n + (-1) * 256) by lia. by rewrite Z.mod_add.
    + replace n with ((n - 256) + 1 * 256) at 2 by lia.
      rewrite Z.mod_add by lia. rewrite Z.mod_small; lia.
  - case_decide; lia.
Qed.

Lemma toInt32_small n : -2147483648 ≤ n < 2147483648 → toInt32 n = n.
Proof. intros. unfold toInt32. rewrite Z.mod_small; lia. Qed.

(** A loop that rewrites slot [i] in round [i], from the value it holds. *)
Lemma for_loop_pointwise (g : nat → Z → Z) n (body : nat → array → array) (r : array) :
  (∀ i s, body i s !!! i = Some (g i (rd s i))) →
  (∀ i j s, i ≠ j → body i s !!! j = s !!! j) →
  ∀ j, Poly.for_loop 0 n body r !!! j
       = if decide (j < n)%nat then Some (g j (rd r j)) else r !!! j.
Proof.
  intros Heq Hne.
  refine (for_loop_inv (λ k s, ∀ j, s !!! j
           = if decide (j < k)%nat then Some (g j (rd r j)) else r !!! j) 0 n body r _ _).
  - intros j. case_decide; [lia|done].
  - intros i s _ IH j. destruct (decide (i = j)) as [->|Hij].
    + rewrite Heq. case_decide; [|lia]. unfold rd at 1. rewrite IH.
      case_decide; [lia|done].
    + rewrite Hne, IH by done. repeat case_decide; (done || lia).
Qed.

(** ** constantTimeCompare *)

Lemma compare_from_cases (a b : list Z) i n :
  (compare_from a b i n = 0
   ∧ ∀ k, (k < n)%nat → a !! (i + k)%nat = b !! (i + k)%nat)
  ∨ (compare_from a b i n = 1
     ∧ ∃ k, (k < n)%nat ∧ a !! (i + k)%nat ≠ b !! (i + k)%nat).
Proof.
  revert i. induction n as [|n IH]; intros i; simpl.
  - left. split; [done|]. intros; lia.
  - case_decide as Hi.
    + right. split; [done|]. exists 0%nat. rewrite Nat.add_0_r. split; [lia|done].
    + try apply dec_stable in Hi. destruct (IH (S i)) as [[-> Hall]|[-> (k & Hk & Hd)]].
      * left. split; [done|]. intros [|k] Hk.
        -- by rewrite Nat.add_0_r.
        -- replace (i + S k)%nat with (S i + k)%nat by lia. apply Hall. lia.
      * right. split; [done|]. exists (S k). split; [lia|].
        by replace (i + S k)%nat with (S i + k)%nat by lia.
Qed.

Lemma constantTimeCompare_eq (a b : list Z) :
  constantTimeCompare a b = if decide (a = b) then 0 else 1.
Proof.
  unfold constantTimeCompare. case_decide as Hlen.
  - case_decide; [congruence|done].
  - try apply dec_stable in Hlen.
    destruct (compare_from_cases a b 0 (length a)) as [[-> Hall]|[-> (k & Hk & Hd)]].
    + case_decide as Hab; [done|]. exfalso. apply Hab, list_eq. intros k.
      destruct (decide (k < length a)%nat).
      * by apply Hall.
      * rewrite !(proj2 (lookup_ge_None _ _)); [done|lia..].
    + case_decide as Hab; [|done]. by subst.
Qed.

(** ** polyConditionalSubQ *)

Lemma slot_polyConditionalSubQ (r : array) j :
  Poly.polyConditionalSubQ r !!! j
  = if decide (j < 256)%nat then Some (csubq (rd r j)) else r !!! j.
Proof.
  unfold Poly.polyConditionalSubQ.
  apply (for_loop_pointwise (λ _, csubq)).
  - intros i s. by rewrite slot_wr_eq, !rd_wr_eq.
  - intros i k s Hne. by rewrite !slot_wr_ne.
Qed.

Lemma csubq_eq x :
  -2147483648 ≤ x - paramsQ < 2147483648 →
  csubq x = if decide (x < paramsQ) then x else x - paramsQ.
Proof.
  unfold csubq, js_and, js_shr, paramsQ. intros Hx.
  rewrite (toInt32_small (x - 3329)) by done.
  rewrite (toInt32_small 3329) by lia.
  change (31 mod 32) with 31. rewrite Z.shiftr_div_pow2 by lia.
  case_decide.
  - replace ((x - 3329) / 2 ^ 31) with (-1).
    + rewrite toInt32_small by lia. rewrite Z.land_m1_l. lia.
    + apply Z.div_unique with (r := x - 3329 + 2 ^ 31); lia.
  - rewrite Z.div_small by lia. rewrite toInt32_small by lia. rewrite Z.land_0_l. lia.
Qed.

(** ** The butterfly loops of [ntt] and [invNTT] *)

Section Butterflies.
Variable table : list Z.
Variable body : Z → nat → nat → array → array.
(** The body writes slots [j] and [j + l] from the values they hold. *)
Variables lo hi : Z → Z → Z → Z.
Hypothesis body_lo : ∀ zeta l j r, (0 < l)%nat →
  body zeta l j r !!! j = Some (lo zeta (rd r j) (rd r (j + l))).
Hypothesis body_hi : ∀ zeta l j r, (0 < l)%nat →
  body zeta l j r !!! (j + l)%nat = Some (hi zeta (rd r j) (rd r (j + l))).
Hypothesis body_other : ∀ zeta l j r i, i ≠ j → i ≠ (j + l)%nat →
  body zeta l j r !!! i = r !!! i.

(** The inner loop over [j]. *)
Lemma inner_loop_slot zeta l start (r : array) i : (0 < l)%nat →
  Poly.for_loop start l (body zeta l) r !!! i
  = if decide (start ≤ i < start + l)%nat
    then Some (lo zeta (rd r i) (rd r (i + l)))
    else if decide (start + l ≤ i < start + l + l)%nat
    then Some (hi zeta (rd r (i - l)) (rd r i))
    else r !!! i.
Proof.
  intros Hl. revert i.
  refine (for_loop_inv (λ j s, ∀ i, s !!! i
    = if decide (start ≤ i < j)%nat
      then Some (lo zeta (rd r i) (rd r (i + l)))
      else if decide (start + l ≤ i < j + l)%nat
      then Some (hi zeta (rd r (i - l)) (rd r i))
      else r !!! i) start l (body zeta l) r _ _).
  - intros i. repeat case_decide; (done || lia).
  - intros j s Hj IH i.
    assert (rd s j = rd r j) as Hsj.
    { unfold rd. rewrite IH. repeat case_decide; (done || lia). }
    assert (rd s (j + l) = rd r (j + l)) as Hsjl.
    { unfold rd. rewrite IH. repeat case_decide; (done || lia). }
    destruct (decide (i = j)) as [->|Hij].
    { rewrite body_lo, Hsj, Hsjl by done. repeat case_decide; (done || lia). }
    destruct (decide (i = (j + l)%nat)) as [->|Hijl].
    { rewrite body_hi, Hsj, Hsjl by done.
      replace (j + l - l)%nat with j by lia. repeat case_decide; (done || lia). }
    rewrite body_other, IH by done. repeat case_decide; (done || lia).
Qed.

Lemma group_loop_spec fuel l start k (r : array) g c :
  (0 < l)%nat → (start = 2 * l * g)%nat → (start + 2 * l * c = 256)%nat →
  (c ≤ fuel)%nat → (g ≤ k)%nat →
  fst (Poly.group_loop fuel table body l start k r) = (k + c)%nat
  ∧ ∀ i, snd (Poly.group_loop fuel table body l start k r) !!! i
         = if decide (start ≤ i < 256)%nat
           then Some (butterfly table lo hi l (k - g) r i)
           else r !!! i.
Proof.
  intros Hl. revert start k r g c.
  induction fuel as [|fuel IH]; intros start k r g c Hs Hc Hf Hkg; simpl.
  - assert (c = 0)%nat as -> by lia. split; [lia|]. intros i.
    case_decide; [lia|done].
  - case_decide as Hlt.
    + destruct c as [|c]; [lia|].
      destruct (IH (start + l + l)%nat (S k)
                  (Poly.for_loop start l (body (zeta_at table k) l) r)
                  (S g) c) as [IHk IHr]; [lia..|].
      split; [lia|]. intros i. rewrite IHr.
      assert (∀ i', (start + l + l ≤ i')%nat ∨ (i' < start)%nat →
                rd (Poly.for_loop start l (body (zeta_at table k) l) r) i' = rd r i')
        as Hframe.
      { intros i' Hi'. unfold rd. rewrite inner_loop_slot by done.
        repeat case_decide; (done || lia). }
      case_decide as Hi.
      * case_decide; [|lia]. f_equal. unfold butterfly.
        replace (S k - S g)%nat with (k - g)%nat by lia.
        case_decide as Hm.
        -- by rewrite !Hframe by lia.
        -- assert (start + l + l ≤ i - l)%nat.
           { subst start. 
             assert (i mod (2 * l) < 2 * l)%nat by (apply Nat.mod_upper_bound; lia).
             pose proof (Nat.div_mod_eq i (2 * l)).
             assert (S g ≤ i / (2 * l))%nat by (apply Nat.div_le_lower_bound; lia).
             nia. }
           by rewrite !Hframe by lia.
      * rewrite inner_loop_slot by done.
        case_decide as Hi1; [|case_decide as Hi2].
        -- case_decide; [|lia]. f_equal. unfold butterfly.
           assert (i / (2 * l) = g)%nat as ->.
           { symmetry. apply Nat.div_unique with (r := (i - start)%nat); lia. }
           assert (i mod (2 * l) = i - start)%nat as ->.
           { symmetry. apply Nat.mod_unique with (q := g); lia. }
           case_decide; [|lia]. by replace (k - g + g)%nat with k by lia.
        -- case_decide; [|lia]. f_equal. unfold butterfly.
           assert (i / (2 * l) = g)%nat as ->.
           { symmetry. apply Nat.div_unique with (r := (i - start)%nat); lia. }
           assert (i mod (2 * l) = i - start)%nat as ->.
           { symmetry. apply Nat.mod_unique with (q := g); lia. }
           case_decide; [lia|]. by replace (k - g + g)%nat with k by lia.
        -- case_decide; [lia|done].
    + assert (c = 0)%nat as -> by nia. split; [simpl; lia|]. intros i. simpl.
      case_decide; [lia|done].
Qed.

End Butterflies.

(** More rounds than groups change nothing: the loop stops on
    [start < 256], and 128 rounds are enough for every [l >= 1]. *)
Lemma group_loop_fuel_irrelevant fuel fuel' table body l start k (r : array) :
  (0 < l)%nat → (256 ≤ start + 2 * l * fuel)%nat → (256 ≤ start + 2 * l * fuel')%nat →
  Poly.group_loop fuel table body l start k r
  = Poly.group_loop fuel' table body l start k r.
Proof.
  intros Hl. revert fuel' start k r.
  induction fuel as [|fuel IH]; intros fuel' start k r Hf Hf'.
  - destruct fuel' as [|fuel']; [done|]. simpl. case_decide; [lia|done].
  - destruct fuel' as [|fuel']; simpl.
    + case_decide; [lia|done].
    + case_decide; [|done]. apply IH; nia.
Qed.

Lemma group_loop_fuel n table body l start k (r : array) : (0 < l)%nat →
  Poly.group_loop (128 + n) table body l start k r
  = Poly.group_loop 128 table body l start k r.
Proof. intros Hl. apply group_loop_fuel_irrelevant; [done|nia..]. Qed.

(** ** Arithmetic modulo q *)

#[global] Instance eqm_q_equivalence : Equivalence eqm_q.
Proof.
  unfold eqm_q. split.
  - intros a. exists 0. lia.
  - intros a b [k Hk]. exists (- k). lia.
  - intros a b c [k Hk] [k' Hk']. exists (k + k'). lia.
Qed.

#[global] Instance eqm_q_add : Proper (eqm_q ==> eqm_q ==> eqm_q) Z.add.
Proof. intros a a' [k Hk] b b' [k' Hk']. exists (k + k'). lia. Qed.

#[global] Instance eqm_q_sub : Proper (eqm_q ==> eqm_q ==> eqm_q) Z.sub.
Proof. intros a a' [k Hk] b b' [k' Hk']. exists (k - k'). lia. Qed.

#[global] Instance eqm_q_mul : Proper (eqm_q ==> eqm_q ==> eqm_q) Z.mul.
Proof.
  intros a a' [k Hk] b b' [k' Hk']. exists (k * b + a' * k').
  replace (a * b - a' * b') with ((a - a') * b + a' * (b - b')) by ring.
  rewrite Hk, Hk'. ring.
Qed.

Lemma eqm_q_of_eq a b : a = b → eqm_q a b.
Proof. by intros ->. Qed.

Lemma eqm_q_multiple a k : eqm_q (a + k * paramsQ) a.
Proof. exists k. lia. Qed.

Lemma eqm_q_mod a b : eqm_q a b ↔ a mod paramsQ = b mod paramsQ.
Proof.
  unfold eqm_q. split.
  - intros [k Hk]. replace a with (b + k * paramsQ) by lia.
    by rewrite Z.mod_add.
  - intros Hab. apply Z.mod_divide; [done|].
    by rewrite Zminus_mod, Hab, Z.sub_diag.
Qed.

(** ** The reductions *)

Lemma barrettReduce_eqm a : eqm_q (barrettReduce a) a.
Proof.
  unfold barrettReduce.
  replace (a - a * 20159 / 2 ^ 26 * paramsQ)
    with (a + (- (a * 20159 / 2 ^ 26)) * paramsQ) by lia.
  apply eqm_q_multiple.
Qed.

(** [montgomeryReduce a] is the exact quotient of [a - u q] by [2^16]. *)
Lemma montgomeryReduce_exact a :
  ∃ u, -32768 ≤ u < 32768 ∧ montgomeryReduce a * 65536 = a - u * paramsQ.
Proof.
  unfold montgomeryReduce, paramsQinv, paramsQ.
  change (2 ^ 15) with 32768. change (2 ^ 16) with 65536.
  set (u := (a * 62209 + 32768) mod 65536 - 32768).
  exists u. split.
  - pose proof (Z.mod_pos_bound (a * 62209 + 32768) 65536 ltac:(lia)). lia.
  - rewrite Z.shiftr_div_pow2 by lia. change (2 ^ 16) with 65536.
    pose proof (Z.div_mod (a * 62209 + 32768) 65536 ltac:(lia)) as Hdm.
    set (k := (a * 62209 + 32768) / 65536) in *.
    replace (a - u * 3329) with ((3329 * k - 3160 * a) * 65536) by (unfold u; lia).
    rewrite Z.div_mul by lia. reflexivity.
Qed.

Lemma montgomeryReduce_eqm a : eqm_q (montgomeryReduce a) (a * 169).
Proof.
  destruct (montgomeryReduce_exact a) as (u & _ & Hu).
  replace (a * 169) with
    (montgomeryReduce a + (3327 * montgomeryReduce a + 169 * u) * paramsQ)
    by (unfold paramsQ in *; lia).
  symmetry. apply eqm_q_multiple.
Qed.

Lemma montgomeryReduce_bound a :
  -109084672 < a < 109084672 → - paramsQ < montgomeryReduce a < paramsQ.
Proof.
  intros Ha. destruct (montgomeryReduce_exact a) as (u & Hu & Hm).
  unfold paramsQ in *. lia.
Qed.

Lemma modQMulMont_eqm x y : eqm_q (modQMulMont x y) (x * y * 169).
Proof. apply montgomeryReduce_eqm. Qed.

Lemma modQMulMont_bound x y :
  0 ≤ x < paramsQ → -32768 ≤ y ≤ 32767 →
  - paramsQ < modQMulMont x y < paramsQ.
Proof.
  intros Hx Hy. apply montgomeryReduce_bound. unfold paramsQ in *. nia.
Qed.

(** ** The layers of [ntt] and [invNTT] *)

Lemma ntt_body_lo zeta l j (r : array) : (0 < l)%nat →
  Poly.ntt_body zeta l j r !!! j = Some (ntt_lo zeta (rd r j) (rd r (j + l))).
Proof.
  intros Hl. unfold Poly.ntt_body, ntt_lo.
  by rewrite slot_wr_eq, rd_wr_ne by lia.
Qed.

Lemma ntt_body_hi zeta l j (r : array) : (0 < l)%nat →
  Poly.ntt_body zeta l j r !!! (j + l)%nat
  = Some (ntt_hi zeta (rd r j) (rd r (j + l))).
Proof.
  intros Hl. unfold Poly.ntt_body, ntt_hi.
  by rewrite slot_wr_ne, slot_wr_eq by lia.
Qed.

Lemma ntt_body_other zeta l j (r : array) i : i ≠ j → i ≠ (j + l)%nat →
  Poly.ntt_body zeta l j r !!! i = r !!! i.
Proof. intros. unfold Poly.ntt_body. by rewrite !slot_wr_ne. Qed.

Lemma invNTT_body_lo zeta l j (r : array) : (0 < l)%nat →
  Poly.invNTT_body zeta l j r !!! j
  = Some (invNTT_lo zeta (rd r j) (rd r (j + l))).
Proof.
  intros Hl. unfold Poly.invNTT_body, invNTT_lo.
  by rewrite !slot_wr_ne, slot_wr_eq by lia.
Qed.

Lemma invNTT_body_hi zeta l j (r : array) : (0 < l)%nat →
  Poly.invNTT_body zeta l j r !!! (j + l)%nat
  = Some (invNTT_hi zeta (rd r j) (rd r (j + l))).
Proof.
  intros Hl. unfold Poly.invNTT_body, invNTT_hi.
  by rewrite slot_wr_eq, rd_wr_eq, rd_wr_ne by lia.
Qed.

Lemma invNTT_body_other zeta l j (r : array) i : i ≠ j → i ≠ (j + l)%nat →
  Poly.invNTT_body zeta l j r !!! i = r !!! i.
Proof. intros. unfold Poly.invNTT_body. by rewrite !slot_wr_ne. Qed.

Lemma ntt_group_loop l c k (r : array) : layer_of l c →
  Poly.group_loop 128 nttZetas Poly.ntt_body l 0 k r = ((k + c)%nat, ntt_layer l k r).
Proof.
  intros (Hl & Hc & Hf).
  destruct (group_loop_spec nttZetas Poly.ntt_body ntt_lo ntt_hi
              ntt_body_lo ntt_body_hi ntt_body_other 128 l 0 k r 0 c)
    as [Hk _]; [lia..|].
  unfold ntt_layer. rewrite <- Hk. apply surjective_pairing.
Qed.

Lemma invNTT_group_loop l c k (r : array) : layer_of l c →
  Poly.group_loop 128 nttZetasInv Poly.invNTT_body l 0 k r
  = ((k + c)%nat, invNTT_layer l k r).
Proof.
  intros (Hl & Hc & Hf).
  destruct (group_loop_spec nttZetasInv Poly.invNTT_body invNTT_lo invNTT_hi
              invNTT_body_lo invNTT_body_hi invNTT_body_other 128 l 0 k r 0 c)
    as [Hk _]; [lia..|].
  unfold invNTT_layer. rewrite <- Hk. apply surjective_pairing.
Qed.

Lemma ntt_layer_slot l c k (r : array) i : layer_of l c →
  ntt_layer l k r !!! i
  = if decide (i < 256)%nat
    then Some (butterfly nttZetas ntt_lo ntt_hi l k r i) else r !!! i.
Proof.
  intros (Hl & Hc & Hf).
  destruct (group_loop_spec nttZetas Poly.ntt_body ntt_lo ntt_hi
              ntt_body_lo ntt_body_hi ntt_body_other 128 l 0 k r 0 c)
    as [_ Hr]; [lia..|].
  unfold ntt_layer. rewrite Hr, Nat.sub_0_r.
  repeat case_decide; (done || lia).
Qed.

Lemma invNTT_layer_slot l c k (r : array) i : layer_of l c →
  invNTT_layer l k r !!! i
  = if decide (i < 256)%nat
    then Some (butterfly nttZetasInv invNTT_lo invNTT_hi l k r i) else r !!! i.
Proof.
  intros (Hl & Hc & Hf).
  destruct (group_loop_spec nttZetasInv Poly.invNTT_body invNTT_lo invNTT_hi
              invNTT_body_lo invNTT_body_hi invNTT_body_other 128 l 0 k r 0 c)
    as [_ Hr]; [lia..|].
  unfold invNTT_layer. rewrite Hr, Nat.sub_0_r.
  repeat case_decide; (done || lia).
Qed.

Lemma ntt_layers (r : array) :
  Poly.ntt r
  = ntt_layer 2 64 (ntt_layer 4 32 (ntt_layer 8 16 (ntt_layer 16 8
      (ntt_layer 32 4 (ntt_layer 64 2 (ntt_layer 128 1 r)))))).
Proof.
  unfold Poly.ntt, Poly.layer_loop. cbn [fold_left].
  rewrite (ntt_group_loop 128 1) by (repeat split; lia).
  rewrite (ntt_group_loop 64 2) by (repeat split; lia).
  rewrite (ntt_group_loop 32 4) by (repeat split; lia).
  rewrite (ntt_group_loop 16 8) by (repeat split; lia).
  rewrite (ntt_group_loop 8 16) by (repeat split; lia).
  rewrite (ntt_group_loop 4 32) by (repeat split; lia).
  rewrite (ntt_group_loop 2 64) by (repeat split; lia).
  reflexivity.
Qed.

Lemma invNTT_layers (r : array) :
  Poly.invNTT r
  = Poly.for_loop 0 256
      (λ j r, wr r j (modQMulMont (rd r j) (zeta_at nttZetasInv 127)))
      (invNTT_layer 128 126 (invNTT_layer 64 124 (invNTT_layer 32 120
        (invNTT_layer 16 112 (invNTT_layer 8 96 (invNTT_layer 4 64
          (invNTT_layer 2 0 r))))))).
Proof.
  unfold Poly.invNTT, Poly.layer_loop. cbn [fold_left].
  rewrite (invNTT_group_loop 2 64) by (repeat split; lia).
  rewrite (invNTT_group_loop 4 32) by (repeat split; lia).
  rewrite (invNTT_group_loop 8 16) by (repeat split; lia).
  rewrite (invNTT_group_loop 16 8) by (repeat split; lia).
  rewrite (invNTT_group_loop 32 4) by (repeat split; lia).
  rewrite (invNTT_group_loop 64 2) by (repeat split; lia).
  rewrite (invNTT_group_loop 128 1) by (repeat split; lia).
  reflexivity.
Qed.

Lemma rd_ntt_layer l c k (r : array) i : layer_of l c → (i < 256)%nat →
  rd (ntt_layer l k r) i = butterfly nttZetas ntt_lo ntt_hi l k r i.
Proof.
  intros Hlc Hi. apply slot_Some_rd. rewrite (ntt_layer_slot l c) by done.
  case_decide; [done|lia].
Qed.

Lemma rd_invNTT_layer l c k (r : array) i : layer_of l c → (i < 256)%nat →
  rd (invNTT_layer l k r) i = butterfly nttZetasInv invNTT_lo invNTT_hi l k r i.
Proof.
  intros Hlc Hi. apply slot_Some_rd. rewrite (invNTT_layer_slot l c) by done.
  case_decide; [done|lia].
Qed.

(** ** The zeta tables *)

Lemma nttZetas_range k : 0 ≤ zeta_at nttZetas k < paramsQ.
Proof.
  assert (Forall (λ z, 0 ≤ z < paramsQ) nttZetas) as Hall.
  { refine (bool_decide_unpack _ _). by vm_compute. }
  unfold zeta_at. destruct (nttZetas !! k) as [z|] eqn:Hk; simpl.
  - by apply (Forall_lookup_1 _ _ _ _ Hall Hk).
  - unfold paramsQ. lia.
Qed.

(** The zeta of group [g] of the layer of [invNTT] that starts at
    [nttZetasInv[k']] inverts the zeta of group [g] of the layer of [ntt]
    that starts at [nttZetas[k]]; both are in Montgomery form, and 169 is
    the inverse of [2^16] modulo q. *)
Definition zetas_inverse (k k' c : nat) : Prop :=
  ∀ g, (g < c)%nat →
    (zeta_at nttZetasInv (k' + g) * zeta_at nttZetas (k + g) * 28561) mod paramsQ
    = 1 mod paramsQ.

Lemma zetas_inverse_check k k' c :
  Forall (λ g, (zeta_at nttZetasInv (k' + g) * zeta_at nttZetas (k + g) * 28561)
               mod paramsQ = 1 mod paramsQ) (seq 0 c) →
  zetas_inverse k k' c.
Proof.
  intros Hall g Hg. rewrite Forall_forall in Hall. apply Hall.
  apply elem_of_seq. lia.
Qed.

Lemma zetas_inverse_128 : zetas_inverse 1 126 1.
Proof. apply zetas_inverse_check. refine (bool_decide_unpack _ _). by vm_compute. Qed.
Lemma zetas_inverse_64 : zetas_inverse 2 124 2.
Proof. apply zetas_inverse_check. refine (bool_decide_unpack _ _). by vm_compute. Qed.
Lemma zetas_inverse_32 : zetas_inverse 4 120 4.
Proof. apply zetas_inverse_check. refine (bool_decide_unpack _ _). by vm_compute. Qed.
Lemma zetas_inverse_16 : zetas_inverse 8 112 8.
Proof. apply zetas_inverse_check. refine (bool_decide_unpack _ _). by vm_compute. Qed.
Lemma zetas_inverse_8 : zetas_inverse 16 96 16.
Proof. apply zetas_inverse_check. refine (bool_decide_unpack _ _). by vm_compute. Qed.
Lemma zetas_inverse_4 : zetas_inverse 32 64 32.
Proof. apply zetas_inverse_check. refine (bool_decide_unpack _ _). by vm_compute. Qed.
Lemma zetas_inverse_2 : zetas_inverse 64 0 64.
Proof. apply zetas_inverse_check. refine (bool_decide_unpack _ _). by vm_compute. Qed.

(** ** Indices of a layer *)

Lemma layer_index_lo l c i : layer_of l c → (i < 256)%nat →
  (i mod (2 * l) < l)%nat →
  (i + l < 256)%nat ∧ ((i + l) / (2 * l) = i / (2 * l))%nat
  ∧ ((i + l) mod (2 * l) = i mod (2 * l) + l)%nat ∧ (i / (2 * l) < c)%nat.
Proof.
  intros (Hl & Hc & _) Hi Hm.
  pose proof (Nat.div_mod_eq i (2 * l)) as Hdm.
  set (g := (i / (2 * l))%nat) in *. set (m := (i mod (2 * l))%nat) in *.
  assert (g < c)%nat by nia.
  assert ((i + l) / (2 * l) = g)%nat as Hd.
  { symmetry. apply Nat.div_unique with (r := (m + l)%nat); lia. }
  assert ((i + l) mod (2 * l) = m + l)%nat as Hr.
  { symmetry. apply Nat.mod_unique with (q := g); lia. }
  repeat split; try done. nia.
Qed.

Lemma layer_index_hi l c i : layer_of l c → (i < 256)%nat →
  ¬ (i mod (2 * l) < l)%nat →
  (l ≤ i)%nat ∧ ((i - l) / (2 * l) = i / (2 * l))%nat
  ∧ ((i - l) mod (2 * l) = i mod (2 * l) - l)%nat
  ∧ ((i - l) mod (2 * l) < l)%nat ∧ (i / (2 * l) < c)%nat.
Proof.
  intros (Hl & Hc & _) Hi Hm.
  pose proof (Nat.div_mod_eq i (2 * l)) as Hdm.
  assert (i mod (2 * l) < 2 * l)%nat by (apply Nat.mod_upper_bound; lia).
  set (g := (i / (2 * l))%nat) in *. set (m := (i mod (2 * l))%nat) in *.
  assert (g < c)%nat by nia.
  assert ((i - l) / (2 * l) = g)%nat as Hd.
  { symmetry. apply Nat.div_unique with (r := (m - l)%nat); lia. }
  assert ((i - l) mod (2 * l) = m - l)%nat as Hr.
  { symmetry. apply Nat.mod_unique with (q := g); lia. }
  repeat split; try done; lia.
Qed.

(** ** One layer of [ntt], without overflow *)

Section NttLayer.
Variables (l c k : nat) (x : array) (M : Z).
Hypothesis Hlayer : layer_of l c.
Hypothesis Hx : ∀ i, (i < 256)%nat → - M ≤ rd x i ≤ M.
Hypothesis HM : 0 ≤ M ∧ M + paramsQ ≤ 32768.

Lemma ntt_layer_lo i : (i < 256)%nat → (i mod (2 * l) < l)%nat →
  rd (ntt_layer l k x) i
  = rd x i + modQMulMont (zeta_at nttZetas (k + i / (2 * l))) (rd x (i + l)).
Proof.
  intros Hi Hm. destruct (layer_index_lo l c i) as (Hil & _); [done..|].
  rewrite (rd_ntt_layer l c) by (done || lia). unfold butterfly.
  case_decide; [|lia]. unfold ntt_lo.
  pose proof (Hx i Hi). pose proof (Hx (i + l)%nat Hil).
  pose proof (modQMulMont_bound (zeta_at nttZetas (k + i / (2 * l)))
                (rd x (i + l)) (nttZetas_range _)).
  pose proof HM as HM'. unfold paramsQ in *. apply int16_small. lia.
Qed.

Lemma ntt_layer_hi i : (i < 256)%nat → (i mod (2 * l) < l)%nat →
  rd (ntt_layer l k x) (i + l)
  = rd x i - modQMulMont (zeta_at nttZetas (k + i / (2 * l))) (rd x (i + l)).
Proof.
  intros Hi Hm.
  destruct (layer_index_lo l c i) as (Hil & Hd & Hr & _); [done..|].
  rewrite (rd_ntt_layer l c) by (done || lia). unfold butterfly.
  case_decide; [lia|]. unfold ntt_hi. rewrite Hd.
  replace (i + l - l)%nat with i by lia.
  pose proof (Hx i Hi). pose proof (Hx (i + l)%nat Hil).
  pose proof (modQMulMont_bound (zeta_at nttZetas (k + i / (2 * l)))
                (rd x (i + l)) (nttZetas_range _)).
  pose proof HM as HM'. unfold paramsQ in *. apply int16_small. lia.
Qed.

Lemma ntt_layer_bound i : (i < 256)%nat →
  - (M + paramsQ) ≤ rd (ntt_layer l k x) i ≤ M + paramsQ.
Proof.
  intros Hi. destruct (decide (i mod (2 * l) < l)%nat) as [Hm|Hm].
  - rewrite ntt_layer_lo by done.
    destruct (layer_index_lo l c i) as (Hil & _); [done..|].
    pose proof (Hx i Hi). pose proof (Hx (i + l)%nat Hil).
    pose proof (modQMulMont_bound (zeta_at nttZetas (k + i / (2 * l)))
                  (rd x (i + l)) (nttZetas_range _)).
    pose proof HM as HM'. unfold paramsQ in *. lia.
  - destruct (layer_index_hi l c i) as (Hli & Hd & Hr & Hlt & _); [done..|].
    replace (rd (ntt_layer l k x) i)
      with (rd (ntt_layer l k x) (i - l + l)) by (f_equal; lia).
    rewrite ntt_layer_hi by (done || lia).
    replace (i - l + l)%nat with i by lia.
    pose proof (Hx i Hi). pose proof (Hx (i - l)%nat ltac:(lia)).
    pose proof (modQMulMont_bound (zeta_at nttZetas (k + (i - l) / (2 * l)))
                  (rd x i) (nttZetas_range _)).
    pose proof HM as HM'. unfold paramsQ in *. lia.
Qed.

(** The layer of [invNTT] undoes the layer of [ntt], up to a factor 2:
    if [y] is [m] times the [ntt] layer of [x], modulo q, the [invNTT]
    layer of [y] is [2 m] times [x]. *)
Lemma invNTT_layer_ntt_layer k' (y : array) m :
  zetas_inverse k k' c →
  (∀ i, (i < 256)%nat → eqm_q (rd y i) (m * rd (ntt_layer l k x) i)) →
  ∀ i, (i < 256)%nat → eqm_q (rd (invNTT_layer l k' y) i) (2 * m * rd x i).
Proof.
  intros Hz Hy i Hi.
  rewrite (rd_invNTT_layer l c) by done. unfold butterfly. case_decide as Hm.
  - destruct (layer_index_lo l c i) as (Hil & _); [done..|].
    unfold invNTT_lo. rewrite barrettReduce_eqm.
    rewrite (Hy i), (Hy (i + l)%nat) by done.
    rewrite ntt_layer_lo, ntt_layer_hi by done.
    apply eqm_q_of_eq. ring.
  - destruct (layer_index_hi l c i) as (Hli & Hd & Hr & Hlt & Hg); [done..|].
    unfold invNTT_hi. rewrite modQMulMont_eqm.
    rewrite (Hy i), (Hy (i - l)%nat) by (done || lia).
    replace (rd (ntt_layer l k x) i)
      with (rd (ntt_layer l k x) (i - l + l)) by (f_equal; lia).
    rewrite ntt_layer_lo, ntt_layer_hi by (done || lia).
    replace (i - l + l)%nat with i by lia. rewrite Hd.
    rewrite modQMulMont_eqm.
    set (z := zeta_at nttZetas (k + i / (2 * l))).
    set (z' := zeta_at nttZetasInv (k' + i / (2 * l))).
    transitivity (2 * m * rd x i * (z' * z * 28561));
      [apply eqm_q_of_eq; ring|].
    assert (eqm_q (z' * z * 28561) 1) as -> by (by apply eqm_q_mod, Hz).
    apply eqm_q_of_eq. ring.
Qed.

End NttLayer.

(** ** [invNTT] after [ntt] *)

Lemma layer_of_values :
  layer_of 128 1 ∧ layer_of 64 2 ∧ layer_of 32 4 ∧ layer_of 16 8
  ∧ layer_of 8 16 ∧ layer_of 4 32 ∧ layer_of 2 64.
Proof. unfold layer_of. repeat split; lia. Qed.

Lemma slot_scaling_loop (r : array) j :
  Poly.for_loop 0 256
    (λ j r, wr r j (modQMulMont (rd r j) (zeta_at nttZetasInv 127))) r !!! j
  = if decide (j < 256)%nat then Some (modQMulMont (rd r j) 1441) else r !!! j.
Proof.
  apply (for_loop_pointwise (λ _ v, modQMulMont v 1441)).
  - intros i s. by rewrite slot_wr_eq.
  - intros i k s Hne. by rewrite slot_wr_ne.
Qed.

(** For an array whose first 256 slots are bounded by 9464, [invNTT] after
    [ntt] multiplies every coefficient by [2^16], modulo q. *)
Lemma invNTT_ntt_slot (x : array) i :
  (∀ i, (i < 256)%nat → -9464 ≤ rd x i ≤ 9464) →
  (i < 256)%nat →
  ∃ v, Poly.invNTT (Poly.ntt x) !!! i = Some v ∧ eqm_q v (65536 * rd x i).
Proof.
  intros Hx Hi.
  destruct layer_of_values as (L128 & L64 & L32 & L16 & L8 & L4 & L2).
  rewrite invNTT_layers, ntt_layers.
  set (x6 := ntt_layer 128 1 x). set (x5 := ntt_layer 64 2 x6).
  set (x4 := ntt_layer 32 4 x5). set (x3 := ntt_layer 16 8 x4).
  set (x2 := ntt_layer 8 16 x3). set (x1 := ntt_layer 4 32 x2).
  assert (∀ i, (i < 256)%nat → - (9464 + paramsQ) ≤ rd x6 i ≤ 9464 + paramsQ) as B6.
  { intros j Hj. by apply (ntt_layer_bound 128 1 1 x 9464). }
  assert (∀ i, (i < 256)%nat → - (12793 + paramsQ) ≤ rd x5 i ≤ 12793 + paramsQ) as B5.
  { intros j Hj. by apply (ntt_layer_bound 64 2 2 x6 12793). }
  assert (∀ i, (i < 256)%nat → - (16122 + paramsQ) ≤ rd x4 i ≤ 16122 + paramsQ) as B4.
  { intros j Hj. by apply (ntt_layer_bound 32 4 4 x5 16122). }
  assert (∀ i, (i < 256)%nat → - (19451 + paramsQ) ≤ rd x3 i ≤ 19451 + paramsQ) as B3.
  { intros j Hj. by apply (ntt_layer_bound 16 8 8 x4 19451). }
  assert (∀ i, (i < 256)%nat → - (22780 + paramsQ) ≤ rd x2 i ≤ 22780 + paramsQ) as B2.
  { intros j Hj. by apply (ntt_layer_bound 8 16 16 x3 22780). }
  assert (∀ i, (i < 256)%nat → - (26109 + paramsQ) ≤ rd x1 i ≤ 26109 + paramsQ) as B1.
  { intros j Hj. by apply (ntt_layer_bound 4 32 32 x2 26109). }
  set (y1 := invNTT_layer 2 0 (ntt_layer 2 64 x1)).
  set (y2 := invNTT_layer 4 64 y1). set (y3 := invNTT_layer 8 96 y2).
  set (y4 := invNTT_layer 16 112 y3). set (y5 := invNTT_layer 32 120 y4).
  set (y6 := invNTT_layer 64 124 y5). set (y7 := invNTT_layer 128 126 y6).
  assert (∀ i, (i < 256)%nat → eqm_q (rd y1 i) (2 * 1 * rd x1 i)) as E1.
  { apply (invNTT_layer_ntt_layer 2 64 64 x1 29438); try done.
    - apply zetas_inverse_2.
    - intros j Hj. apply eqm_q_of_eq. lia. }
  assert (∀ i, (i < 256)%nat → eqm_q (rd y2 i) (2 * 2 * rd x2 i)) as E2.
  { apply (invNTT_layer_ntt_layer 4 32 32 x2 26109); try done.
    apply zetas_inverse_4. }
  assert (∀ i, (i < 256)%nat → eqm_q (rd y3 i) (2 * 4 * rd x3 i)) as E3.
  { apply (invNTT_layer_ntt_layer 8 16 16 x3 22780); try done.
    apply zetas_inverse_8. }
  assert (∀ i, (i < 256)%nat → eqm_q (rd y4 i) (2 * 8 * rd x4 i)) as E4.
  { apply (invNTT_layer_ntt_layer 16 8 8 x4 19451); try done.
    apply zetas_inverse_16. }
  assert (∀ i, (i < 256)%nat → eqm_q (rd y5 i) (2 * 16 * rd x5 i)) as E5.
  { apply (invNTT_layer_ntt_layer 32 4 4 x5 16122); try done.
    apply zetas_inverse_32. }
  assert (∀ i, (i < 256)%nat → eqm_q (rd y6 i) (2 * 32 * rd x6 i)) as E6.
  { apply (invNTT_layer_ntt_layer 64 2 2 x6 12793); try done.
    apply zetas_inverse_64. }
  assert (∀ i, (i < 256)%nat → eqm_q (rd y7 i) (2 * 64 * rd x i)) as E7.
  { apply (invNTT_layer_ntt_layer 128 1 1 x 9464); try done.
    apply zetas_inverse_128. }
  exists (modQMulMont (rd y7 i) 1441). split.
  - rewrite slot_scaling_loop. case_decide; [done|lia].
  - rewrite modQMulMont_eqm, (E7 i Hi).
    replace (2 * 64 * rd x i * 1441 * 169)
      with (65536 * rd x i + (9344 * rd x i) * paramsQ) by (unfold paramsQ; lia).
    apply eqm_q_multiple.
Qed.

(** ** Bitwise operators on small non-negative numbers *)

Lemma lor_disjoint a b n :
  0 ≤ n → 0 ≤ a < 2 ^ n → Z.lor a (b * 2 ^ n) = a + b * 2 ^ n.
Proof.
  intros Hn Ha.
  assert (Z.land a (b * 2 ^ n) = 0) as Hland.
  { apply Z.bits_inj'. intros k Hk. rewrite Z.land_spec, Z.bits_0.
    destruct (Z.lt_ge_cases k n) as [Hkn|Hkn].
    - rewrite Z.mul_pow2_bits_low by lia. apply andb_false_r.
    - destruct (decide (a = 0)) as [->|Hne].
      + by rewrite Z.bits_0.
      + rewrite (Z.bits_above_log2 a k); [done|lia|].
        assert (Z.log2 a < n) by (apply Z.log2_lt_pow2; lia). lia. }
  by rewrite Z.add_nocarry_lxor, Z.lxor_lor.
Qed.

Lemma js_or_small a b :
  -2147483648 ≤ a < 2147483648 → -2147483648 ≤ b < 2147483648 →
  js_or a b = Z.lor a b.
Proof. intros. unfold js_or. by rewrite !toInt32_small. Qed.

Lemma js_and_ones a n :
  -2147483648 ≤ a < 2147483648 → 0 ≤ n ≤ 31 →
  js_and a (2 ^ n - 1) = a mod 2 ^ n.
Proof.
  intros Ha Hn. unfold js_and. rewrite toInt32_small by done.
  assert (0 < 2 ^ n ≤ 2 ^ 31).
  { split; [lia|]. apply Z.pow_le_mono_r; lia. }
  rewrite toInt32_small by lia.
  replace (2 ^ n - 1) with (Z.ones n) by (rewrite Z.ones_equiv; lia).
  apply Z.land_ones. lia.
Qed.

Lemma js_shl_small a n :
  0 ≤ n ≤ 31 → -2147483648 ≤ a * 2 ^ n < 2147483648 →
  -2147483648 ≤ a < 2147483648 → js_shl a n = a * 2 ^ n.
Proof.
  intros Hn Hs Ha. unfold js_shl. rewrite (toInt32_small a) by done.
  rewrite Z.mod_small by lia. rewrite Z.shiftl_mul_pow2 by lia.
  by apply toInt32_small.
Qed.

Lemma js_shr_small a n :
  0 ≤ n ≤ 31 → -2147483648 ≤ a < 2147483648 → js_shr a n = a / 2 ^ n.
Proof.
  intros Hn Ha. unfold js_shr. rewrite toInt32_small by done.
  rewrite Z.mod_small by lia. apply Z.shiftr_div_pow2. lia.
Qed.

(** ** The 12-bit packing of two coefficients into three bytes *)

Section Pack.
Variables t0 t1 : Z.
Hypothesis Ht0 : 0 ≤ t0 < 4096.
Hypothesis Ht1 : 0 ≤ t1 < 4096.

Lemma pack_b0_eq : pack_b0 t0 = t0 mod 256.
Proof. apply byte_eq. Qed.

Lemma pack_b1_eq : pack_b1 t0 t1 = t0 / 256 + (t1 mod 16) * 16.
Proof.
  unfold pack_b1. rewrite !byte_eq.
  rewrite js_shr_small, js_shl_small by lia.
  change (2 ^ 8) with 256. change (2 ^ 4) with 16.
  assert (0 ≤ t0 / 256 < 16).
  { split; [apply Z.div_pos; lia|apply Z.div_lt_upper_bound; lia]. }
  rewrite (Z.mod_small (t0 / 256)) by lia.
  replace (t1 * 16 mod 256) with ((t1 mod 16) * 16).
  2: { change 256 with (16 * 16). rewrite (Z.mul_comm t1).
       rewrite Z.mul_mod_distr_l by lia. lia. }
  pose proof (Z.mod_pos_bound t1 16 ltac:(lia)).
  rewrite js_or_small by lia.
  change 16 with (2 ^ 4) at 2. apply lor_disjoint; lia.
Qed.

Lemma pack_b2_eq : pack_b2 t1 = t1 / 16.
Proof.
  unfold pack_b2. rewrite byte_eq, js_shr_small by lia.
  change (2 ^ 4) with 16. apply Z.mod_small.
  split; [apply Z.div_pos; lia|apply Z.div_lt_upper_bound; lia].
Qed.

Lemma unpack_first : unpack_c0 (pack_b0 t0) (pack_b1 t0 t1) = t0.
Proof.
  unfold unpack_c0.
  rewrite pack_b0_eq, pack_b1_eq.
  pose proof (Z.mod_pos_bound t0 256 ltac:(lia)).
  pose proof (Z.mod_pos_bound t1 16 ltac:(lia)).
  assert (0 ≤ t0 / 256 < 16).
  { split; [apply Z.div_pos; lia|apply Z.div_lt_upper_bound; lia]. }
  rewrite !uint16_small by lia.
  rewrite js_shl_small by lia. change (2 ^ 8) with 256.
  rewrite js_or_small by lia.
  change 256 with (2 ^ 8) at 3. rewrite lor_disjoint by lia.
  change 4095 with (2 ^ 12 - 1). rewrite js_and_ones by lia.
  change (2 ^ 8) with 256. change (2 ^ 12) with 4096.
  pose proof (Z.div_mod t0 256 ltac:(lia)).
  replace (t0 mod 256 + (t0 / 256 + t1 mod 16 * 16) * 256)
    with (t0 + (t1 mod 16) * 4096) by lia.
  rewrite Z.mod_add, Z.mod_small by lia. apply int16_small. lia.
Qed.

Lemma unpack_second : unpack_c1 (pack_b1 t0 t1) (pack_b2 t1) = t1.
Proof.
  unfold unpack_c1.
  rewrite pack_b1_eq, pack_b2_eq.
  pose proof (Z.mod_pos_bound t1 16 ltac:(lia)).
  assert (0 ≤ t0 / 256 < 16).
  { split; [apply Z.div_pos; lia|apply Z.div_lt_upper_bound; lia]. }
  assert (0 ≤ t1 / 16 < 256).
  { split; [apply Z.div_pos; lia|apply Z.div_lt_upper_bound; lia]. }
  rewrite !uint16_small by lia.
  rewrite js_shr_small, js_shl_small by lia. change (2 ^ 4) with 16.
  rewrite Z.div_add, (Z.div_small (t0 / 256)), Z.add_0_l by lia.
  rewrite js_or_small by lia.
  change 16 with (2 ^ 4) at 3. rewrite lor_disjoint by lia.
  change 4095 with (2 ^ 12 - 1). rewrite js_and_ones by lia.
  change (2 ^ 4) with 16. change (2 ^ 12) with 4096.
  pose proof (Z.div_mod t1 16 ltac:(lia)).
  replace (t1 mod 16 + t1 / 16 * 16) with t1 by lia.
  rewrite Z.mod_small by lia. apply int16_small. lia.
Qed.

End Pack.

(** ** Loops that fill an array *)

(** Round [i] writes the [w] slots from [w i] on, whatever the array
    holds. *)
Lemma for_loop_blocks (w : nat) (f : nat → nat → Z) n
    (body : nat → array → array) (r0 : array) :
  (0 < w)%nat →
  (∀ i s o, (o < w)%nat → body i s !!! (w * i + o)%nat = Some (f i o)) →
  (∀ i s j, (j < w * i ∨ w * i + w ≤ j)%nat → body i s !!! j = s !!! j) →
  ∀ j, Poly.for_loop 0 n body r0 !!! j
       = if decide (j < w * n)%nat then Some (f (j / w)%nat (j mod w)%nat)
         else r0 !!! j.
Proof.
  intros Hw Hblock Hframe.
  refine (for_loop_inv (λ k s, ∀ j, s !!! j
      = if decide (j < w * k)%nat then Some (f (j / w)%nat (j mod w)%nat)
        else r0 !!! j) 0 n body r0 _ _).
  - intros j. case_decide; [lia|done].
  - intros i s _ IH j.
    destruct (decide (w * i ≤ j < w * i + w)%nat) as [Hj|Hj].
    + replace j with (w * i + (j - w * i))%nat at 1 by lia.
      rewrite Hblock by lia. case_decide; [|lia].
      assert (j / w = i)%nat as ->.
      { symmetry. apply Nat.div_unique with (r := (j - w * i)%nat); lia. }
      assert (j mod w = j - w * i)%nat as ->; [|done].
      symmetry. apply Nat.mod_unique with (q := i); lia.
    + rewrite Hframe, IH by lia. repeat case_decide; (done || lia).
Qed.

(** A loop that writes the slots from [base] on. *)
Lemma for_loop_writes base (v : nat → Z) n (r : array) j :
  Poly.for_loop 0 n (λ o r, wr r (base + o) (v o)) r !!! j
  = if decide (base ≤ j < base + n)%nat then Some (v (j - base)%nat) else r !!! j.
Proof.
  revert j.
  refine (for_loop_inv (λ k s, ∀ j, s !!! j
      = if decide (base ≤ j < base + k)%nat then Some (v (j - base)%nat)
        else r !!! j) 0 n _ r _ _).
  - intros j. case_decide; [lia|done].
  - intros o s _ IH j. destruct (decide (j = (base + o)%nat)) as [->|Hj].
    + rewrite slot_wr_eq. case_decide; [|lia].
      by replace (base + o - base)%nat with o by lia.
    + rewrite slot_wr_ne, IH by done. repeat case_decide; (done || lia).
Qed.

(** A loop that folds a value into one slot. *)
Lemma for_loop_accumulate i (h : nat → Z → Z) n (m : array) j :
  Poly.for_loop 0 (S n) (λ o m, wr m i (h o (rd m i))) m !!! j
  = if decide (j = i) then Some (Poly.for_loop 0 (S n) h (rd m i)) else m !!! j.
Proof.
  induction n as [|n IH].
  - unfold Poly.for_loop. simpl. case_decide as Hj.
    + subst. by rewrite slot_wr_eq.
    + by rewrite slot_wr_ne.
  - rewrite for_loop_snoc. case_decide as Hj.
    + subst. rewrite slot_wr_eq. rewrite (for_loop_snoc 0 (S n) h).
      do 2 f_equal. by apply slot_Some_rd.
    + by rewrite slot_wr_ne.
Qed.

Lemma for_loop_length N n (body : nat → array → array) (r : array) :
  (∀ i s, (i < n)%nat → length s = N → length (body i s) = N) →
  length r = N → length (Poly.for_loop 0 n body r) = N.
Proof.
  intros Hbody Hr.
  refine (for_loop_inv (λ _ s, length s = N) 0 n body r _ _); [done|].
  intros i s Hi Hs. apply Hbody; [lia|done].
Qed.

Lemma array_eq (a b : array) :
  length a = length b → (∀ i, (i < length a)%nat → a !!! i = b !!! i) → a = b.
Proof.
  intros Hlen Hslot. apply list_eq. intros i.
  destruct (decide (i < length a)%nat) as [Hi|Hi].
  - rewrite !list_lookup_lookup_total_lt by lia. f_equal. by apply Hslot.
  - rewrite !(proj2 (lookup_ge_None _ _)); [done|lia..].
Qed.

(** ** The codecs, slot by slot *)

Lemma slot_polyToBytes (a : array) j :
  Poly.polyToBytes a !!! j
  = if decide (j < 384)%nat
    then Some (let a2 := Poly.polyConditionalSubQ a in
               let t0 := uint16 (rd a2 (2 * (j / 3))) in
               let t1 := uint16 (rd a2 (2 * (j / 3) + 1)) in
               match (j mod 3)%nat with
               | 0%nat => pack_b0 t0
               | 1%nat => pack_b1 t0 t1
               | _ => pack_b2 t1
               end)
    else None.
Proof.
  unfold Poly.polyToBytes.
  rewrite (for_loop_blocks 3 (λ i o,
    let a2 := Poly.polyConditionalSubQ a in
    let t0 := uint16 (rd a2 (2 * i)) in
    let t1 := uint16 (rd a2 (2 * i + 1)) in
    match o with 0%nat => pack_b0 t0 | 1%nat => pack_b1 t0 t1 | _ => pack_b2 t1 end));
    [|lia|..].
  - change (3 * (paramsN / 2))%nat with 384%nat. case_decide; [done|].
    unfold new_array. rewrite list_lookup_total_alt.
    by rewrite (proj1 (lookup_replicate_None _ _ _)) by (unfold paramsPolyBytes; lia).
  - intros i s o Ho. destruct o as [|[|[|o]]]; [| | |lia].
    + rewrite Nat.add_0_r. by rewrite !slot_wr_ne, slot_wr_eq by lia.
    + by rewrite !slot_wr_ne, slot_wr_eq by lia.
    + by rewrite slot_wr_eq.
  - intros i s j' Hj'. by rewrite !slot_wr_ne by lia.
Qed.

Lemma slot_polyFromBytes (a : array) j :
  Poly.polyFromBytes a !!! j
  = if decide (j < 256)%nat
    then Some (match (j mod 2)%nat with
               | 0%nat => unpack_c0 (rd a (3 * (j / 2))) (rd a (3 * (j / 2) + 1))
               | _ => unpack_c1 (rd a (3 * (j / 2) + 1)) (rd a (3 * (j / 2) + 2))
               end)
    else None.
Proof.
  unfold Poly.polyFromBytes.
  rewrite (for_loop_blocks 2 (λ i o,
    match o with
    | 0%nat => unpack_c0 (rd a (3 * i)) (rd a (3 * i + 1))
    | _ => unpack_c1 (rd a (3 * i + 1)) (rd a (3 * i + 2))
    end)); [|lia|..].
  - change (2 * (paramsN / 2))%nat with 256%nat. case_decide; [done|].
    unfold new_array, paramsPolyBytes. rewrite list_lookup_total_alt.
    destruct (decide (j < 384)%nat).
    + by rewrite lookup_replicate_2.
    + by rewrite (proj1 (lookup_replicate_None _ _ _)) by lia.
  - intros i s o Ho. destruct o as [|[|o]]; [| |lia].
    + rewrite Nat.add_0_r. by rewrite !slot_wr_ne, slot_wr_eq by lia.
    + by rewrite slot_wr_eq.
  - intros i s j' Hj'. by rewrite !slot_wr_ne by lia.
Qed.

Lemma length_polyFromBytes (a : array) : length (Poly.polyFromBytes a) = 384%nat.
Proof.
  unfold Poly.polyFromBytes. apply for_loop_length.
  - intros i s Hi Hs. change (paramsN / 2)%nat with 128%nat in Hi.
    rewrite !length_wr. lia.
  - apply length_replicate.
Qed.

Lemma polyFromData_inner (message : array) i (s : array) j :
  Poly.for_loop 0 8 (λ o r,
    let mask := - int16 (js_and (js_shr (rd message i) (Z.of_nat o)) 1) in
    wr r (8 * i + o) (js_and mask (int16 ((paramsQ + 1) / 2)))) s !!! j
  = if decide (8 * i ≤ j < 8 * i + 8)%nat
    then Some (data_coeff (rd message i) (j - 8 * i)) else s !!! j.
Proof. apply (for_loop_writes (8 * i) (data_coeff (rd message i))). Qed.

Lemma slot_polyFromData (message : array) j :
  Poly.polyFromData message !!! j
  = if decide (j < 256)%nat
    then Some (data_coeff (rd message (j / 8)) (j mod 8))
    else if decide (j < 384)%nat then Some 0 else None.
Proof.
  unfold Poly.polyFromData.
  rewrite (for_loop_blocks 8 (λ i o, data_coeff (rd message i) o)); [|lia|..].
  - change (8 * (paramsN / 8))%nat with 256%nat. case_decide; [done|].
    unfold new_filled, paramsPolyBytes. rewrite list_lookup_total_alt.
    case_decide.
    + by rewrite lookup_replicate_2.
    + by rewrite (proj1 (lookup_replicate_None _ _ _)) by lia.
  - intros i s o Ho. rewrite polyFromData_inner. case_decide; [|lia].
    by replace (8 * i + o - 8 * i)%nat with o by lia.
  - intros i s j' Hj'. rewrite polyFromData_inner. case_decide; [lia|done].
Qed.

Lemma length_polyFromData (message : array) :
  length (Poly.polyFromData message) = 384%nat.
Proof.
  unfold Poly.polyFromData. apply for_loop_length.
  - intros i s Hi Hs. change (paramsN / 8)%nat with 32%nat in Hi.
    apply for_loop_length; [|done].
    intros o t Ho Ht. rewrite length_wr. lia.
  - apply length_replicate.
Qed.

Lemma polyToMsg_inner (a2 : array) i (m : array) j :
  Poly.for_loop 0 8 (λ o message,
    let t := js_and (div_round_q (js_shl (uint16 (rd a2 (8 * i + o))) 1)) 1 in
    wr message i (js_or (rd message i) (byte (js_shl t (Z.of_nat o))))) m !!! j
  = if decide (j = i)
    then Some (msg_byte (λ o, rd a2 (8 * i + o)) (rd m i)) else m !!! j.
Proof.
  apply (for_loop_accumulate i
           (λ o v, js_or v (msg_bit (rd a2 (8 * i + o)) o)) 7 m j).
Qed.

Lemma slot_polyToMsg (a : array) j :
  Poly.polyToMsg a !!! j
  = if decide (j < 32)%nat
    then Some (msg_byte (λ o, rd (Poly.polyConditionalSubQ a) (8 * j + o)) 0)
    else None.
Proof.
  unfold Poly.polyToMsg.
  rewrite (for_loop_pointwise
    (λ i v, msg_byte (λ o, rd (Poly.polyConditionalSubQ a) (8 * i + o)) v)).
  - change (paramsN / 8)%nat with 32%nat. unfold new_filled.
    case_decide.
    + do 2 f_equal. apply slot_Some_rd, list_lookup_total_correct.
      by apply lookup_replicate_2.
    + rewrite list_lookup_total_alt.
      by rewrite (proj1 (lookup_replicate_None _ _ _)) by lia.
  - intros i s. rewrite polyToMsg_inner. by case_decide.
  - intros i k s Hne. rewrite polyToMsg_inner. by case_decide.
Qed.

Lemma length_polyToMsg (a : array) : length (Poly.polyToMsg a) = 32%nat.
Proof.
  unfold Poly.polyToMsg. apply for_loop_length.
  - intros i s Hi Hs. change (paramsN / 8)%nat with 32%nat in Hi.
    apply for_loop_length; [|done].
    intros o t Ho Ht. rewrite length_wr. lia.
  - apply length_replicate.
Qed.

Lemma length_polyToBytes (a : array) : length (Poly.polyToBytes a) = 384%nat.
Proof.
  unfold Poly.polyToBytes. apply for_loop_length.
  - intros i s Hi Hs. change (paramsN / 2)%nat with 128%nat in Hi.
    rewrite !length_wr. lia.
  - apply length_replicate.
Qed.

(** The byte that [polyToMsg] reads in the coefficients of a byte. *)
Lemma msg_byte_data_coeff b :
  0 ≤ b < 256 → msg_byte (λ o, csubq (data_coeff b o)) 0 = b.
Proof.
  intros Hb.
  assert (Forall (λ b, msg_byte (λ o, csubq (data_coeff b o)) 0 = b) (seqZ 0 256))
    as Hall.
  { refine (bool_decide_unpack _ _). by vm_compute. }
  rewrite Forall_forall in Hall. apply Hall. apply elem_of_seqZ. lia.
Qed.

Lemma rd_of_list (l : list Z) i x : l !! i = Some x → rd (of_list l) i = x.
Proof. intros. by apply slot_Some_rd, slot_of_list. Qed.

Lemma length_of_list (l : list Z) : length (of_list l) = length l.
Proof. apply length_fmap. Qed.

Lemma rd_polyConditionalSubQ (r : array) j : (j < 256)%nat →
  rd (Poly.polyConditionalSubQ r) j = csubq (rd r j).
Proof.
  intros Hj. apply slot_Some_rd. rewrite slot_polyConditionalSubQ.
  case_decide; [done|lia].
Qed.

Lemma rd_polyToBytes (a : array) h o : (h < 128)%nat → (o < 3)%nat →
  rd (Poly.polyToBytes a) (3 * h + o)
  = let a2 := Poly.polyConditionalSubQ a in
    let t0 := uint16 (rd a2 (2 * h)) in
    let t1 := uint16 (rd a2 (2 * h + 1)) in
    match o with 0%nat => pack_b0 t0 | 1%nat => pack_b1 t0 t1 | _ => pack_b2 t1 end.
Proof.
  intros Hh Ho. apply slot_Some_rd. rewrite slot_polyToBytes.
  case_decide; [|lia].
  assert ((3 * h + o) / 3 = h)%nat as ->.
  { symmetry. apply Nat.div_unique with (r := o); lia. }
  assert ((3 * h + o) mod 3 = o)%nat as ->; [|done].
  symmetry. apply Nat.mod_unique with (q := h); lia.
Qed.

Lemma csubq_small x : 0 ≤ x < paramsQ → csubq x = x.
Proof.
  intros Hx. rewrite csubq_eq by (unfold paramsQ in *; lia).
  case_decide; lia.
Qed.

(** The two coefficients of pair [h] after packing and unpacking. *)
Lemma slot_unpack_pack (a : array) h o : (h < 128)%nat → (o < 2)%nat →
  0 ≤ rd a (2 * h) < paramsQ → 0 ≤ rd a (2 * h + 1) < paramsQ →
  Poly.polyFromBytes (Poly.polyToBytes a) !!! (2 * h + o)%nat
  = Some (rd a (2 * h + o)).
Proof.
  intros Hh Ho H0 H1. rewrite slot_polyFromBytes. case_decide; [|lia].
  assert ((2 * h + o) / 2 = h)%nat as ->.
  { symmetry. apply Nat.div_unique with (r := o); lia. }
  assert ((2 * h + o) mod 2 = o)%nat as ->.
  { symmetry. apply Nat.mod_unique with (q := h); lia. }
  pose proof (rd_polyToBytes a h 0 Hh ltac:(lia)) as B0.
  pose proof (rd_polyToBytes a h 1 Hh ltac:(lia)) as B1.
  pose proof (rd_polyToBytes a h 2 Hh ltac:(lia)) as B2.
  rewrite Nat.add_0_r in B0. cbv beta zeta iota in B0, B1, B2.
  repeat rewrite rd_polyConditionalSubQ in B0 by lia.
  repeat rewrite rd_polyConditionalSubQ in B1 by lia.
  repeat rewrite rd_polyConditionalSubQ in B2 by lia.
  repeat rewrite csubq_small in B0 by done.
  repeat rewrite csubq_small in B1 by done.
  repeat rewrite csubq_small in B2 by done.
  unfold paramsQ in *.
  rewrite !uint16_small in B0 by lia.
  rewrite !uint16_small in B1 by lia.
  rewrite !uint16_small in B2 by lia.
  f_equal. destruct o as [|[|o]]; [| |lia].
  - rewrite B0, B1, Nat.add_0_r. apply unpack_first; lia.
  - rewrite B1, B2. apply unpack_second; lia.
Qed.

(** ** Operations that read the first 256 slots only *)

Lemma same256_rd (a a' : array) i : same256 a a' → (i < 256)%nat → rd a i = rd a' i.
Proof. intros Hs Hi. unfold rd. by rewrite (Hs i Hi). Qed.

Lemma same256_wr (a a' : array) i v : same256 a a' → same256 (wr a i v) (wr a' i v).
Proof.
  intros Hs j Hj. destruct (decide (i = j)) as [->|Hne].
  - by rewrite !slot_wr_eq.
  - rewrite !slot_wr_ne by done. by apply Hs.
Qed.

Lemma slot_new_array n i : new_array n !!! i = None.
Proof.
  unfold new_array. rewrite list_lookup_total_alt.
  destruct (decide (i < n)%nat).
  - by rewrite lookup_replicate_2.
  - by rewrite (proj1 (lookup_replicate_None _ _ _)) by lia.
Qed.

Lemma same256_refl (a : array) : same256 a a.
Proof. by intros i Hi. Qed.

(** In-place loops over the coefficients. *)
Lemma same256_pointwise_loop (g : nat → Z → Z) (a a' : array) :
  same256 a a' →
  same256 (Poly.for_loop 0 256 (λ i r, wr r i (g i (rd r i))) a)
          (Poly.for_loop 0 256 (λ i r, wr r i (g i (rd r i))) a').
Proof.
  intros Hs. apply for_loop_rel; [done|].
  intros i s s' Hi Hss. rewrite (same256_rd s s') by (done || lia).
  by apply same256_wr.
Qed.

Lemma polyConditionalSubQ_coefficients_only :
  coefficients_only same256 Poly.polyConditionalSubQ.
Proof.
  intros a a' Hs i Hi. rewrite !slot_polyConditionalSubQ.
  case_decide; [|lia]. by rewrite (same256_rd a a').
Qed.

Lemma polyReduce_coefficients_only : coefficients_only same256 Poly.polyReduce.
Proof. intros a a' Hs. by apply (same256_pointwise_loop (λ _, barrettReduce)). Qed.

Lemma polyToMont_coefficients_only : coefficients_only same256 Poly.polyToMont.
Proof.
  intros a a' Hs.
  by apply (same256_pointwise_loop (λ _ v, montgomeryReduce (int32 v * int32 1353))).
Qed.

Lemma ntt_layer_coefficients_only l c k : layer_of l c →
  coefficients_only same256 (ntt_layer l k).
Proof.
  intros Hlc a a' Hs i Hi. rewrite !(ntt_layer_slot l c) by done.
  case_decide; [|lia]. f_equal. unfold butterfly. case_decide as Hm.
  - destruct (layer_index_lo l c i) as (Hil & _); [done..|].
    by rewrite (same256_rd a a' i), (same256_rd a a' (i + l)).
  - destruct (layer_index_hi l c i) as (Hli & _); [done..|].
    by rewrite (same256_rd a a' i), (same256_rd a a' (i - l)) by (done || lia).
Qed.

Lemma invNTT_layer_coefficients_only l c k : layer_of l c →
  coefficients_only same256 (invNTT_layer l k).
Proof.
  intros Hlc a a' Hs i Hi. rewrite !(invNTT_layer_slot l c) by done.
  case_decide; [|lia]. f_equal. unfold butterfly. case_decide as Hm.
  - destruct (layer_index_lo l c i) as (Hil & _); [done..|].
    by rewrite (same256_rd a a' i), (same256_rd a a' (i + l)).
  - destruct (layer_index_hi l c i) as (Hli & _); [done..|].
    by rewrite (same256_rd a a' i), (same256_rd a a' (i - l)) by (done || lia).
Qed.

Lemma ntt_coefficients_only : coefficients_only same256 Poly.ntt.
Proof.
  destruct layer_of_values as (L128 & L64 & L32 & L16 & L8 & L4 & L2).
  intros a a' Hs. rewrite !ntt_layers.
  repeat (eapply ntt_layer_coefficients_only; [eassumption|]). done.
Qed.

Lemma invNTT_coefficients_only : coefficients_only same256 Poly.invNTT.
Proof.
  destruct layer_of_values as (L128 & L64 & L32 & L16 & L8 & L4 & L2).
  intros a a' Hs. rewrite !invNTT_layers.
  apply (same256_pointwise_loop (λ _ v, modQMulMont v (zeta_at nttZetasInv 127))).
  repeat (eapply invNTT_layer_coefficients_only; [eassumption|]). done.
Qed.

Lemma polyToBytes_coefficients_only : coefficients_only eq Poly.polyToBytes.
Proof.
  intros a a' Hs. unfold Poly.polyToBytes. apply for_loop_ext.
  intros i s Hi. change (paramsN / 2)%nat with 128%nat in Hi.
  pose proof (polyConditionalSubQ_coefficients_only a a' Hs) as Hc.
  by rewrite (same256_rd _ _ (2 * i) Hc), (same256_rd _ _ (2 * i + 1) Hc) by lia.
Qed.

Lemma polyToMsg_coefficients_only : coefficients_only eq Poly.polyToMsg.
Proof.
  intros a a' Hs. unfold Poly.polyToMsg. apply for_loop_ext.
  intros i s Hi. change (paramsN / 8)%nat with 32%nat in Hi.
  apply for_loop_ext. intros j t Hj.
  pose proof (polyConditionalSubQ_coefficients_only a a' Hs) as Hc.
  by rewrite (same256_rd _ _ (8 * i + j) Hc) by lia.
Qed.

Lemma polyBaseMulMont_round_same256 i (a a' b b' : array) : (i < 64)%nat →
  same256 a a' → same256 b b' →
  same256 (Poly.polyBaseMulMont_round i a b) (Poly.polyBaseMulMont_round i a' b').
Proof.
  intros Hi Ha Hb. unfold Poly.polyBaseMulMont_round.
  rewrite !(same256_rd a a'), !(same256_rd b b') by (done || lia).
  by do 4 apply same256_wr.
Qed.

Lemma polyBaseMulMont_coefficients_only (a a' b b' : array) :
  same256 a a' → same256 b b' →
  same256 (Poly.polyBaseMulMont a b) (Poly.polyBaseMulMont a' b').
Proof.
  intros Ha Hb. unfold Poly.polyBaseMulMont. apply for_loop_rel; [done|].
  intros i s s' Hi Hs. change (paramsN / 4)%nat with 64%nat in Hi.
  apply polyBaseMulMont_round_same256; (done || lia).
Qed.

Lemma polyAdd_coefficients_only (a a' b b' : array) :
  same256 a a' → same256 b b' → same256 (Poly.polyAdd a b) (Poly.polyAdd a' b').
Proof.
  intros Ha Hb. unfold Poly.polyAdd. apply for_loop_rel.
  - intros i Hi. by rewrite !slot_new_array.
  - intros i s s' Hi Hs. unfold paramsN in Hi.
    rewrite (same256_rd a a'), (same256_rd b b') by (done || lia).
    by apply same256_wr.
Qed.

Lemma subtract_coefficients_only (a a' b b' : array) :
  same256 a a' → same256 b b' → same256 (Poly.subtract a b) (Poly.subtract a' b').
Proof.
  intros Ha Hb. unfold Poly.subtract. apply for_loop_rel; [done|].
  intros i s s' Hi Hs. unfold paramsN in Hi.
  rewrite (same256_rd s s'), (same256_rd b b') by (done || lia).
  by apply same256_wr.
Qed.

Lemma compressPoly_coefficients_only K : coefficients_only eq (Poly.compressPoly K).
Proof.
  intros a a' Hs. unfold Poly.compressPoly.
  assert (∀ i shift mask, (i < 32)%nat →
    Poly.for_loop 0 8 (λ j t,
      wr t j (intToByte (js_and (div_round_q (int32 (js_shl (rd a (8 * i + j)) shift))) mask)))
      (new_array 8)
    = Poly.for_loop 0 8 (λ j t,
      wr t j (intToByte (js_and (div_round_q (int32 (js_shl (rd a' (8 * i + j)) shift))) mask)))
      (new_array 8)) as Ht.
  { intros i shift mask Hi. apply for_loop_ext. intros j t Hj.
    by rewrite (same256_rd a a') by (done || lia). }
  case_decide; apply (f_equal (λ x : nat * array, x.2));
    apply for_loop_ext; intros i [rr r] Hi;
    change (paramsN / 8)%nat with 32%nat in Hi; cbv zeta;
    by rewrite Ht by lia.
Qed.

Lemma polyVectorCSubQ_same256 K (v v' : list array) :
  same256_vec v v' → same256_vec (Poly.polyVectorCSubQ K v) (Poly.polyVectorCSubQ K v').
Proof.
  intros Hv. unfold Poly.polyVectorCSubQ. apply for_loop_rel; [done|].
  intros i s s' _ [Hlen Hs]. split.
  - by rewrite !length_insert.
  - intros j. destruct (decide (i = j)) as [->|Hne].
    + destruct (decide (j < length s)%nat).
      * rewrite !list_lookup_total_insert_eq by lia.
        by apply polyConditionalSubQ_coefficients_only.
      * rewrite !list_insert_ge by lia. apply Hs.
    + rewrite !list_lookup_total_insert_ne by done. apply Hs.
Qed.

Lemma compressPolyVector_coefficients_only K (v v' : list array) :
  same256_vec v v' → Poly.compressPolyVector K v = Poly.compressPolyVector K v'.
Proof.
  intros Hv. unfold Poly.compressPolyVector.
  destruct (polyVectorCSubQ_same256 K v v' Hv) as [_ Hs].
  case_decide; apply (f_equal (λ x : nat * array * array, x.1.2));
    apply for_loop_ext; intros i st _;
    apply for_loop_ext; intros j [[rr r] t] Hj;
    [change (paramsN / 4)%nat with 64%nat in Hj
    |change (paramsN / 8)%nat with 32%nat in Hj]; cbv zeta.
  - replace (Poly.for_loop 0 4 _ t) with
      (Poly.for_loop 0 4 (λ k t,
         wr t k (js_and (div_round_q
           (js_shl (rd (Poly.polyVectorCSubQ K v' !!! i) (4 * j + k)) 10)) 1023)) t);
      [done|].
    apply for_loop_ext. intros k t' Hk.
    by rewrite (same256_rd _ _ (4 * j + k) (Hs i)) by lia.
  - replace (Poly.for_loop 0 8 _ t) with
      (Poly.for_loop 0 8 (λ k t,
         wr t k (int32 (js_and (div_round_q
           (js_shl (int32 (rd (Poly.polyVectorCSubQ K v' !!! i) (8 * j + k))) 11)) 2047))) t);
      [done|].
    apply for_loop_ext. intros k t' Hk.
    by rewrite (same256_rd _ _ (8 * j + k) (Hs i)) by lia.
Qed.

(** ** Arrays in the store *)

Lemma load_insert_eq (h : gmap nat array) a v : Store.load (<[a := v]> h) a = v.
Proof. unfold Store.load. by rewrite lookup_insert_eq. Qed.

Lemma load_insert_ne (h : gmap nat array) a b v :
  a ≠ b → Store.load (<[a := v]> h) b = Store.load h b.
Proof. intros. unfold Store.load. by rewrite lookup_insert_ne. Qed.

Lemma store_polyBaseMulMont_rounds (a b : nat) (h : gmap nat array) n :
  a ≠ b →
  Poly.for_loop 0 (S n)
    (λ i h, <[a := Poly.polyBaseMulMont_round i (Store.load h a) (Store.load h b)]> h) h
  = <[a := Poly.for_loop 0 (S n)
             (λ i x, Poly.polyBaseMulMont_round i x (Store.load h b)) (Store.load h a)]> h.
Proof.
  intros Hab. induction n as [|n IH]; [done|].
  rewrite for_loop_snoc, IH.
  rewrite load_insert_eq, load_insert_ne, insert_insert_eq by done.
  by rewrite (for_loop_snoc 0 (S n) (λ i x, Poly.polyBaseMulMont_round i x _)).
Qed.

(** On two distinct arrays, [polyBaseMulMont] returns [a], whose array now
    holds the products, and writes nothing else. *)
Lemma store_polyBaseMulMont (a b : nat) (h : gmap nat array) :
  a ≠ b →
  Store.polyBaseMulMont a b h
  = (a, <[a := Poly.polyBaseMulMont (Store.load h a) (Store.load h b)]> h).
Proof.
  intros Hab. unfold Store.polyBaseMulMont, Poly.polyBaseMulMont.
  change (paramsN / 4)%nat with (S 63). by rewrite store_polyBaseMulMont_rounds.
Qed.

(** Whatever the arguments, [polyBaseMulMont] returns [a] and writes no
    array but [a]. *)
Lemma store_polyBaseMulMont_frame (a b : nat) (h : gmap nat array) :
  (Store.polyBaseMulMont a b h).1 = a
  ∧ ∀ l, l ≠ a → (Store.polyBaseMulMont a b h).2 !! l = h !! l.
Proof.
  split; [done|]. intros l Hl. unfold Store.polyBaseMulMont. simpl.
  refine (for_loop_inv (λ _ (s : gmap nat array), s !! l = h !! l)
            0 _ _ h _ _); [done|].
  intros i s _ Hs. by rewrite lookup_insert_ne.
Qed.

Section PointWiseAcc.
Variables (K : nat) (a b : list nat) (h : gmap nat array).
Hypothesis HK : (2 ≤ K)%nat.
Hypothesis Ha : length a = K.
Hypothesis Hb : length b = K.
Hypothesis Hnodup : NoDup (a ++ b).
Hypothesis Hdom : ∀ l, l ∈ a ++ b → l ∈ dom h.

Lemma vec_elem_a j : (j < K)%nat → a !!! j ∈ a ++ b.
Proof.
  intros Hj. apply elem_of_app. left. apply list_elem_of_lookup. exists j.
  apply list_lookup_lookup_total_lt. lia.
Qed.

Lemma vec_elem_b j : (j < K)%nat → b !!! j ∈ a ++ b.
Proof.
  intros Hj. apply elem_of_app. right. apply list_elem_of_lookup. exists j.
  apply list_lookup_lookup_total_lt. lia.
Qed.

Lemma vec_a_ne_b i j : (i < K)%nat → (j < K)%nat → a !!! i ≠ b !!! j.
Proof.
  intros Hi Hj Heq. apply NoDup_app in Hnodup as (_ & Hdisj & _).
  apply (Hdisj (a !!! i)).
  - apply list_elem_of_lookup. exists i. apply list_lookup_lookup_total_lt. lia.
  - rewrite Heq. apply list_elem_of_lookup. exists j.
    apply list_lookup_lookup_total_lt. lia.
Qed.

Lemma vec_a_inj i j : (i < K)%nat → (j < K)%nat → a !!! i = a !!! j → i = j.
Proof.
  intros Hi Hj Heq. apply NoDup_app in Hnodup as (Hnd & _).
  apply (NoDup_lookup a i j (a !!! i)); [done|..].
  - apply list_lookup_lookup_total_lt. lia.
  - rewrite Heq. apply list_lookup_lookup_total_lt. lia.
Qed.

Lemma acc_round i st : (1 ≤ i < K)%nat → acc_inv K a b h i st →
  acc_inv K a b h (S i)
    (let '(r, hc) := st in
     let '(t, hc) := Store.polyBaseMulMont (a !!! i) (b !!! i) hc in
     Store.polyAdd r t hc).
Proof.
  intros Hi. destruct st as [r hc]. intros (Hsub & Hdone & Htodo & Hbs & Hr).
  rewrite store_polyBaseMulMont by (apply vec_a_ne_b; lia).
  unfold Store.polyAdd, Store.alloc. cbv zeta.
  set (h1 := <[a !!! i := _]> hc).
  set (c := fresh (dom h1)).
  assert (c ∉ dom h1) as Hc by apply is_fresh.
  assert (dom h ⊆ dom h1) as Hsub1.
  { unfold h1. etrans; [exact Hsub|apply dom_insert_subseteq]. }
  assert (∀ l, l ∈ a ++ b → c ≠ l) as Hcl.
  { intros l Hl ->. apply Hc, Hsub1, Hdom, Hl. }
  unfold acc_inv. repeat split.
  - etrans; [exact Hsub1|apply dom_insert_subseteq].
  - intros j Hj HjK. rewrite load_insert_ne by (apply Hcl, vec_elem_a; lia).
    unfold h1. destruct (decide (j = i)) as [->|Hji].
    + rewrite load_insert_eq. by rewrite Htodo, Hbs by lia.
    + rewrite load_insert_ne by (intros Heq; apply vec_a_inj in Heq; lia).
      apply Hdone; lia.
  - intros j Hj. rewrite load_insert_ne by (apply Hcl, vec_elem_a; lia).
    unfold h1. rewrite load_insert_ne by (intros Heq; apply vec_a_inj in Heq; lia).
    apply Htodo. lia.
  - intros j Hj. rewrite load_insert_ne by (apply Hcl, vec_elem_b; lia).
    unfold h1. rewrite load_insert_ne by (apply vec_a_ne_b; lia).
    by apply Hbs.
  - right. intros Hin. by apply Hc, Hsub1.
Qed.

Lemma store_polyVectorPointWiseAccMont j : (j < K)%nat →
  let h' := (Store.polyVectorPointWiseAccMont K a b h).2 in
  Store.load h' (a !!! j)
  = Poly.polyBaseMulMont (Store.load h (a !!! j)) (Store.load h (b !!! j))
  ∧ Store.load h' (b !!! j) = Store.load h (b !!! j).
Proof.
  intros Hj. unfold Store.polyVectorPointWiseAccMont.
  rewrite store_polyBaseMulMont by (apply vec_a_ne_b; lia).
  cbv beta iota zeta.
  set (h0 := <[a !!! 0%nat := Poly.polyBaseMulMont (Store.load h (a !!! 0%nat))
                                 (Store.load h (b !!! 0%nat))]> h).
  match goal with
  | |- context [Poly.for_loop 1 (K - 1) ?f ?s] =>
      pose proof (for_loop_inv (acc_inv K a b h) 1 (K - 1) f s) as Hloop;
      destruct (Poly.for_loop 1 (K - 1) f s) as [r hc]
  end.
  replace (1 + (K - 1))%nat with K in Hloop by lia.
  assert (acc_inv K a b h K (r, hc)) as Hinv.
  { apply Hloop.
    - unfold acc_inv, h0. repeat split.
      + apply dom_insert_subseteq.
      + intros j' Hj' _. assert (j' = 0)%nat as -> by lia.
        by rewrite load_insert_eq.
      + intros j' Hj'. rewrite load_insert_ne; [done|].
        intros Heq. apply vec_a_inj in Heq; lia.
      + intros j' Hj'. rewrite load_insert_ne; [done|]. apply vec_a_ne_b; lia.
      + by left.
    - intros i st Hi Hst. apply (acc_round i st); [lia|done]. }
  unfold acc_inv in Hinv. destruct Hinv as (Hsub & Hdone & _ & Hbs & Hr).
  destruct Hr as [[_ HK1]|Hr]; [lia|].
  unfold Store.polyReduce. cbn [snd].
  rewrite !load_insert_ne.
  - split; [apply Hdone; lia|by apply Hbs].
  - intros ->. apply Hr, Hdom, vec_elem_b. lia.
  - intros ->. apply Hr, Hdom, vec_elem_a. lia.
Qed.

End PointWiseAcc.

(** ** The KEM *)

Lemma slice_app_l (a b : list Z) s e :
  (s ≤ e ≤ length a)%nat → Kem.slice (a ++ b) s e = Kem.slice a s e.
Proof.
  intros Hse. unfold Kem.slice.
  rewrite drop_app_le by lia. apply take_app_le. rewrite length_drop. lia.
Qed.

Lemma slice_app_r (a b : list Z) s e :
  s = length a → (s ≤ e)%nat → length b = (e - s)%nat →
  Kem.slice (a ++ b) s e = b.
Proof.
  intros -> Hse Hb. unfold Kem.slice.
  rewrite drop_app_length. rewrite <- Hb. apply firstn_all.
Qed.

Lemma slice_app_mid (a b c : list Z) s e :
  s = length a → (s ≤ e)%nat → length b = (e - s)%nat →
  Kem.slice (a ++ b ++ c) s e = b.
Proof.
  intros -> Hse Hb. unfold Kem.slice.
  rewrite drop_app_length, take_app_le by lia. rewrite <- Hb. apply firstn_all.
Qed.

Section WithCollaborators.
Context `{Kem.Collaborators}.

Lemma decrypt_ignores_z_aux (K : nat) (ct body z z' : list Z) :
  length body = sk_body_bytes K →
  Kem.decrypt K ct (body ++ z) = Kem.decrypt K ct (body ++ z').
Proof.
  intros Hbody. unfold Kem.decrypt, Kem.decrypt_run. cbv zeta. cbn [snd].
  unfold sk_body_bytes in Hbody.
  repeat case_decide; rewrite !slice_app_l; try done;
    revert Hbody; vm_compute; lia.
Qed.

(** The round trip of the KEM, from that of the IND-CPA scheme. *)
Lemma decrypt_encrypt_given_indcpa (K : nat) (seed z rnd : list Z) :
  let '(pk, sk) := Kem.generateKyberKeys K seed z in
  let '(ct, ss) := Kem.encrypt K pk rnd in
  let sk_cpa := (Kem.indcpaKeyGen K seed).2 in
  (K = 2 ∨ K = 3 ∨ K = 4)%nat →
  length sk_cpa = (K * paramsPolyBytes)%nat →
  length pk = (K * paramsPolyBytes + paramsSymBytes)%nat →
  length (Kem.sha3_256 pk) = paramsSymBytes →
  Kem.indcpaDecrypt K ct sk_cpa = Kem.sha3_256 rnd →
  Kem.decrypt K ct sk = ss.
Proof.
  unfold Kem.generateKyberKeys, Kem.encrypt.
  destruct (Kem.indcpaKeyGen K seed) as [pk sk] eqn:Hkg. cbv zeta. cbn [snd].
  intros HK Hsk Hpk Hh Hdec.
  unfold Kem.decrypt, Kem.decrypt_run. cbv zeta. cbn [snd].
  assert (∀ e, e = length sk →
    Kem.slice (((sk ++ pk) ++ Kem.sha3_256 pk) ++ z) 0 e = sk) as Hs1.
  { intros e ->. rewrite <- !app_assoc. unfold Kem.slice.
    rewrite drop_0, Nat.sub_0_r. by rewrite take_app_length. }
  assert (∀ s e, s = (length sk + length pk)%nat → e = (s + 32)%nat →
    Kem.slice (((sk ++ pk) ++ Kem.sha3_256 pk) ++ z) s e = Kem.sha3_256 pk) as Hs3.
  { intros s e -> ->. rewrite <- (app_assoc (sk ++ pk)).
    apply slice_app_mid; [by rewrite length_app|lia|].
    rewrite Hh. unfold paramsSymBytes. lia. }
  unfold paramsPolyBytes, paramsSymBytes in *.
  destruct HK as [HK|[HK|HK]]; subst K; repeat case_decide; try lia;
    (rewrite Hs1 by (rewrite Hsk; by vm_compute));
    (rewrite Hs3 by (rewrite ?Hsk, ?Hpk; by vm_compute));
    by rewrite Hdec.
Qed.

End WithCollaborators.

(** * The claims of the specification *)

(** C8 (the code departs from the claim).  For every integer [n],
    [uint32 n] is the modular cast of [n] to 32 bits plus [2^32]: the loop
    [while (n < 4294967296)] runs once more than the loop of [uint16], so
    the result lies in [[2^32, 2^33)] and never in [[0, 2^32)]. *)
Theorem uint32_adds_2_32 (n : Z) :
  uint32 n = uint32_spec n + 4294967296
  ∧ 0 ≤ uint32_spec n < 4294967296
  ∧ ¬ (0 ≤ uint32 n < 4294967296).
Proof.
  assert (uint32_spec n = n mod 4294967296) as Hspec.
  { unfold uint32_spec. pose proof (rem_range n 4294967296 ltac:(lia)).
    rewrite Z.rem_mod_nonneg by lia.
    replace (Z.rem n 4294967296 + 4294967296)
      with (Z.rem n 4294967296 + 1 * 4294967296) by lia.
    rewrite Z.mod_add by lia. by apply rem_mod_eq. }
  pose proof (Z.mod_pos_bound n 4294967296 ltac:(lia)).
  rewrite uint32_eq, Hspec. lia.
Qed.

(** C3 (the code departs from the claim).  [constantTimeCompare] returns 0
    on equal arrays and 1, not 0xFF, on all others (on the arrays [[0]] and
    [[1]], say).  [decrypt] uses the result as a byte mask,
    [kr[i] ^ ((fail & 0xFF) & (kr[i] ^ privateKey[index]))]: with 0xFF the
    mask selects the whole byte of the secret key, and with 1 its low bit
    only, so that the byte 170 of the digest and the byte 85 of the secret
    key give 171 where 0xFF gives 85. *)
Theorem constantTimeCompare_returns_1_not_0xFF :
  (∀ a b : list Z, constantTimeCompare a b = if decide (a = b) then 0 else 1)
  ∧ constantTimeCompare [0] [1] = 1
  ∧ intToByte (js_xor 170 (js_and (js_and (constantTimeCompare [0] [1]) 255)
                                  (js_xor 170 85))) = 171
  ∧ intToByte (js_xor 170 (js_and (js_and 255 255) (js_xor 170 85))) = 85.
Proof.
  split; [apply constantTimeCompare_eq|]. by vm_compute.
Qed.

(** C7, the claim as stated fails: a coefficient -1 stays -1, and a
    coefficient 2 q becomes q. *)
Lemma polyConditionalSubQ_out_of_range :
  let r := Poly.polyConditionalSubQ (of_list (-1 :: 6658 :: replicate 254 0)) in
  r !!! 0%nat = Some (-1) ∧ r !!! 1%nat = Some paramsQ
  ∧ ¬ (0 ≤ -1 < paramsQ) ∧ ¬ (0 ≤ paramsQ < paramsQ).
Proof. vm_compute. repeat split; (done || lia || intros [? ?]; done). Qed.

(** C7, amended.  For every polynomial whose coefficients lie in
    [[0, 2 q)], after [polyConditionalSubQ] every coefficient lies in
    [[0, q)], and it is the coefficient modulo q. *)
Theorem polyConditionalSubQ_range (r : array) (i : nat) (x : Z) :
  (i < 256)%nat → r !!! i = Some x → 0 ≤ x < 2 * paramsQ →
  ∃ y, Poly.polyConditionalSubQ r !!! i = Some y
       ∧ 0 ≤ y < paramsQ ∧ y = x mod paramsQ.
Proof.
  intros Hi Hx Hr. exists (csubq x). rewrite slot_polyConditionalSubQ.
  case_decide; [|lia]. rewrite (slot_Some_rd _ _ _ Hx).
  split; [done|]. rewrite csubq_eq by (unfold paramsQ in *; lia).
  unfold paramsQ in *. case_decide.
  - split; [lia|]. symmetry. apply Z.mod_small. lia.
  - split; [lia|]. apply Z.mod_unique with (q := 1); lia.
Qed.

Lemma polyConditionalSubQ_range_witness :
  ∃ y, Poly.polyConditionalSubQ (of_list (replicate 256 5000)) !!! 7%nat = Some y
       ∧ 0 ≤ y < paramsQ ∧ y = 5000 mod paramsQ.
Proof.
  apply (polyConditionalSubQ_range (of_list (replicate 256 5000)) 7 5000).
  - lia.
  - reflexivity.
  - unfold paramsQ. lia.
Defined.

(** C5, the claim as stated fails: the array that [polyFromBytes] returns
    has 384 slots, so it is not the polynomial of 256 coefficients that
    [polyToBytes] encoded. *)
Lemma polyFromBytes_polyToBytes_has_384_slots :
  length (replicate 256 1) = 256%nat
  ∧ Forall (λ c, 0 ≤ c < paramsQ) (replicate 256 1)
  ∧ length (Poly.polyFromBytes (Poly.polyToBytes (of_list (replicate 256 1)))) = 384%nat
  ∧ Poly.polyFromBytes (Poly.polyToBytes (of_list (replicate 256 1)))
    ≠ of_list (replicate 256 1).
Proof.
  split; [reflexivity|]. split; [apply Forall_replicate; unfold paramsQ; lia|].
  split; [apply length_polyFromBytes|].
  intros Heq. apply (f_equal length) in Heq.
  rewrite length_polyFromBytes in Heq. by vm_compute in Heq.
Qed.

(** C5, amended.  For every polynomial [p] of 256 coefficients in [[0, q)],
    the first 256 slots of [polyFromBytes (polyToBytes p)] are the
    coefficients of [p].  (The array that [polyFromBytes] returns has 384
    slots; see C9.) *)
Theorem polyFromBytes_polyToBytes (p : list Z) :
  length p = 256%nat → Forall (λ c, 0 ≤ c < paramsQ) p →
  take 256 (Poly.polyFromBytes (Poly.polyToBytes (of_list p))) = of_list p.
Proof.
  intros Hlen Hp. apply array_eq.
  - rewrite length_take, length_polyFromBytes, length_of_list. lia.
  - intros i. rewrite length_take, length_polyFromBytes. intros Hi.
    assert (i < 256)%nat as Hi' by lia.
    assert (∀ j, (j < 256)%nat → 0 ≤ rd (of_list p) j < paramsQ) as Hrd.
    { intros j Hj. destruct (lookup_lt_is_Some_2 p j) as [c Hc]; [lia|].
      rewrite (rd_of_list _ _ _ Hc). by apply (Forall_lookup_1 _ _ _ _ Hp Hc). }
    destruct (lookup_lt_is_Some_2 p i) as [c Hc]; [lia|].
    rewrite (slot_of_list _ _ _ Hc).
    rewrite list_lookup_total_alt, lookup_take_lt, <- list_lookup_total_alt by done.
    pose proof (Nat.div_mod_eq i 2) as Hdm.
    assert (i mod 2 < 2)%nat by (apply Nat.mod_upper_bound; lia).
    rewrite Hdm at 1.
    rewrite slot_unpack_pack by (try apply Hrd; lia).
    by rewrite <- Hdm, (rd_of_list _ _ _ Hc).
Qed.

Lemma polyFromBytes_polyToBytes_witness :
  take 256 (Poly.polyFromBytes (Poly.polyToBytes (of_list (replicate 256 3328))))
  = of_list (replicate 256 3328).
Proof.
  apply (polyFromBytes_polyToBytes (replicate 256 3328)).
  - reflexivity.
  - apply Forall_replicate. unfold paramsQ. lia.
Defined.

(** C6.  For every message [m] of 32 bytes, [polyToMsg (polyFromData m)]
    is [m]. *)
Theorem polyToMsg_polyFromData (m : list Z) :
  length m = 32%nat → Forall (λ b, 0 ≤ b < 256) m →
  Poly.polyToMsg (Poly.polyFromData (of_list m)) = of_list m.
Proof.
  intros Hlen Hm. apply array_eq.
  - by rewrite length_polyToMsg, length_of_list.
  - intros i. rewrite length_polyToMsg. intros Hi.
    destruct (lookup_lt_is_Some_2 m i) as [b Hb]; [lia|].
    rewrite slot_polyToMsg, (slot_of_list _ _ _ Hb). case_decide; [|lia].
    f_equal. rewrite <- (msg_byte_data_coeff b)
      by apply (Forall_lookup_1 _ _ _ _ Hm Hb).
    unfold msg_byte. apply for_loop_ext. intros o v Ho.
    rewrite rd_polyConditionalSubQ by lia. do 3 f_equal.
    apply slot_Some_rd. rewrite slot_polyFromData. case_decide; [|lia].
    assert ((8 * i + o) / 8 = i)%nat as ->.
    { symmetry. apply Nat.div_unique with (r := o); lia. }
    assert ((8 * i + o) mod 8 = o)%nat as ->.
    { symmetry. apply Nat.mod_unique with (q := i); lia. }
    by rewrite (rd_of_list _ _ _ Hb).
Qed.

Lemma polyToMsg_polyFromData_witness :
  Poly.polyToMsg (Poly.polyFromData (of_list (replicate 32 165)))
  = of_list (replicate 32 165).
Proof.
  apply (polyToMsg_polyFromData (replicate 32 165)).
  - reflexivity.
  - apply Forall_replicate. lia.
Defined.

(** C4, the claim as stated fails: the constant coefficient of
    [invNTT (ntt 1)] is -1044, which is [2^16] and not 1 modulo q. *)
Lemma invNTT_ntt_not_identity :
  Poly.invNTT (Poly.ntt (of_list (1 :: replicate 255 0))) !!! 0%nat = Some (-1044)
  ∧ (-1044) mod paramsQ ≠ 1 mod paramsQ.
Proof. split; by vm_compute. Qed.

(** Outside that range the transforms are not inverses even up to the
    factor: with every coefficient 32767, the [int16] of [ntt] wraps. *)
Lemma invNTT_ntt_int16_wraps :
  ∃ v, Poly.invNTT (Poly.ntt (of_list (replicate 256 32767))) !!! 0%nat = Some v
       ∧ v mod paramsQ ≠ (65536 * 32767) mod paramsQ.
Proof. eexists. split; [by vm_compute|]. by vm_compute. Qed.

(** C4, amended.  For every polynomial [p] of 256 coefficients that lie
    in [[-9464, 9464]] (the centred range of the data model is within),
    every coefficient of [invNTT (ntt p)] is congruent modulo q to [2^16]
    times the coefficient of [p]: the transforms are inverses up to the
    Montgomery factor, which the multiplication by [nttZetasInv[127]]
    leaves in. *)
Theorem invNTT_ntt_montgomery_factor (p : list Z) (i : nat) (c : Z) :
  length p = 256%nat → Forall (λ c, -9464 ≤ c ≤ 9464) p → p !! i = Some c →
  ∃ v, Poly.invNTT (Poly.ntt (of_list p)) !!! i = Some v
       ∧ v mod paramsQ = (65536 * c) mod paramsQ.
Proof.
  intros Hlen Hp Hc.
  assert (i < 256)%nat as Hi by (rewrite <- Hlen; by eapply lookup_lt_Some).
  destruct (invNTT_ntt_slot (of_list p) i) as (v & Hv & Hcong); [|done|].
  - intros j Hj. destruct (lookup_lt_is_Some_2 p j) as [d Hd]; [lia|].
    rewrite (rd_of_list _ _ _ Hd). by apply (Forall_lookup_1 _ _ _ _ Hp Hd).
  - exists v. split; [done|]. apply eqm_q_mod.
    by rewrite (rd_of_list _ _ _ Hc) in Hcong.
Qed.

Lemma invNTT_ntt_montgomery_factor_witness :
  ∃ v, Poly.invNTT (Poly.ntt (of_list (replicate 256 3328))) !!! 5%nat = Some v
       ∧ v mod paramsQ = (65536 * 3328) mod paramsQ.
Proof.
  apply (invNTT_ntt_montgomery_factor (replicate 256 3328) 5 3328).
  - reflexivity.
  - apply Forall_replicate. lia.
  - reflexivity.
Defined.

(** * Further properties of the code *)

(** ** The casts of lib/utilities *)

(** X1.  For every integer [n], [byte n] is [n] modulo 256, in [[0, 256)]:
    the remainder [%] keeps the sign of [n], and the loop adds 256 to a
    negative remainder. *)
Theorem byte_is_modulo_256 (n : Z) : byte n = n mod 256 ∧ 0 ≤ byte n < 256.
Proof.
  rewrite byte_eq. split; [done|]. apply Z.mod_pos_bound. lia.
Qed.

(** X2.  For every integer [n], [uint16 n] is [n] modulo 65536, in
    [[0, 65536)]. *)
Theorem uint16_is_modulo_65536 (n : Z) :
  uint16 n = n mod 65536 ∧ 0 ≤ uint16 n < 65536.
Proof.
  rewrite uint16_eq. split; [done|]. apply Z.mod_pos_bound. lia.
Qed.




(** ** Ranges of the bitwise operators *)

Lemma toInt32_range n : -2147483648 ≤ toInt32 n < 2147483648.
Proof.
  unfold toInt32. pose proof (Z.mod_pos_bound (n + 2147483648) 4294967296 ltac:(lia)).
  lia.
Qed.

Lemma js_and_mask_range a n : 0 ≤ n ≤ 31 → 0 ≤ js_and a (2 ^ n - 1) < 2 ^ n.
Proof.
  intros Hn. unfold js_and.
  assert (0 < 2 ^ n ≤ 2 ^ 31).
  { split; [lia|]. apply Z.pow_le_mono_r; lia. }
  rewrite (toInt32_small (2 ^ n - 1)) by lia.
  replace (2 ^ n - 1) with (Z.ones n) by (rewrite Z.ones_equiv; lia).
  rewrite Z.land_ones by lia. apply Z.mod_pos_bound. lia.
Qed.

Lemma lor_range a b n : 0 ≤ n → 0 ≤ a < 2 ^ n → 0 ≤ b < 2 ^ n → 0 ≤ Z.lor a b < 2 ^ n.
Proof.
  intros Hn Ha Hb. split; [apply Z.lor_nonneg; lia|].
  destruct (decide (Z.lor a b = 0)) as [->|Hne]; [lia|].
  assert (0 ≤ Z.lor a b) by (apply Z.lor_nonneg; lia).
  assert (0 < Z.lor a b) by lia.
  assert (0 < n) as Hn0.
  { destruct (decide (n = 0)) as [->|]; [|lia]. change (2 ^ 0) with 1 in *.
    assert (a = 0) as -> by lia. assert (b = 0) as -> by lia. done. }
  assert (∀ x, 0 ≤ x < 2 ^ n → Z.log2 x < n) as Hlog.
  { intros x Hx. destruct (decide (x = 0)) as [->|]; [by simpl|].
    apply Z.log2_lt_pow2; lia. }
  apply Z.log2_lt_pow2; [done|]. rewrite Z.log2_lor by lia.
  apply Z.max_lub_lt; by apply Hlog.
Qed.

Lemma js_or_range a b n :
  0 ≤ n ≤ 31 → 0 ≤ a < 2 ^ n → 0 ≤ b < 2 ^ n → 0 ≤ js_or a b < 2 ^ n.
Proof.
  intros Hn Ha Hb.
  assert (0 < 2 ^ n ≤ 2 ^ 31).
  { split; [lia|]. apply Z.pow_le_mono_r; lia. }
  rewrite js_or_small by lia. apply lor_range; lia.
Qed.

Lemma byte_range n : 0 ≤ byte n < 256.
Proof. rewrite byte_eq. apply Z.mod_pos_bound. lia. Qed.

(** ** The codecs on arbitrary input *)

Lemma unpack_c0_range b0 b1 : 0 ≤ unpack_c0 b0 b1 ≤ 4095.
Proof.
  unfold unpack_c0.
  pose proof (js_and_mask_range
    (js_or (uint16 b0) (js_shl (uint16 b1) 8)) 12 ltac:(lia)) as Hr.
  change (2 ^ 12 - 1) with 4095 in Hr. change (2 ^ 12) with 4096 in Hr.
  rewrite int16_small; lia.
Qed.

Lemma unpack_c1_range b1 b2 : 0 ≤ unpack_c1 b1 b2 ≤ 4095.
Proof.
  unfold unpack_c1.
  pose proof (js_and_mask_range
    (js_or (js_shr (uint16 b1) 4) (js_shl (uint16 b2) 4)) 12 ltac:(lia)) as Hr.
  change (2 ^ 12 - 1) with 4095 in Hr. change (2 ^ 12) with 4096 in Hr.
  rewrite int16_small; lia.
Qed.

Lemma lookup_coefficients (a : array) i :
  (i < 256)%nat → coefficients a !! i = Some (rd a i).
Proof.
  intros Hi. unfold coefficients.
  by rewrite list_lookup_fmap, lookup_seq_lt by done.
Qed.

Lemma slot_polyFromBytes_range (a : array) i : (i < 256)%nat →
  ∃ c, Poly.polyFromBytes a !!! i = Some c ∧ 0 ≤ c ≤ 4095.
Proof.
  intros Hi. rewrite slot_polyFromBytes.
  case_decide; [|lia]. eexists. split; [done|].
  destruct (i mod 2)%nat; [apply unpack_c0_range|apply unpack_c1_range].
Qed.

(** X6.  Whatever the input, the 256 coefficients that [polyFromBytes]
    returns are 12-bit numbers, in [[0, 4095]]: the decoder masks with 0xFFF
    and does not reduce modulo q, so that bytes 0xFF decode to the
    coefficient 4095, above q. *)
Theorem polyFromBytes_coefficients_12_bits :
  (∀ a, Forall (λ s, ∃ c, s = Some c ∧ 0 ≤ c ≤ 4095) (take 256 (Poly.polyFromBytes a)))
  ∧ Poly.polyFromBytes (of_list (replicate 384 255)) !!! 0%nat = Some 4095
  ∧ paramsQ ≤ 4095.
Proof.
  split; [|split; [by vm_compute|unfold paramsQ; lia]].
  intros a. apply Forall_lookup. intros i s Hs.
  pose proof (lookup_lt_Some _ _ _ Hs) as Hi.
  rewrite length_take in Hi. rewrite lookup_take_lt in Hs by lia.
  apply list_lookup_total_correct in Hs. rewrite slot_polyFromBytes in Hs.
  case_decide; [|lia]. subst s. eexists. split; [done|].
  destruct (i mod 2)%nat; [apply unpack_c0_range|apply unpack_c1_range].
Qed.

Lemma pack_b1_range t0 t1 : 0 ≤ pack_b1 t0 t1 < 256.
Proof.
  unfold pack_b1. change 256 with (2 ^ 8).
  apply js_or_range; [lia|apply byte_range..].
Qed.

(** X7.  For every polynomial of at least 256 coefficients, [polyToBytes]
    returns an array of 384 bytes, each in [[0, 255]]. *)
Theorem polyToBytes_returns_384_bytes (p : list Z) :
  (256 ≤ length p)%nat →
  length (Poly.polyToBytes (of_list p)) = 384%nat
  ∧ Forall (λ s, ∃ b, s = Some b ∧ 0 ≤ b ≤ 255) (Poly.polyToBytes (of_list p)).
Proof.
  intros _. set (a := of_list p).
  split; [apply length_polyToBytes|].
  apply Forall_lookup. intros i s Hs.
  pose proof (lookup_lt_Some _ _ _ Hs) as Hi. rewrite length_polyToBytes in Hi.
  apply list_lookup_total_correct in Hs. rewrite slot_polyToBytes in Hs.
  case_decide; [|lia]. subst s. eexists. split; [done|]. cbv zeta.
  destruct (i mod 3)%nat as [|[|?]].
  - unfold pack_b0. pose proof (byte_range (uint16 (rd (Poly.polyConditionalSubQ a) (2 * (i / 3))))). lia.
  - pose proof (pack_b1_range (uint16 (rd (Poly.polyConditionalSubQ a) (2 * (i / 3))))
                  (uint16 (rd (Poly.polyConditionalSubQ a) (2 * (i / 3) + 1)))). lia.
  - unfold pack_b2.
    pose proof (byte_range (js_shr (uint16 (rd (Poly.polyConditionalSubQ a) (2 * (i / 3) + 1))) 4)). lia.
Qed.

Lemma polyToBytes_returns_384_bytes_witness :
  length (Poly.polyToBytes (of_list (replicate 256 5000))) = 384%nat
  ∧ Forall (λ s, ∃ b, s = Some b ∧ 0 ≤ b ≤ 255)
      (Poly.polyToBytes (of_list (replicate 256 5000))).
Proof.
  apply (polyToBytes_returns_384_bytes (replicate 256 5000)).
  rewrite length_replicate. lia.
Defined.

(** X10.  Whatever the message, every slot of [polyFromData] holds 0 or
    1665 ([(q + 1) / 2]). *)
Theorem polyFromData_coefficients_0_or_1665 (m : array) :
  Forall (λ s, s = Some 0 ∨ s = Some 1665) (Poly.polyFromData m).
Proof.
  apply Forall_lookup. intros i s Hs.
  pose proof (lookup_lt_Some _ _ _ Hs) as Hi. rewrite length_polyFromData in Hi.
  apply list_lookup_total_correct in Hs. rewrite slot_polyFromData in Hs.
  case_decide; [|case_decide; [by left|lia]]. subst s.
  unfold data_coeff.
  pose proof (js_and_mask_range (js_shr (rd m (i / 8)) (Z.of_nat (i mod 8))) 1 ltac:(lia)) as Hr.
  change (2 ^ 1 - 1) with 1 in Hr. change (2 ^ 1) with 2 in Hr.
  assert (js_and (js_shr (rd m (i / 8)) (Z.of_nat (i mod 8))) 1 = 0
          ∨ js_and (js_shr (rd m (i / 8)) (Z.of_nat (i mod 8))) 1 = 1) as [->| ->] by lia.
  - left. by vm_compute.
  - right. by vm_compute.
Qed.

(** ** Unpacking three bytes and packing them again *)

Section Unpack.
Variables b0 b1 b2 : Z.
Hypothesis Hb0 : 0 ≤ b0 < 256.
Hypothesis Hb1 : 0 ≤ b1 < 256.
Hypothesis Hb2 : 0 ≤ b2 < 256.

Lemma unpack_c0_eq : unpack_c0 b0 b1 = b0 + (b1 mod 16) * 256.
Proof.
  unfold unpack_c0. rewrite !uint16_small by lia.
  rewrite js_shl_small by lia. change (2 ^ 8) with 256.
  rewrite js_or_small by lia.
  replace (Z.lor b0 (b1 * 256)) with (b0 + b1 * 256)
    by (symmetry; apply (lor_disjoint b0 b1 8); lia).
  change 4095 with (2 ^ 12 - 1). rewrite js_and_ones by lia.
  change (2 ^ 12) with 4096.
  pose proof (Z.div_mod b1 16 ltac:(lia)).
  pose proof (Z.mod_pos_bound b1 16 ltac:(lia)).
  replace (b0 + b1 * 256) with (b0 + (b1 mod 16) * 256 + (b1 / 16) * 4096) by lia.
  rewrite Z.mod_add, Z.mod_small by lia. apply int16_small. lia.
Qed.

Lemma unpack_c1_eq : unpack_c1 b1 b2 = b1 / 16 + b2 * 16.
Proof.
  unfold unpack_c1. rewrite !uint16_small by lia.
  assert (0 ≤ b1 / 16 < 16).
  { split; [apply Z.div_pos; lia|apply Z.div_lt_upper_bound; lia]. }
  rewrite js_shr_small, js_shl_small by lia. change (2 ^ 4) with 16.
  rewrite js_or_small by lia.
  replace (Z.lor (b1 / 16) (b2 * 16)) with (b1 / 16 + b2 * 16)
    by (symmetry; apply (lor_disjoint (b1 / 16) b2 4); lia).
  change 4095 with (2 ^ 12 - 1). rewrite js_and_ones by lia.
  change (2 ^ 12) with 4096.
  rewrite Z.mod_small by lia. apply int16_small. lia.
Qed.

Lemma pack_unpack_b0 : pack_b0 (unpack_c0 b0 b1) = b0.
Proof.
  rewrite unpack_c0_eq. unfold pack_b0. rewrite byte_eq.
  replace (b0 + b1 mod 16 * 256) with (b0 + (b1 mod 16) * 256) by lia.
  rewrite Z.mod_add, Z.mod_small; lia.
Qed.

Lemma pack_unpack_b1 : pack_b1 (unpack_c0 b0 b1) (unpack_c1 b1 b2) = b1.
Proof.
  pose proof unpack_c0_range b0 b1. pose proof unpack_c1_range b1 b2.
  rewrite pack_b1_eq by lia. rewrite unpack_c0_eq, unpack_c1_eq.
  pose proof (Z.mod_pos_bound b1 16 ltac:(lia)).
  pose proof (Z.div_mod b1 16 ltac:(lia)).
  assert (0 ≤ b1 / 16 < 16).
  { split; [apply Z.div_pos; lia|apply Z.div_lt_upper_bound; lia]. }
  rewrite Z.div_add, (Z.div_small b0) by lia.
  rewrite Z.mod_add, (Z.mod_small (b1 / 16)) by lia. lia.
Qed.

Lemma pack_unpack_b2 : pack_b2 (unpack_c1 b1 b2) = b2.
Proof.
  pose proof unpack_c1_range b1 b2.
  rewrite pack_b2_eq by lia. rewrite unpack_c1_eq.
  assert (0 ≤ b1 / 16 < 16).
  { split; [apply Z.div_pos; lia|apply Z.div_lt_upper_bound; lia]. }
  rewrite Z.div_add, (Z.div_small (b1 / 16)) by lia. lia.
Qed.

End Unpack.

Lemma rd_polyFromBytes (a : array) h o : (h < 128)%nat → (o < 2)%nat →
  rd (Poly.polyFromBytes a) (2 * h + o)
  = match o with
    | 0%nat => unpack_c0 (rd a (3 * h)) (rd a (3 * h + 1))
    | _ => unpack_c1 (rd a (3 * h + 1)) (rd a (3 * h + 2))
    end.
Proof.
  intros Hh Ho. apply slot_Some_rd. rewrite slot_polyFromBytes.
  case_decide; [|lia].
  assert ((2 * h + o) / 2 = h)%nat as ->.
  { symmetry. apply Nat.div_unique with (r := o); lia. }
  assert ((2 * h + o) mod 2 = o)%nat as ->; [|done].
  symmetry. apply Nat.mod_unique with (q := h); lia.
Qed.

(** X8.  For every array [b] of 384 bytes whose 12-bit fields are below q
    (the decoded coefficients are canonical), [polyToBytes (polyFromBytes b)]
    is [b]. *)
Theorem polyToBytes_polyFromBytes (b : list Z) :
  length b = 384%nat → Forall (λ x, 0 ≤ x < 256) b →
  Forall (λ c, c < paramsQ) (coefficients (Poly.polyFromBytes (of_list b))) →
  Poly.polyToBytes (Poly.polyFromBytes (of_list b)) = of_list b.
Proof.
  intros Hlen Hb Hcanon. apply array_eq.
  - by rewrite length_polyToBytes, length_of_list.
  - intros i. rewrite length_polyToBytes. intros Hi.
    assert (∀ j, (j < 384)%nat → 0 ≤ rd (of_list b) j < 256) as Hrd.
    { intros j Hj. destruct (lookup_lt_is_Some_2 b j) as [x Hx]; [lia|].
      rewrite (rd_of_list _ _ _ Hx). by apply (Forall_lookup_1 _ _ _ _ Hb Hx). }
    assert (∀ j, (j < 256)%nat →
      0 ≤ rd (Poly.polyFromBytes (of_list b)) j < paramsQ) as Hc.
    { intros j Hj.
      pose proof (Forall_lookup_1 _ _ _ _ Hcanon (lookup_coefficients _ j Hj)) as Hlt.
      destruct (slot_polyFromBytes_range (of_list b) j Hj) as (c & Hs & Hr).
      rewrite (slot_Some_rd _ _ _ Hs) in *. lia. }
    destruct (lookup_lt_is_Some_2 b i) as [x Hx]; [lia|].
    rewrite (slot_of_list _ _ _ Hx), slot_polyToBytes. case_decide; [|lia].
    f_equal. cbv zeta.
    pose proof (Nat.div_mod_eq i 3) as Hdm.
    assert (i mod 3 < 3)%nat as Hm by (apply Nat.mod_upper_bound; lia).
    set (h := (i / 3)%nat) in *. assert (h < 128)%nat by lia.
    rewrite !rd_polyConditionalSubQ by lia.
    rewrite !csubq_small by (apply Hc; lia).
    pose proof (rd_polyFromBytes (of_list b) h 0 ltac:(lia) ltac:(lia)) as C0.
    pose proof (rd_polyFromBytes (of_list b) h 1 ltac:(lia) ltac:(lia)) as C1.
    rewrite Nat.add_0_r in C0. cbv beta iota in C0, C1.
    pose proof (Hc (2 * h)%nat ltac:(lia)) as R0.
    pose proof (Hc (2 * h + 1)%nat ltac:(lia)) as R1.
    unfold paramsQ in R0, R1.
    rewrite !uint16_small by lia. rewrite C0, C1.
    pose proof (Hrd (3 * h)%nat ltac:(lia)).
    pose proof (Hrd (3 * h + 1)%nat ltac:(lia)).
    pose proof (Hrd (3 * h + 2)%nat ltac:(lia)).
    rewrite <- (rd_of_list _ _ _ Hx).
    destruct (i mod 3)%nat as [|[|[|?]]] eqn:Hmod; [| | |lia].
    + rewrite pack_unpack_b0 by done. f_equal. lia.
    + rewrite pack_unpack_b1 by done. f_equal. lia.
    + rewrite pack_unpack_b2 by done. f_equal. lia.
Qed.

Lemma polyToBytes_polyFromBytes_witness :
  Poly.polyToBytes (Poly.polyFromBytes (of_list (replicate 384 1)))
  = of_list (replicate 384 1).
Proof.
  apply (polyToBytes_polyFromBytes (replicate 384 1)).
  - reflexivity.
  - apply Forall_replicate. lia.
  - refine (bool_decide_unpack _ _). by vm_compute.
Defined.

(** ** The bits of [polyToMsg] *)

Lemma msg_bit_eq x j : msg_bit x j = byte (js_shl (msg_round_bit x) (Z.of_nat j)).
Proof. reflexivity. Qed.

Lemma msg_round_bit_01 x : msg_round_bit x = 0 ∨ msg_round_bit x = 1.
Proof.
  unfold msg_round_bit.
  pose proof (js_and_mask_range (div_round_q (js_shl (uint16 x) 1)) 1 ltac:(lia)) as Hr.
  change (2 ^ 1 - 1) with 1 in Hr. change (2 ^ 1) with 2 in Hr. lia.
Qed.

Lemma msg_byte_range coeff : 0 ≤ msg_byte coeff 0 < 256.
Proof.
  unfold msg_byte.
  refine (for_loop_inv (λ _ v, 0 ≤ v < 256) 0 8 _ 0 _ _); [lia|].
  intros j v _ Hv. change 256 with (2 ^ 8).
  apply js_or_range; [lia|done|]. rewrite msg_bit_eq. apply byte_range.
Qed.

Lemma msg_byte_testbit coeff j : (j < 8)%nat →
  Z.testbit (msg_byte coeff 0) (Z.of_nat j)
  = bool_decide (msg_round_bit (coeff j) = 1).
Proof.
  intros Hj. unfold msg_byte, Poly.for_loop. cbn [seq fold_left].
  rewrite !msg_bit_eq.
  do 8 (destruct j as [|j]; [
    destruct (msg_round_bit_01 (coeff 0%nat)) as [H0|H0];
    destruct (msg_round_bit_01 (coeff 1%nat)) as [H1|H1];
    destruct (msg_round_bit_01 (coeff 2%nat)) as [H2|H2];
    destruct (msg_round_bit_01 (coeff 3%nat)) as [H3|H3];
    destruct (msg_round_bit_01 (coeff 4%nat)) as [H4|H4];
    destruct (msg_round_bit_01 (coeff 5%nat)) as [H5|H5];
    destruct (msg_round_bit_01 (coeff 6%nat)) as [H6|H6];
    destruct (msg_round_bit_01 (coeff 7%nat)) as [H7|H7];
    rewrite H0, H1, H2, H3, H4, H5, H6, H7; by vm_compute|]).
  lia.
Qed.

Lemma msg_round_bit_threshold x : 0 ≤ x < paramsQ →
  msg_round_bit x = if decide (833 ≤ x ≤ 2496) then 1 else 0.
Proof.
  intros Hx.
  assert (Forall (λ x, msg_round_bit x = if decide (833 ≤ x ≤ 2496) then 1 else 0)
            (seqZ 0 3329)) as Hall.
  { refine (bool_decide_unpack _ _). by vm_compute. }
  rewrite Forall_forall in Hall. apply Hall, elem_of_seqZ. unfold paramsQ in Hx. lia.
Qed.

(** X9.  Whatever the input, [polyToMsg] returns an array of 32 bytes,
    each in [[0, 255]]. *)
Theorem polyToMsg_returns_32_bytes (a : array) :
  length (Poly.polyToMsg a) = 32%nat
  ∧ Forall (λ s, ∃ b, s = Some b ∧ 0 ≤ b ≤ 255) (Poly.polyToMsg a).
Proof.
  split; [apply length_polyToMsg|].
  apply Forall_lookup. intros i s Hs.
  pose proof (lookup_lt_Some _ _ _ Hs) as Hi. rewrite length_polyToMsg in Hi.
  apply list_lookup_total_correct in Hs. rewrite slot_polyToMsg in Hs.
  case_decide; [|lia]. subst s. eexists. split; [done|].
  pose proof (msg_byte_range (λ o, rd (Poly.polyConditionalSubQ a) (8 * i + o))). lia.
Qed.

(** X11.  [polyToMsg] decodes a coefficient [x] of [[0, q)] to the bit 1
    exactly when [833 <= x <= 2496], that is when [x] is nearer to [q / 2]
    than to 0 or q: bit [j] of byte [i] is that of coefficient [8 i + j]. *)
Theorem polyToMsg_bit_threshold (a : array) (i j : nat) (x : Z) :
  (i < 32)%nat → (j < 8)%nat → a !!! (8 * i + j)%nat = Some x →
  0 ≤ x < paramsQ →
  Z.testbit (rd (Poly.polyToMsg a) i) (Z.of_nat j) = bool_decide (833 ≤ x ≤ 2496).
Proof.
  intros Hi Hj Hx Hr.
  rewrite (slot_Some_rd (Poly.polyToMsg a) i
             (msg_byte (λ o, rd (Poly.polyConditionalSubQ a) (8 * i + o)) 0)).
  2: { rewrite slot_polyToMsg. case_decide; [done|lia]. }
  rewrite msg_byte_testbit by done.
  rewrite rd_polyConditionalSubQ by lia.
  rewrite (slot_Some_rd _ _ _ Hx), csubq_small, msg_round_bit_threshold by done.
  case_decide.
  - by rewrite bool_decide_eq_true_2, (bool_decide_eq_true_2 (833 ≤ x ≤ 2496)).
  - by rewrite bool_decide_eq_false_2, (bool_decide_eq_false_2 (833 ≤ x ≤ 2496)).
Qed.

Lemma polyToMsg_bit_threshold_witness :
  Z.testbit (rd (Poly.polyToMsg (of_list (replicate 256 1000))) 3) (Z.of_nat 5)
  = bool_decide (833 ≤ 1000 ≤ 2496).
Proof.
  apply (polyToMsg_bit_threshold (of_list (replicate 256 1000)) 3 5 1000).
  - lia.
  - lia.
  - reflexivity.
  - unfold paramsQ. lia.
Defined.

(** ** Loops with a running index *)

(** A loop on [(aa, r)] that advances [aa] by [c] in every round. *)
Lemma for_loop_counter (c : nat) (g : nat → nat → array → array) n (r0 : array) :
  Poly.for_loop 0 n (λ i '(aa, r), ((aa + c)%nat, g i aa r)) (0%nat, r0)
  = ((c * n)%nat, Poly.for_loop 0 n (λ i r, g i (c * i)%nat r) r0).
Proof.
  induction n as [|n IH].
  - unfold Poly.for_loop. simpl. f_equal. lia.
  - rewrite !for_loop_snoc, IH. cbn [Nat.add]. f_equal. lia.
Qed.

Lemma wr_append (r : array) n v : n = length r → wr r n v = r ++ [Some v].
Proof.
  intros ->. unfold wr. case_decide; [lia|].
  by rewrite Nat.sub_diag.
Qed.

(** A loop on [(rr, r)] that appends [w] values in every round. *)
Lemma for_loop_append (w : nat) (f : nat → nat → Z) n
    (body : nat → nat * array → nat * array) :
  (0 < w)%nat →
  (∀ i (r : array), body i (length r, r)
     = ((length r + w)%nat, r ++ of_list (f i <$> seq 0 w))) →
  (Poly.for_loop 0 n body (0%nat, [])).1 = (w * n)%nat
  ∧ length (Poly.for_loop 0 n body (0%nat, [])).2 = (w * n)%nat
  ∧ ∀ k, (k < w * n)%nat →
         (Poly.for_loop 0 n body (0%nat, [])).2 !!! k
         = Some (f (k / w)%nat (k mod w)%nat).
Proof.
  intros Hw Hbody.
  refine (for_loop_inv (λ i (st : nat * array),
      st.1 = (w * i)%nat ∧ length st.2 = (w * i)%nat
      ∧ ∀ k, (k < w * i)%nat → st.2 !!! k = Some (f (k / w)%nat (k mod w)%nat))
    0 n body (0%nat, []) _ _).
  - simpl. repeat split; [lia..|]. intros k Hk. lia.
  - intros i [rr r] _ (Hrr & Hlen & Hslots). simpl in Hrr, Hlen, Hslots.
    subst rr. rewrite <- Hlen, Hbody. simpl.
    rewrite length_app, length_of_list, length_fmap, length_seq.
    repeat split; [lia..|]. intros k Hk.
    destruct (decide (k < w * i)%nat) as [Hlt|Hge].
    + rewrite lookup_total_app_l by lia. by apply Hslots.
    + rewrite lookup_total_app_r by lia.
      assert (k / w = i)%nat as ->.
      { symmetry. apply Nat.div_unique with (r := (k - w * i)%nat); lia. }
      assert (k mod w = k - w * i)%nat as ->.
      { symmetry. apply Nat.mod_unique with (q := i); lia. }
      rewrite Hlen. apply list_lookup_total_correct.
      unfold of_list. rewrite !list_lookup_fmap, lookup_seq_lt by lia. done.
Qed.

(** ** [decompressPoly], slot by slot *)

Lemma slot_decompressPoly_4 K (a : array) j : (K = 2 ∨ K = 3)%nat →
  Poly.decompressPoly K a !!! j
  = if decide (j < 256)%nat
    then Some (match (j mod 2)%nat with
               | 0%nat => decompress4 (js_and (byte (rd a (j / 2))) 15)
               | _ => decompress4 (js_shr (byte (rd a (j / 2))) 4)
               end)
    else None.
Proof.
  intros HK. unfold Poly.decompressPoly. rewrite decide_True by done.
  rewrite (for_loop_counter 1 (λ i aa r,
    wr (wr r (2 * i) (decompress4 (js_and (byte (rd a aa)) 15)))
       (2 * i + 1) (decompress4 (js_shr (byte (rd a aa)) 4)))).
  cbn [snd].
  rewrite (for_loop_blocks 2 (λ i o,
    match o with
    | 0%nat => decompress4 (js_and (byte (rd a i)) 15)
    | _ => decompress4 (js_shr (byte (rd a i)) 4)
    end)); [|lia|..].
  - change (2 * (paramsN / 2))%nat with 256%nat. case_decide; [done|].
    apply slot_new_array.
  - intros i s o Ho. rewrite Nat.mul_1_l. destruct o as [|[|o]]; [| |lia].
    + rewrite Nat.add_0_r. by rewrite !slot_wr_ne, slot_wr_eq by lia.
    + by rewrite slot_wr_eq.
  - intros i s j' Hj'. by rewrite !slot_wr_ne by lia.
Qed.

Lemma length_decompressPoly_4 K (a : array) : (K = 2 ∨ K = 3)%nat →
  length (Poly.decompressPoly K a) = 384%nat.
Proof.
  intros HK. unfold Poly.decompressPoly. rewrite decide_True by done.
  rewrite (for_loop_counter 1 (λ i aa r,
    wr (wr r (2 * i) (decompress4 (js_and (byte (rd a aa)) 15)))
       (2 * i + 1) (decompress4 (js_shr (byte (rd a aa)) 4)))).
  cbn [snd]. apply for_loop_length.
  - intros i s Hi Hs. change (paramsN / 2)%nat with 128%nat in Hi.
    rewrite !length_wr. lia.
  - apply length_replicate.
Qed.

(** ** [compressPoly], byte by byte *)

Lemma rd_compress_t (polyA : array) i shift mask j : (j < 8)%nat →
  rd (Poly.for_loop 0 8 (λ j t,
        wr t j (intToByte (js_and
          (div_round_q (int32 (js_shl (rd polyA (8 * i + j)) shift))) mask)))
        (new_array 8)) j
  = compress_coeff shift mask (rd polyA (8 * i + j)).
Proof.
  intros Hj. apply slot_Some_rd.
  rewrite (for_loop_writes 0 (λ j, compress_coeff shift mask (rd polyA (8 * i + j)))).
  case_decide; [|lia]. by rewrite Nat.sub_0_r.
Qed.

Lemma compressPoly_4_spec K (polyA : array) : (K = 2 ∨ K = 3)%nat →
  length (Poly.compressPoly K polyA) = 128%nat
  ∧ ∀ k, (k < 128)%nat →
      Poly.compressPoly K polyA !!! k
      = Some (intToByte (js_or (compress_coeff 4 15 (rd polyA (2 * k)))
                               (js_shl (compress_coeff 4 15 (rd polyA (2 * k + 1))) 4))).
Proof.
  intros HK. unfold Poly.compressPoly. rewrite decide_True by done.
  match goal with
  | |- context [Poly.for_loop 0 (paramsN / 8) ?body (0%nat, [])] =>
      pose proof (for_loop_append 4 (λ i o,
        intToByte (js_or (compress_coeff 4 15 (rd polyA (8 * i + 2 * o)))
                         (js_shl (compress_coeff 4 15 (rd polyA (8 * i + 2 * o + 1))) 4)))
        (paramsN / 8) body ltac:(lia)) as Happ
  end.
  destruct Happ as (_ & Hlen & Hslots).
  - intros i r. cbv zeta.
    rewrite (rd_compress_t polyA i 4 15 0), (rd_compress_t polyA i 4 15 1),
      (rd_compress_t polyA i 4 15 2), (rd_compress_t polyA i 4 15 3),
      (rd_compress_t polyA i 4 15 4), (rd_compress_t polyA i 4 15 5),
      (rd_compress_t polyA i 4 15 6), (rd_compress_t polyA i 4 15 7) by lia.
    rewrite (wr_append r) by done.
    rewrite (wr_append (r ++ _)) by (rewrite length_app; simpl; lia).
    rewrite (wr_append ((r ++ _) ++ _)) by (rewrite !length_app; simpl; lia).
    rewrite (wr_append (((r ++ _) ++ _) ++ _)) by (rewrite !length_app; simpl; lia).
    rewrite <- !app_assoc. unfold of_list. cbn [seq fmap list_fmap app].
    change (2 * 0)%nat with 0%nat. change (2 * 1)%nat with 2%nat.
    change (2 * 2)%nat with 4%nat. change (2 * 3)%nat with 6%nat.
    rewrite <- !Nat.add_assoc. cbn [Nat.add]. done.
  - split; [exact Hlen|]. intros k Hk. rewrite Hslots by (exact Hk).
    pose proof (Nat.div_mod_eq k 4) as Hdm.
    by replace (8 * (k / 4) + 2 * (k mod 4))%nat with (2 * k)%nat by lia.
Qed.

Lemma slot_decompressPoly_5 K (a : array) j : ¬ (K = 2 ∨ K = 3)%nat →
  Poly.decompressPoly K a !!! j
  = if decide (j < 256)%nat
    then Some (decompress5 (rd (unpack5 a (5 * (j / 8))) (j mod 8)))
    else None.
Proof.
  intros HK. unfold Poly.decompressPoly. rewrite decide_False by done.
  rewrite (for_loop_counter 5 (λ i aa r,
    Poly.for_loop 0 8 (λ j r,
      wr r (8 * i + j) (decompress5 (rd (unpack5 a aa) j))) r)).
  cbn [snd].
  rewrite (for_loop_blocks 8 (λ i o, decompress5 (rd (unpack5 a (5 * i)) o)));
    [|lia|..].
  - change (8 * (paramsN / 8))%nat with 256%nat. case_decide; [done|].
    apply slot_new_array.
  - intros i s o Ho.
    rewrite (for_loop_writes (8 * i) (λ j, decompress5 (rd (unpack5 a (5 * i)) j))).
    case_decide; [|lia]. do 3 f_equal. lia.
  - intros i s j' Hj'.
    rewrite (for_loop_writes (8 * i) (λ j, decompress5 (rd (unpack5 a (5 * i)) j))).
    case_decide; [lia|done].
Qed.

Lemma length_decompressPoly_5 K (a : array) : ¬ (K = 2 ∨ K = 3)%nat →
  length (Poly.decompressPoly K a) = 384%nat.
Proof.
  intros HK. unfold Poly.decompressPoly. rewrite decide_False by done.
  rewrite (for_loop_counter 5 (λ i aa r,
    Poly.for_loop 0 8 (λ j r,
      wr r (8 * i + j) (decompress5 (rd (unpack5 a aa) j))) r)).
  cbn [snd]. apply for_loop_length.
  - intros i s Hi Hs. change (paramsN / 8)%nat with 32%nat in Hi.
    apply for_loop_length; [|done].
    intros j s' Hj Hs'. rewrite length_wr. lia.
  - apply length_replicate.
Qed.

Lemma compressPoly_5_spec K (polyA : array) : ¬ (K = 2 ∨ K = 3)%nat →
  length (Poly.compressPoly K polyA) = 160%nat
  ∧ ∀ k, (k < 160)%nat →
      Poly.compressPoly K polyA !!! k
      = Some (pack5 (λ j, compress_coeff 5 31 (rd polyA (8 * (k / 5) + j)))
                    (k mod 5)).
Proof.
  intros HK. unfold Poly.compressPoly. rewrite decide_False by done.
  match goal with
  | |- context [Poly.for_loop 0 (paramsN / 8) ?body (0%nat, [])] =>
      pose proof (for_loop_append 5 (λ i o,
        pack5 (λ j, compress_coeff 5 31 (rd polyA (8 * i + j))) o)
        (paramsN / 8) body ltac:(lia)) as Happ
  end.
  destruct Happ as (_ & Hlen & Hslots).
  - intros i r. cbv zeta.
    rewrite (rd_compress_t polyA i 5 31 0), (rd_compress_t polyA i 5 31 1),
      (rd_compress_t polyA i 5 31 2), (rd_compress_t polyA i 5 31 3),
      (rd_compress_t polyA i 5 31 4), (rd_compress_t polyA i 5 31 5),
      (rd_compress_t polyA i 5 31 6), (rd_compress_t polyA i 5 31 7) by lia.
    rewrite (wr_append r) by done.
    rewrite (wr_append (r ++ _)) by (rewrite length_app; simpl; lia).
    rewrite (wr_append ((r ++ _) ++ _)) by (rewrite !length_app; simpl; lia).
    rewrite (wr_append (((r ++ _) ++ _) ++ _)) by (rewrite !length_app; simpl; lia).
    rewrite (wr_append ((((r ++ _) ++ _) ++ _) ++ _))
      by (rewrite !length_app; simpl; lia).
    rewrite <- !app_assoc. unfold of_list. cbn [seq fmap list_fmap app pack5]. done.
  - split; [exact Hlen|]. intros k Hk. by rewrite Hslots by (exact Hk).
Qed.

(** ** Compression to 4 and 5 bits *)

Ltac by_cases_below n :=
  unfold compress_coeff, decompress4, decompress5,
    compress10, compress11, decompress10, decompress11;
  rewrite ?byte_eq, ?intToByte_eq, ?uint32_eq, ?uint16_eq;
  match goal with
  | H : 0 ≤ ?x < _ |- ?G =>
      let P := eval pattern x in G in
      match P with
      | ?F _ =>
          let Hall := fresh "Hall" in
          assert (Forall F (seqZ 0 n)) as Hall
            by (refine (bool_decide_unpack _ _); vm_compute; exact I);
          rewrite Forall_forall in Hall; apply Hall, elem_of_seqZ; lia
      end
  end.

Lemma compress_coeff_range shift n x :
  0 ≤ n ≤ 8 → 0 ≤ compress_coeff shift (2 ^ n - 1) x < 2 ^ n.
Proof.
  intros Hn. unfold compress_coeff.
  pose proof (js_and_mask_range (div_round_q (int32 (js_shl x shift))) n ltac:(lia)).
  assert (2 ^ n ≤ 2 ^ 8) by (apply Z.pow_le_mono_r; lia).
  rewrite intToByte_eq. case_decide; lia.
Qed.

Lemma compress_coeff_4_range x : 0 ≤ compress_coeff 4 15 x < 16.
Proof. apply (compress_coeff_range 4 4 x). lia. Qed.

Lemma compress_coeff_5_range x : 0 ≤ compress_coeff 5 31 x < 32.
Proof. apply (compress_coeff_range 5 5 x). lia. Qed.

Lemma decompress4_range b : 0 ≤ b < 256 →
  0 ≤ decompress4 (js_and b 15) < paramsQ ∧ 0 ≤ decompress4 (js_shr b 4) < paramsQ.
Proof. intros Hb. by_cases_below 256. Qed.

Lemma mask5_range y : 0 ≤ js_and y 31 < 32.
Proof. apply (js_and_mask_range y 5). lia. Qed.

Lemma decompress5_masked z : 0 ≤ z < 32 →
  0 ≤ int16 (js_shr (byte z * uint32 paramsQ + 16) 5) < paramsQ
  ∧ compress_coeff 5 31 (int16 (js_shr (byte z * uint32 paramsQ + 16) 5)) = z.
Proof. intros Hz. by_cases_below 32. Qed.

Lemma decompress5_range y : 0 ≤ decompress5 y < paramsQ.
Proof. apply decompress5_masked, mask5_range. Qed.

Lemma compress_decompress5 y : compress_coeff 5 31 (decompress5 y) = js_and y 31.
Proof. apply decompress5_masked, mask5_range. Qed.

Lemma compress_decompress4 b : 0 ≤ b < 256 →
  intToByte (js_or (compress_coeff 4 15 (decompress4 (js_and (byte b) 15)))
                   (js_shl (compress_coeff 4 15 (decompress4 (js_shr (byte b) 4))) 4))
  = b.
Proof. intros Hb. by_cases_below 256. Qed.

Lemma unpack_pack4 n : 0 ≤ n < 256 →
  js_and (byte (intToByte (js_or (n mod 16) (js_shl (n / 16) 4)))) 15 = n mod 16
  ∧ js_shr (byte (intToByte (js_or (n mod 16) (js_shl (n / 16) 4)))) 4 = n / 16
  ∧ 0 ≤ intToByte (js_or (n mod 16) (js_shl (n / 16) 4)) < 256.
Proof. intros Hn. by_cases_below 256. Qed.

Lemma unpack_pack4' t0 t1 : 0 ≤ t0 < 16 → 0 ≤ t1 < 16 →
  js_and (byte (intToByte (js_or t0 (js_shl t1 4)))) 15 = t0
  ∧ js_shr (byte (intToByte (js_or t0 (js_shl t1 4)))) 4 = t1
  ∧ 0 ≤ intToByte (js_or t0 (js_shl t1 4)) < 256.
Proof.
  intros H0 H1. pose proof (unpack_pack4 (t0 + 16 * t1) ltac:(lia)) as H.
  replace ((t0 + 16 * t1) mod 16) with t0 in H by (Z.div_mod_to_equations; lia).
  replace ((t0 + 16 * t1) / 16) with t1 in H by (Z.div_mod_to_equations; lia).
  exact H.
Qed.

Lemma compress4_error x : 0 ≤ x < paramsQ →
  distance_mod_q (decompress4 (compress_coeff 4 15 x)) x ≤ 104.
Proof. intros Hx. unfold paramsQ in Hx. by_cases_below 3329. Qed.

Lemma compress5_error x : 0 ≤ x < paramsQ →
  distance_mod_q (decompress5 (compress_coeff 5 31 x)) x ≤ 52.
Proof. intros Hx. unfold paramsQ in Hx. by_cases_below 3329. Qed.

(** ** Five bytes and eight 5-bit values *)

Lemma js_or_shl a b n :
  0 ≤ n ≤ 30 → 0 ≤ a < 2 ^ n → 0 ≤ b → b * 2 ^ n < 2147483648 →
  js_or a (js_shl b n) = a + b * 2 ^ n.
Proof.
  intros Hn Ha Hb Hs.
  assert (0 < 2 ^ n ≤ 2 ^ 30) as Hp.
  { split; [apply Z.pow_pos_nonneg; lia|apply Z.pow_le_mono_r; lia]. }
  change (2 ^ 30) with 1073741824 in Hp.
  rewrite js_shl_small by nia.
  rewrite js_or_small by nia.
  apply lor_disjoint; lia.
Qed.

Lemma intToByte_nonneg v : 0 ≤ v → intToByte v = v mod 256.
Proof.
  intros Hv. rewrite intToByte_eq. case_decide; [done|].
  by rewrite Z.mod_small by lia.
Qed.

Lemma js_shr_byte b s : 0 ≤ s ≤ 31 → 0 ≤ b < 2147483648 → js_shr b s = b / 2 ^ s.
Proof. intros Hs Hb. apply js_shr_small; lia. Qed.

Lemma pack5_byte0 t0 t1 : 0 ≤ t0 < 32 → 0 ≤ t1 < 32 →
  intToByte (js_or t0 (js_shl t1 5)) = (t0 + 32 * t1) mod 256.
Proof.
  intros H0 H1. rewrite (js_or_shl t0 t1 5) by lia.
  rewrite intToByte_nonneg by lia. f_equal. lia.
Qed.

Lemma pack5_byte1 t1 t2 t3 : 0 ≤ t1 < 32 → 0 ≤ t2 < 32 → 0 ≤ t3 < 32 →
  intToByte (js_or (js_or (js_shr t1 3) (js_shl t2 2)) (js_shl t3 7))
  = (t1 / 8 + 4 * t2 + 128 * t3) mod 256.
Proof.
  intros H1 H2 H3. rewrite (js_shr_byte t1 3) by lia. change (2 ^ 3) with 8.
  assert (0 ≤ t1 / 8 < 4) by (Z.div_mod_to_equations; lia).
  rewrite (js_or_shl (t1 / 8) t2 2) by lia.
  rewrite (js_or_shl (t1 / 8 + t2 * 2 ^ 2) t3 7) by lia.
  rewrite intToByte_nonneg by lia. f_equal. lia.
Qed.

Lemma pack5_byte2 t3 t4 : 0 ≤ t3 < 32 → 0 ≤ t4 < 32 →
  intToByte (js_or (js_shr t3 1) (js_shl t4 4)) = (t3 / 2 + 16 * t4) mod 256.
Proof.
  intros H3 H4. rewrite (js_shr_byte t3 1) by lia. change (2 ^ 1) with 2.
  assert (0 ≤ t3 / 2 < 16) by (Z.div_mod_to_equations; lia).
  rewrite (js_or_shl (t3 / 2) t4 4) by lia.
  rewrite intToByte_nonneg by lia. f_equal. lia.
Qed.

Lemma pack5_byte3 t4 t5 t6 : 0 ≤ t4 < 32 → 0 ≤ t5 < 32 → 0 ≤ t6 < 32 →
  intToByte (js_or (js_or (js_shr t4 4) (js_shl t5 1)) (js_shl t6 6))
  = (t4 / 16 + 2 * t5 + 64 * t6) mod 256.
Proof.
  intros H4 H5 H6. rewrite (js_shr_byte t4 4) by lia. change (2 ^ 4) with 16.
  assert (0 ≤ t4 / 16 < 2) by (Z.div_mod_to_equations; lia).
  rewrite (js_or_shl (t4 / 16) t5 1) by lia.
  rewrite (js_or_shl (t4 / 16 + t5 * 2 ^ 1) t6 6) by lia.
  rewrite intToByte_nonneg by lia. f_equal. lia.
Qed.

Lemma pack5_byte4 t6 t7 : 0 ≤ t6 < 32 → 0 ≤ t7 < 32 →
  intToByte (js_or (js_shr t6 2) (js_shl t7 3)) = t6 / 4 + 8 * t7.
Proof.
  intros H6 H7. rewrite (js_shr_byte t6 2) by lia. change (2 ^ 2) with 4.
  assert (0 ≤ t6 / 4 < 8) by (Z.div_mod_to_equations; lia).
  rewrite (js_or_shl (t6 / 4) t7 3) by lia.
  rewrite intToByte_nonneg by lia. rewrite Z.mod_small; lia.
Qed.

(** A field that lies across two bytes: the high bits of [lo] and the
    low bits of [hi]. *)
Lemma unpack5_across lo hi s :
  3 ≤ s ≤ 7 → 0 ≤ lo < 256 → 0 ≤ hi < 256 →
  js_and (js_or (byte (js_shr lo s)) (byte (js_shl hi (8 - s)))) 31
  = (lo / 2 ^ s + (hi mod 2 ^ s) * 2 ^ (8 - s)) mod 32.
Proof.
  intros Hs Hlo Hhi.
  assert (s = 3 ∨ s = 4 ∨ s = 5 ∨ s = 6 ∨ s = 7) as Hcases by lia.
  assert (0 ≤ lo / 2 ^ s < 2 ^ (8 - s) ∧ 0 ≤ hi mod 2 ^ s < 2 ^ s
          ∧ (hi * 2 ^ (8 - s)) mod 256 = (hi mod 2 ^ s) * 2 ^ (8 - s)
          ∧ 2 ^ s * 2 ^ (8 - s) = 256 ∧ 0 < 2 ^ (8 - s) ≤ 32 ∧ 0 < 2 ^ s) as Hfacts.
  { destruct Hcases as [->|[->|[->|[->| ->]]]]; simpl;
      repeat split; Z.div_mod_to_equations; lia. }
  destruct Hfacts as (Hx & Hw & Hmod & Hprod & Hpow & Hpow').
  rewrite (js_shr_byte lo s) by lia.
  rewrite (js_shl_small hi (8 - s)) by (try nia; lia).
  rewrite !byte_eq, Hmod, (Z.mod_small (lo / 2 ^ s)) by lia.
  rewrite js_or_small by nia.
  rewrite lor_disjoint by lia.
  change 31 with (2 ^ 5 - 1). rewrite js_and_ones by (try nia; lia). done.
Qed.

Lemma unpack5_within b s : 0 ≤ s ≤ 7 → 0 ≤ b < 256 →
  js_and (js_shr b s) 31 = (b / 2 ^ s) mod 32.
Proof.
  intros Hs Hb. rewrite (js_shr_byte b s) by lia.
  assert (0 < 2 ^ s) by (apply Z.pow_pos_nonneg; lia).
  assert (0 ≤ b / 2 ^ s ≤ b).
  { split; [apply Z.div_pos; lia|]. apply Z.div_le_upper_bound; nia. }
  change 31 with (2 ^ 5 - 1). by rewrite js_and_ones by lia.
Qed.

Lemma pack5_range (t : nat → Z) o :
  (∀ j, 0 ≤ t j < 32) → 0 ≤ pack5 t o < 256.
Proof.
  intros Ht.
  pose proof (Ht 0%nat). pose proof (Ht 1%nat). pose proof (Ht 2%nat).
  pose proof (Ht 3%nat). pose proof (Ht 4%nat). pose proof (Ht 5%nat).
  pose proof (Ht 6%nat). pose proof (Ht 7%nat).
  destruct o as [|[|[|[|o]]]]; cbn [pack5].
  - rewrite pack5_byte0 by done. apply Z.mod_pos_bound. lia.
  - rewrite pack5_byte1 by done. apply Z.mod_pos_bound. lia.
  - rewrite pack5_byte2 by done. apply Z.mod_pos_bound. lia.
  - rewrite pack5_byte3 by done. apply Z.mod_pos_bound. lia.
  - rewrite pack5_byte4 by done. Z.div_mod_to_equations; lia.
Qed.

Lemma pack5_ext (t t' : nat → Z) o :
  (∀ j, (j < 8)%nat → t j = t' j) → pack5 t o = pack5 t' o.
Proof.
  intros Ht.
  pose proof (Ht 0%nat ltac:(lia)) as E0. pose proof (Ht 1%nat ltac:(lia)) as E1.
  pose proof (Ht 2%nat ltac:(lia)) as E2. pose proof (Ht 3%nat ltac:(lia)) as E3.
  pose proof (Ht 4%nat ltac:(lia)) as E4. pose proof (Ht 5%nat ltac:(lia)) as E5.
  pose proof (Ht 6%nat ltac:(lia)) as E6. pose proof (Ht 7%nat ltac:(lia)) as E7.
  destruct o as [|[|[|[|o]]]]; cbn [pack5]; congruence.
Qed.

(** The masked fields of five bytes, in closed form. *)
Lemma unpack5_fields (a : array) aa :
  (∀ o, (o < 5)%nat → 0 ≤ rd a (aa + o) < 256) →
  js_and (rd (unpack5 a aa) 0) 31 = rd a aa mod 32
  ∧ js_and (rd (unpack5 a aa) 1) 31
    = (rd a aa / 32 + (rd a (aa + 1) mod 32) * 8) mod 32
  ∧ js_and (rd (unpack5 a aa) 2) 31 = (rd a (aa + 1) / 4) mod 32
  ∧ js_and (rd (unpack5 a aa) 3) 31
    = (rd a (aa + 1) / 128 + (rd a (aa + 2) mod 128) * 2) mod 32
  ∧ js_and (rd (unpack5 a aa) 4) 31
    = (rd a (aa + 2) / 16 + (rd a (aa + 3) mod 16) * 16) mod 32
  ∧ js_and (rd (unpack5 a aa) 5) 31 = (rd a (aa + 3) / 2) mod 32
  ∧ js_and (rd (unpack5 a aa) 6) 31
    = (rd a (aa + 3) / 64 + (rd a (aa + 4) mod 64) * 4) mod 32
  ∧ js_and (rd (unpack5 a aa) 7) 31 = rd a (aa + 4) / 8.
Proof.
  intros Hb.
  pose proof (Hb 0%nat ltac:(lia)) as H0. rewrite Nat.add_0_r in H0.
  pose proof (Hb 1%nat ltac:(lia)) as H1. pose proof (Hb 2%nat ltac:(lia)) as H2.
  pose proof (Hb 3%nat ltac:(lia)) as H3. pose proof (Hb 4%nat ltac:(lia)) as H4.
  split; [|split; [|split; [|split; [|split; [|split; [|split]]]]]].
  - change (rd (unpack5 a aa) 0) with (rd a aa).
    change 31 with (2 ^ 5 - 1). by rewrite js_and_ones by lia.
  - exact (unpack5_across (rd a aa) (rd a (aa + 1)) 5 ltac:(lia) H0 H1).
  - exact (unpack5_within (rd a (aa + 1)) 2 ltac:(lia) H1).
  - exact (unpack5_across (rd a (aa + 1)) (rd a (aa + 2)) 7 ltac:(lia) H1 H2).
  - exact (unpack5_across (rd a (aa + 2)) (rd a (aa + 3)) 4 ltac:(lia) H2 H3).
  - exact (unpack5_within (rd a (aa + 3)) 1 ltac:(lia) H3).
  - exact (unpack5_across (rd a (aa + 3)) (rd a (aa + 4)) 6 ltac:(lia) H3 H4).
  - rewrite <- (Z.mod_small (rd a (aa + 4) / 8) 32)
      by (Z.div_mod_to_equations; lia).
    exact (unpack5_within (rd a (aa + 4)) 3 ltac:(lia) H4).
Qed.

(** The five bytes of eight 5-bit values, in closed form. *)
Lemma pack5_bytes (t : nat → Z) :
  (∀ j, 0 ≤ t j < 32) →
  pack5 t 0 = (t 0%nat + 32 * t 1%nat) mod 256
  ∧ pack5 t 1 = (t 1%nat / 8 + 4 * t 2%nat + 128 * t 3%nat) mod 256
  ∧ pack5 t 2 = (t 3%nat / 2 + 16 * t 4%nat) mod 256
  ∧ pack5 t 3 = (t 4%nat / 16 + 2 * t 5%nat + 64 * t 6%nat) mod 256
  ∧ pack5 t 4 = t 6%nat / 4 + 8 * t 7%nat.
Proof.
  intros Ht. cbn [pack5].
  rewrite pack5_byte0, pack5_byte1, pack5_byte2, pack5_byte3, pack5_byte4 by done.
  done.
Qed.

Lemma unpack5_pack5 (c : array) aa (t : nat → Z) j :
  (∀ j, 0 ≤ t j < 32) →
  (∀ o, (o < 5)%nat → rd c (aa + o) = pack5 t o) →
  (j < 8)%nat → js_and (rd (unpack5 c aa) j) 31 = t j.
Proof.
  intros Ht Hc Hj.
  assert (∀ o, (o < 5)%nat → 0 ≤ rd c (aa + o) < 256) as Hb.
  { intros o Ho. rewrite Hc by done. by apply pack5_range. }
  destruct (unpack5_fields c aa Hb) as (F0 & F1 & F2 & F3 & F4 & F5 & F6 & F7).
  destruct (pack5_bytes t Ht) as (B0 & B1 & B2 & B3 & B4).
  pose proof (Hc 0%nat ltac:(lia)) as C0. rewrite Nat.add_0_r in C0.
  pose proof (Hc 1%nat ltac:(lia)) as C1. pose proof (Hc 2%nat ltac:(lia)) as C2.
  pose proof (Hc 3%nat ltac:(lia)) as C3. pose proof (Hc 4%nat ltac:(lia)) as C4.
  rewrite C0, ?C1, ?C2, ?C3, ?C4 in *.
  rewrite B0, ?B1, ?B2, ?B3, ?B4 in *.
  pose proof (Ht 0%nat). pose proof (Ht 1%nat). pose proof (Ht 2%nat).
  pose proof (Ht 3%nat). pose proof (Ht 4%nat). pose proof (Ht 5%nat).
  pose proof (Ht 6%nat). pose proof (Ht 7%nat).
  destruct j as [|[|[|[|[|[|[|[|j]]]]]]]]; [..|lia].
  - rewrite F0. clear -H. Z.div_mod_to_equations; lia.
  - rewrite F1. clear -H H0 H1 H2. Z.div_mod_to_equations; lia.
  - rewrite F2. clear -H0 H1 H2. Z.div_mod_to_equations; lia.
  - rewrite F3. clear -H0 H1 H2 H3. Z.div_mod_to_equations; lia.
  - rewrite F4. clear -H2 H3 H4 H5. Z.div_mod_to_equations; lia.
  - rewrite F5. clear -H3 H4 H5. Z.div_mod_to_equations; lia.
  - rewrite F6. clear -H3 H4 H5 H6. Z.div_mod_to_equations; lia.
  - rewrite F7. clear -H5 H6. Z.div_mod_to_equations; lia.
Qed.

Lemma pack5_unpack5 (a : array) aa o :
  (∀ o, (o < 5)%nat → 0 ≤ rd a (aa + o) < 256) →
  (o < 5)%nat →
  pack5 (λ j, js_and (rd (unpack5 a aa) j) 31) o = rd a (aa + o).
Proof.
  intros Hb Ho.
  destruct (unpack5_fields a aa Hb) as (F0 & F1 & F2 & F3 & F4 & F5 & F6 & F7).
  destruct (pack5_bytes (λ j, js_and (rd (unpack5 a aa) j) 31))
    as (B0 & B1 & B2 & B3 & B4); [intros j; apply mask5_range|].
  cbv beta in B0, B1, B2, B3, B4.
  pose proof (Hb 0%nat ltac:(lia)) as H0. rewrite Nat.add_0_r in H0.
  pose proof (Hb 1%nat ltac:(lia)) as H1. pose proof (Hb 2%nat ltac:(lia)) as H2.
  pose proof (Hb 3%nat ltac:(lia)) as H3. pose proof (Hb 4%nat ltac:(lia)) as H4.
  destruct o as [|[|[|[|[|o]]]]]; [..|lia].
  - rewrite B0, F0, F1, Nat.add_0_r. clear -H0 H1. Z.div_mod_to_equations; lia.
  - rewrite B1, F1, F2, F3. clear -H0 H1 H2. Z.div_mod_to_equations; lia.
  - rewrite B2, F3, F4. clear -H1 H2 H3. Z.div_mod_to_equations; lia.
  - rewrite B3, F4, F5, F6. clear -H2 H3 H4. Z.div_mod_to_equations; lia.
  - rewrite B4, F6, F7. clear -H3 H4. Z.div_mod_to_equations; lia.
Qed.

Lemma div_mod_block w h o : (o < w)%nat →
  ((w * h + o) / w = h ∧ (w * h + o) mod w = o)%nat.
Proof.
  intros Ho. split.
  - symmetry. apply Nat.div_unique with (r := o); lia.
  - symmetry. apply Nat.mod_unique with (q := h); lia.
Qed.

Lemma rd_decompressPoly_4 K (a : array) h o :
  (K = 2 ∨ K = 3)%nat → (h < 128)%nat → (o < 2)%nat →
  rd (Poly.decompressPoly K a) (2 * h + o)
  = match o with
    | 0%nat => decompress4 (js_and (byte (rd a h)) 15)
    | _ => decompress4 (js_shr (byte (rd a h)) 4)
    end.
Proof.
  intros HK Hh Ho. apply slot_Some_rd. rewrite slot_decompressPoly_4 by done.
  case_decide; [|lia].
  destruct (div_mod_block 2 h o Ho) as [-> ->]. done.
Qed.

Lemma rd_decompressPoly_5 K (a : array) h j :
  ¬ (K = 2 ∨ K = 3)%nat → (h < 32)%nat → (j < 8)%nat →
  rd (Poly.decompressPoly K a) (8 * h + j) = decompress5 (rd (unpack5 a (5 * h)) j).
Proof.
  intros HK Hh Hj. apply slot_Some_rd. rewrite slot_decompressPoly_5 by done.
  case_decide; [|lia].
  destruct (div_mod_block 8 h j Hj) as [-> ->]. done.
Qed.

Lemma rd_compressPoly_4 K (p : array) k : (K = 2 ∨ K = 3)%nat → (k < 128)%nat →
  rd (Poly.compressPoly K p) k
  = intToByte (js_or (compress_coeff 4 15 (rd p (2 * k)))
                     (js_shl (compress_coeff 4 15 (rd p (2 * k + 1))) 4)).
Proof.
  intros HK Hk. apply slot_Some_rd.
  by apply (proj2 (compressPoly_4_spec K p HK)).
Qed.

Lemma rd_compressPoly_5 K (p : array) h o :
  ¬ (K = 2 ∨ K = 3)%nat → (h < 32)%nat → (o < 5)%nat →
  rd (Poly.compressPoly K p) (5 * h + o)
  = pack5 (λ j, compress_coeff 5 31 (rd p (8 * h + j))) o.
Proof.
  intros HK Hh Ho. apply slot_Some_rd.
  rewrite (proj2 (compressPoly_5_spec K p HK)) by lia.
  destruct (div_mod_block 5 h o Ho) as [-> ->]. done.
Qed.

Lemma decompress5_mask y y' : js_and y 31 = js_and y' 31 → decompress5 y = decompress5 y'.
Proof. unfold decompress5. by intros ->. Qed.

Lemma mask5_small t : 0 ≤ t < 32 → js_and t 31 = t.
Proof.
  intros Ht. change 31 with (2 ^ 5 - 1). rewrite js_and_ones by lia.
  apply Z.mod_small. lia.
Qed.

Lemma rd_bytes (b : list Z) n j :
  length b = n → Forall (λ x, 0 ≤ x < 256) b → (j < n)%nat →
  0 ≤ rd (of_list b) j < 256.
Proof.
  intros Hlen Hb Hj. destruct (lookup_lt_is_Some_2 b j) as [x Hx]; [lia|].
  rewrite (rd_of_list _ _ _ Hx). by apply (Forall_lookup_1 _ _ _ _ Hb Hx).
Qed.

Lemma slot_bytes (b : list Z) j : (j < length b)%nat →
  of_list b !!! j = Some (rd (of_list b) j).
Proof.
  intros Hj. destruct (lookup_lt_is_Some_2 b j) as [x Hx]; [lia|].
  by rewrite (rd_of_list _ _ _ Hx), (slot_of_list _ _ _ Hx).
Qed.

(** X12.  Whatever the bytes it is given, and for every parameter set,
    [decompressPoly] returns an array of 384 slots whose first 256 hold
    coefficients in [[0, q)] and whose last 128 are never written. *)
Theorem decompressPoly_coefficients_below_q K (a : array) :
  length (Poly.decompressPoly K a) = 384%nat
  ∧ Forall (λ s, ∃ c, s = Some c ∧ 0 ≤ c < paramsQ) (take 256 (Poly.decompressPoly K a))
  ∧ drop 256 (Poly.decompressPoly K a) = new_array 128.
Proof.
  assert (length (Poly.decompressPoly K a) = 384%nat) as Hlen.
  { destruct (decide (K = 2 ∨ K = 3)%nat);
      [by apply length_decompressPoly_4|by apply length_decompressPoly_5]. }
  split; [done|]. split.
  - apply Forall_lookup. intros i s Hs.
    pose proof (lookup_lt_Some _ _ _ Hs) as Hi.
    rewrite length_take in Hi. rewrite lookup_take_lt in Hs by lia.
    apply list_lookup_total_correct in Hs.
    destruct (decide (K = 2 ∨ K = 3)%nat) as [HK|HK].
    + rewrite slot_decompressPoly_4 in Hs by done.
      case_decide; [|lia]. subst s. eexists. split; [done|].
      pose proof (decompress4_range _ (byte_range (rd a (i / 2)))) as [H0 H1].
      by destruct (i mod 2)%nat.
    + rewrite slot_decompressPoly_5 in Hs by done.
      case_decide; [|lia]. subst s. eexists. split; [done|].
      apply decompress5_range.
  - apply array_eq.
    + rewrite length_drop, Hlen. unfold new_array. by rewrite length_replicate.
    + intros i. rewrite length_drop, Hlen. intros Hi.
      rewrite slot_new_array, lookup_total_drop.
      destruct (decide (K = 2 ∨ K = 3)%nat) as [HK|HK].
      * rewrite slot_decompressPoly_4 by done. case_decide; [lia|done].
      * rewrite slot_decompressPoly_5 by done. case_decide; [lia|done].
Qed.

(** X13.  Whatever the polynomial it is given, [compressPoly] returns 128
    bytes for the parameter sets 2 and 3 and 160 bytes for the others, each
    in [[0, 255]]. *)
Theorem compressPoly_returns_bytes K (p : array) :
  length (Poly.compressPoly K p) = (if decide (K = 2 ∨ K = 3)%nat then 128 else 160)%nat
  ∧ Forall (λ s, ∃ b, s = Some b ∧ 0 ≤ b ≤ 255) (Poly.compressPoly K p).
Proof.
  destruct (decide (K = 2 ∨ K = 3)%nat) as [HK|HK].
  - destruct (compressPoly_4_spec K p HK) as [Hlen Hslots].
    split; [done|]. apply Forall_lookup. intros i s Hs.
    pose proof (lookup_lt_Some _ _ _ Hs) as Hi. rewrite Hlen in Hi.
    apply list_lookup_total_correct in Hs. rewrite Hslots in Hs by done.
    subst s. eexists. split; [done|].
    pose proof (unpack_pack4' _ _ (compress_coeff_4_range (rd p (2 * i)))
                  (compress_coeff_4_range (rd p (2 * i + 1)))) as (_ & _ & Hr).
    lia.
  - destruct (compressPoly_5_spec K p HK) as [Hlen Hslots].
    split; [done|]. apply Forall_lookup. intros i s Hs.
    pose proof (lookup_lt_Some _ _ _ Hs) as Hi. rewrite Hlen in Hi.
    apply list_lookup_total_correct in Hs. rewrite Hslots in Hs by done.
    subst s. eexists. split; [done|].
    pose proof (pack5_range (λ j, compress_coeff 5 31 (rd p (8 * (i / 5) + j)))
                  (i mod 5) (λ j, compress_coeff_5_range _)).
    lia.
Qed.

(** X14.  Compressing what [decompressPoly] returns gives the bytes back:
    for every array [b] of 128 bytes (parameter sets 2 and 3) or 160 bytes
    (the others), [compressPoly (decompressPoly b)] is [b]. *)
Theorem compressPoly_decompressPoly K (b : list Z) :
  length b = (if decide (K = 2 ∨ K = 3)%nat then 128 else 160)%nat →
  Forall (λ x, 0 ≤ x < 256) b →
  Poly.compressPoly K (Poly.decompressPoly K (of_list b)) = of_list b.
Proof.
  intros Hlen Hb. destruct (decide (K = 2 ∨ K = 3)%nat) as [HK|HK].
  - destruct (compressPoly_4_spec K (Poly.decompressPoly K (of_list b)) HK)
      as [Hlen' Hslots].
    apply array_eq; [by rewrite Hlen', length_of_list|].
    intros k. rewrite Hlen'. intros Hk.
    rewrite Hslots, slot_bytes by lia. f_equal.
    pose proof (rd_decompressPoly_4 K (of_list b) k 0 HK Hk ltac:(lia)) as C0.
    pose proof (rd_decompressPoly_4 K (of_list b) k 1 HK Hk ltac:(lia)) as C1.
    rewrite Nat.add_0_r in C0. cbv beta iota in C0, C1. rewrite C0, C1.
    apply compress_decompress4. by apply (rd_bytes b 128).
  - destruct (compressPoly_5_spec K (Poly.decompressPoly K (of_list b)) HK)
      as [Hlen' Hslots].
    apply array_eq; [by rewrite Hlen', length_of_list|].
    intros k. rewrite Hlen'. intros Hk.
    rewrite Hslots, slot_bytes by lia. f_equal.
    pose proof (Nat.div_mod_eq k 5) as Hdm.
    assert (k mod 5 < 5)%nat as Hm by (apply Nat.mod_upper_bound; lia).
    set (h := (k / 5)%nat) in *. set (o := (k mod 5)%nat) in *.
    assert (h < 32)%nat by lia.
    rewrite (pack5_ext _ (λ j, js_and (rd (unpack5 (of_list b) (5 * h)) j) 31)).
    + rewrite pack5_unpack5; [f_equal; lia| |done].
      intros o' Ho'. apply (rd_bytes b 160); [done..|lia].
    + intros j Hj. cbv beta.
      rewrite rd_decompressPoly_5 by done. apply compress_decompress5.
Qed.

(** X15.  Decompressing what [compressPoly] returns gives every coefficient
    back up to a rounding error: a coefficient in [[0, q)] comes back at a
    distance modulo q of at most 104 (parameter sets 2 and 3, 4 bits) or 52
    (the others, 5 bits). *)
Theorem decompressPoly_compressPoly_close K (p : array) i :
  (i < 256)%nat → 0 ≤ rd p i < paramsQ →
  distance_mod_q (rd (Poly.decompressPoly K (Poly.compressPoly K p)) i) (rd p i)
  ≤ (if decide (K = 2 ∨ K = 3)%nat then 104 else 52).
Proof.
  intros Hi Hc. destruct (decide (K = 2 ∨ K = 3)%nat) as [HK|HK].
  - pose proof (Nat.div_mod_eq i 2) as Hdm.
    assert (i mod 2 < 2)%nat as Hm by (apply Nat.mod_upper_bound; lia).
    set (h := (i / 2)%nat) in *. set (o := (i mod 2)%nat) in *.
    assert (h < 128)%nat by lia.
    replace i with (2 * h + o)%nat in * by lia. clear Hdm.
    rewrite rd_decompressPoly_4, rd_compressPoly_4 by done.
    pose proof (unpack_pack4' _ _ (compress_coeff_4_range (rd p (2 * h)))
                  (compress_coeff_4_range (rd p (2 * h + 1)))) as (U0 & U1 & _).
    destruct o as [|[|o]]; [| |lia].
    + rewrite U0. rewrite Nat.add_0_r in *. by apply compress4_error.
    + rewrite U1. by apply compress4_error.
  - pose proof (Nat.div_mod_eq i 8) as Hdm.
    assert (i mod 8 < 8)%nat as Hm by (apply Nat.mod_upper_bound; lia).
    set (h := (i / 8)%nat) in *. set (j := (i mod 8)%nat) in *.
    assert (h < 32)%nat by lia.
    replace i with (8 * h + j)%nat in * by lia. clear Hdm.
    rewrite rd_decompressPoly_5 by done.
    rewrite (decompress5_mask _ (compress_coeff 5 31 (rd p (8 * h + j)))).
    + by apply compress5_error.
    + rewrite (mask5_small (compress_coeff 5 31 _)) by apply compress_coeff_5_range.
      apply (unpack5_pack5 _ _ (λ j, compress_coeff 5 31 (rd p (8 * h + j))));
        [intros; apply compress_coeff_5_range| |done].
      intros o Ho. by apply rd_compressPoly_5.
Qed.

Lemma compressPoly_decompressPoly_witness :
  Poly.compressPoly 4 (Poly.decompressPoly 4 (of_list (replicate 160 173)))
  = of_list (replicate 160 173).
Proof.
  apply (compressPoly_decompressPoly 4 (replicate 160 173)).
  - reflexivity.
  - apply Forall_replicate. lia.
Defined.

Lemma decompressPoly_compressPoly_close_witness :
  distance_mod_q
    (rd (Poly.decompressPoly 2 (Poly.compressPoly 2 (of_list (replicate 256 1000)))) 3)
    (rd (of_list (replicate 256 1000)) 3)
  ≤ (if decide (2 = 2 ∨ 2 = 3)%nat then 104 else 52).
Proof.
  apply (decompressPoly_compressPoly_close 2 (of_list (replicate 256 1000)) 3).
  - lia.
  - vm_compute. split; [discriminate|reflexivity].
Defined.

(** ** [polyVectorFromBytes] *)

Lemma polyVectorFromBytes_eq K (a : array) :
  Poly.polyVectorFromBytes K a
  = (λ i, Poly.polyFromBytes (Poly.slice a (i * 384) ((i + 1) * 384))) <$> seq 0 K.
Proof.
  unfold Poly.polyVectorFromBytes.
  set (f := λ i : nat, Poly.polyFromBytes (Poly.slice a (i * 384) ((i + 1) * 384))).
  assert (∀ n, (n ≤ K)%nat →
    Poly.for_loop 0 n (λ i r, <[i := f i]> r) (replicate K ([] : array))
    = (f <$> seq 0 n) ++ replicate (K - n) []) as Hloop.
  { induction n as [|n IH]; intros Hn.
    - by rewrite Nat.sub_0_r.
    - rewrite for_loop_snoc, IH by lia. cbn [Nat.add].
      rewrite insert_app_r_alt by (rewrite length_fmap, length_seq; lia).
      rewrite length_fmap, length_seq, Nat.sub_diag.
      replace (K - n)%nat with (S (K - S n)) by lia. cbn [replicate].
      rewrite seq_S, fmap_app. cbn [Nat.add fmap list_fmap].
      by rewrite <- app_assoc. }
  pose proof (Hloop K ltac:(lia)) as HK.
  rewrite Nat.sub_diag, app_nil_r in HK. exact HK.
Qed.

Lemma slice_mjoin (bs : list array) n i :
  Forall (λ b, length b = n) bs → (i < length bs)%nat →
  Poly.slice (mjoin bs) (i * n) ((i + 1) * n) = bs !!! i.
Proof.
  unfold Poly.slice. replace ((i + 1) * n - i * n)%nat with n by lia.
  revert i. induction bs as [|b bs IH]; intros i Hlen Hi; [simpl in Hi; lia|].
  apply Forall_cons in Hlen as [Hb Hbs].
  change (mjoin (b :: bs)) with (b ++ mjoin bs).
  destruct i as [|i].
  - cbn [Nat.mul]. rewrite drop_0. by rewrite take_app_length' by done.
  - replace (S i * n)%nat with (length b + i * n)%nat by lia.
    rewrite drop_app_add'  by done. cbn [lookup_total list_lookup_total].
    apply IH; [done|]. simpl in Hi. lia.
Qed.

Lemma take_polyFromBytes_polyToBytes_list (p : list Z) :
  length p = 256%nat → Forall (λ c, 0 ≤ c < paramsQ) p →
  take 256 (Poly.polyFromBytes (Poly.polyToBytes (of_list p))) = of_list p.
Proof.
  intros Hlen Hp. apply array_eq.
  - rewrite length_take, length_polyFromBytes, length_of_list. lia.
  - intros i. rewrite length_take, length_polyFromBytes. intros Hi.
    assert (i < 256)%nat as Hi' by lia.
    assert (∀ j, (j < 256)%nat → 0 ≤ rd (of_list p) j < paramsQ) as Hrd.
    { intros j Hj. destruct (lookup_lt_is_Some_2 p j) as [c Hc]; [lia|].
      rewrite (rd_of_list _ _ _ Hc). by apply (Forall_lookup_1 _ _ _ _ Hp Hc). }
    destruct (lookup_lt_is_Some_2 p i) as [c Hc]; [lia|].
    rewrite (slot_of_list _ _ _ Hc).
    rewrite list_lookup_total_alt, lookup_take_lt, <- list_lookup_total_alt by done.
    pose proof (Nat.div_mod_eq i 2) as Hdm.
    assert (i mod 2 < 2)%nat by (apply Nat.mod_upper_bound; lia).
    rewrite Hdm at 1.
    rewrite slot_unpack_pack by (try apply Hrd; lia).
    by rewrite <- Hdm, (rd_of_list _ _ _ Hc).
Qed.

(** X16.  [polyVectorFromBytes] decodes the concatenation of the encodings
    of [K] polynomials to these polynomials: for polynomials of 256
    coefficients in [[0, q)], the 256 coefficients of polynomial [i] of
    [polyVectorFromBytes (polyToBytes p_0 ++ ... ++ polyToBytes p_(K-1))]
    are those of [p_i]. *)
Theorem polyVectorFromBytes_polyToBytes (ps : list (list Z)) :
  Forall (λ p, length p = 256%nat ∧ Forall (λ c, 0 ≤ c < paramsQ) p) ps →
  take 256 <$> Poly.polyVectorFromBytes (length ps)
                 (mjoin ((λ p, Poly.polyToBytes (of_list p)) <$> ps))
  = of_list <$> ps.
Proof.
  intros Hps. rewrite polyVectorFromBytes_eq.
  apply list_eq. intros i. rewrite !list_lookup_fmap.
  destruct (decide (i < length ps)%nat) as [Hi|Hi].
  - rewrite lookup_seq_lt by done. cbn [fmap option_fmap option_map Nat.add].
    rewrite (slice_mjoin _ 384).
    + destruct (lookup_lt_is_Some_2 ps i Hi) as [p Hp]. rewrite Hp.
      cbn [fmap option_fmap option_map]. f_equal.
      rewrite (list_lookup_total_correct _ i (Poly.polyToBytes (of_list p)))
        by (by rewrite list_lookup_fmap, Hp).
      destruct (Forall_lookup_1 _ _ _ _ Hps Hp) as [Hlen Hc].
      by apply take_polyFromBytes_polyToBytes_list.
    + apply Forall_fmap, Forall_forall. intros p _. apply length_polyToBytes.
    + by rewrite length_fmap.
  - rewrite lookup_seq_ge by lia. by rewrite lookup_ge_None_2 by lia.
Qed.

Lemma polyVectorFromBytes_polyToBytes_witness :
  take 256 <$> Poly.polyVectorFromBytes (length [replicate 256 5; replicate 256 3328])
                 (mjoin ((λ p, Poly.polyToBytes (of_list p))
                           <$> [replicate 256 5; replicate 256 3328]))
  = of_list <$> [replicate 256 5; replicate 256 3328].
Proof.
  apply (polyVectorFromBytes_polyToBytes [replicate 256 5; replicate 256 3328]).
  apply Forall_cons_2;
    [split; [reflexivity|apply Forall_replicate; unfold paramsQ; lia]|].
  apply Forall_cons_2;
    [split; [reflexivity|apply Forall_replicate; unfold paramsQ; lia]|].
  apply Forall_nil_2.
Defined.

(** X17.  [polyVectorFromBytes] does not fail on an input that is too
    short: with at most [n] blocks of 384 bytes in the input, every
    polynomial from [n] on is the zero polynomial, and the result always
    has [K] polynomials. *)
Theorem polyVectorFromBytes_missing_blocks_are_zero K (a : array) (n i : nat) :
  (length a ≤ 384 * n)%nat → (n ≤ i < K)%nat →
  length (Poly.polyVectorFromBytes K a) = K
  ∧ coefficients (Poly.polyVectorFromBytes K a !!! i) = replicate 256 0.
Proof.
  intros Hlen Hi. rewrite polyVectorFromBytes_eq.
  split; [by rewrite length_fmap, length_seq|].
  rewrite (list_lookup_total_correct _ i
    (Poly.polyFromBytes (Poly.slice a (i * 384) ((i + 1) * 384)))).
  - unfold Poly.slice. rewrite drop_ge by lia. rewrite take_nil. by vm_compute.
  - rewrite list_lookup_fmap, lookup_seq_lt by lia. done.
Qed.

Lemma polyVectorFromBytes_missing_blocks_are_zero_witness :
  length (Poly.polyVectorFromBytes 3 (of_list (replicate 500 255))) = 3%nat
  ∧ coefficients (Poly.polyVectorFromBytes 3 (of_list (replicate 500 255)) !!! 2%nat)
    = replicate 256 0.
Proof.
  apply (polyVectorFromBytes_missing_blocks_are_zero 3 (of_list (replicate 500 255)) 2 2).
  - vm_compute. lia.
  - lia.
Defined.

(** ** [polyAdd] and [subtract] *)

Lemma slot_polyAdd (a b : array) j :
  Poly.polyAdd a b !!! j = if decide (j < 256)%nat then Some (rd a j + rd b j) else None.
Proof.
  unfold Poly.polyAdd. cbv zeta.
  rewrite (for_loop_writes 0 (λ i, rd a i + rd b i)).
  change paramsN with 256%nat. rewrite Nat.sub_0_r.
  case_decide; case_decide; try lia; [done|apply slot_new_array].
Qed.

Lemma length_polyAdd (a b : array) :
  length (Poly.polyAdd a b) = (length a `max` 256)%nat.
Proof.
  unfold Poly.polyAdd. cbv zeta. change paramsN with 256%nat.
  assert (∀ n, length (Poly.for_loop 0 n (λ i c, wr c i (rd a i + rd b i))
                         (new_array (length a))) = (length a `max` n)%nat) as H.
  { induction n as [|n IH].
    - unfold new_array. rewrite for_loop_0, length_replicate. lia.
    - rewrite for_loop_snoc, length_wr, IH. cbn [Nat.add]. lia. }
  apply H.
Qed.




(** ** The KEM *)

(** X19.  The KEM round trip holds whenever the IND-CPA scheme decrypts
    the ciphertext to the message [encrypt] gave it (the digest of the
    random bytes): with keys from [generateKyberKeys], for the three
    parameter sets and key sizes, [decrypt] reads the IND-CPA secret key
    and the digest of the public key at the right offsets of the secret
    key, and returns the shared secret of [encrypt]. *)
Theorem decrypt_encrypt_when_indcpa_decrypts `{Kem.Collaborators}
    (K : nat) (seed z rnd : list Z) :
  (K = 2 ∨ K = 3 ∨ K = 4)%nat →
  length (Kem.indcpaKeyGen K seed).2 = (K * paramsPolyBytes)%nat →
  length (Kem.indcpaKeyGen K seed).1 = (K * paramsPolyBytes + paramsSymBytes)%nat →
  length (Kem.sha3_256 (Kem.indcpaKeyGen K seed).1) = paramsSymBytes →
  Kem.indcpaDecrypt K
    (Kem.encrypt K (Kem.generateKyberKeys K seed z).1 rnd).1
    (Kem.indcpaKeyGen K seed).2 = Kem.sha3_256 rnd →
  Kem.decrypt K (Kem.encrypt K (Kem.generateKyberKeys K seed z).1 rnd).1
                (Kem.generateKyberKeys K seed z).2
  = (Kem.encrypt K (Kem.generateKyberKeys K seed z).1 rnd).2.
Proof.
  intros HK Hsk Hpk Hh Hdec.
  pose proof (decrypt_encrypt_given_indcpa K seed z rnd) as Hrt.
  destruct (Kem.generateKyberKeys K seed z) as [pk sk] eqn:Hkeys.
  assert (pk = (Kem.indcpaKeyGen K seed).1) as Hpk'.
  { unfold Kem.generateKyberKeys in Hkeys.
    destruct (Kem.indcpaKeyGen K seed) as [pk0 sk0]. by inversion Hkeys. }
  cbn [fst snd] in *.
  destruct (Kem.encrypt K pk rnd) as [ct ss] eqn:Henc. cbn [fst snd] in *.
  cbv zeta in Hrt. apply Hrt; try done; by rewrite Hpk'.
Qed.

Lemma decrypt_encrypt_when_indcpa_decrypts_witness :
  @Kem.decrypt decrypting_stand_ins 3
    (@Kem.encrypt decrypting_stand_ins 3
       (@Kem.generateKyberKeys decrypting_stand_ins 3 [] (replicate 32 85)).1
       (replicate 32 9)).1
    (@Kem.generateKyberKeys decrypting_stand_ins 3 [] (replicate 32 85)).2
  = (@Kem.encrypt decrypting_stand_ins 3
       (@Kem.generateKyberKeys decrypting_stand_ins 3 [] (replicate 32 85)).1
       (replicate 32 9)).2.
Proof.
  apply (@decrypt_encrypt_when_indcpa_decrypts decrypting_stand_ins 3 []
           (replicate 32 85) (replicate 32 9)).
  - lia.
  - reflexivity.
  - reflexivity.
  - reflexivity.
  - reflexivity.
Defined.

(** ** Nested loops *)

Lemma for_loop_add {St : Type} m n (body : nat → St → St) s :
  Poly.for_loop 0 (m + n) body s
  = Poly.for_loop 0 n (λ j, body (m + j)%nat) (Poly.for_loop 0 m body s).
Proof.
  induction n as [|n IH].
  - by rewrite Nat.add_0_r.
  - replace (m + S n)%nat with (S (m + n)) by lia.
    by rewrite !for_loop_snoc, IH.
Qed.

(** Two nested loops are one loop on the pairs [(i, j)] in order. *)
Lemma for_loop_nested {St : Type} K G (body : nat → nat → St → St) s :
  (0 < G)%nat →
  Poly.for_loop 0 K (λ i st, Poly.for_loop 0 G (λ j st, body i j st) st) s
  = Poly.for_loop 0 (K * G) (λ n st, body (n / G)%nat (n mod G)%nat st) s.
Proof.
  intros HG. induction K as [|K IH]; [done|].
  rewrite for_loop_snoc, IH. cbn [Nat.add].
  replace (S K * G)%nat with (K * G + G)%nat by lia.
  rewrite for_loop_add. apply for_loop_ext. intros j st Hj.
  replace (K * G + j)%nat with (G * K + j)%nat by lia.
  by destruct (div_mod_block G K j ltac:(lia)) as [-> ->].
Qed.

(** A loop on [(rr, r, t)] that appends [w] values to [r] in every round. *)
Lemma for_loop_append3 (w : nat) (f : nat → nat → Z) n
    (body : nat → nat * array * array → nat * array * array) :
  (0 < w)%nat →
  (∀ i (r t : array), ∃ t', body i (length r, r, t)
     = ((length r + w)%nat, r ++ of_list (f i <$> seq 0 w), t')) →
  length (Poly.for_loop 0 n body (0%nat, [], [])).1.2 = (w * n)%nat
  ∧ ∀ k, (k < w * n)%nat →
         (Poly.for_loop 0 n body (0%nat, [], [])).1.2 !!! k
         = Some (f (k / w)%nat (k mod w)%nat).
Proof.
  intros Hw Hbody.
  enough (let st := Poly.for_loop 0 n body (0%nat, [], []) in
          st.1.1 = (w * n)%nat ∧ length st.1.2 = (w * n)%nat
          ∧ ∀ k, (k < w * n)%nat → st.1.2 !!! k = Some (f (k / w)%nat (k mod w)%nat))
    as (_ & Hlen & Hslots) by done.
  refine (for_loop_inv (λ i (st : nat * array * array),
      st.1.1 = (w * i)%nat ∧ length st.1.2 = (w * i)%nat
      ∧ ∀ k, (k < w * i)%nat → st.1.2 !!! k = Some (f (k / w)%nat (k mod w)%nat))
    0 n body (0%nat, [], []) _ _).
  - simpl. repeat split; [lia..|]. intros k Hk. lia.
  - intros i [[rr r] t] _ (Hrr & Hlen & Hslots). simpl in Hrr, Hlen, Hslots.
    subst rr. rewrite <- Hlen. destruct (Hbody i r t) as [t' ->]. simpl.
    rewrite length_app, length_of_list, length_fmap, length_seq.
    repeat split; [lia..|]. intros k Hk.
    destruct (decide (k < w * i)%nat) as [Hlt|Hge].
    + rewrite lookup_total_app_l by lia. by apply Hslots.
    + rewrite lookup_total_app_r by lia.
      assert (k / w = i)%nat as ->.
      { symmetry. apply Nat.div_unique with (r := (k - w * i)%nat); lia. }
      assert (k mod w = k - w * i)%nat as ->.
      { symmetry. apply Nat.mod_unique with (q := i); lia. }
      rewrite Hlen. apply list_lookup_total_correct.
      unfold of_list. rewrite !list_lookup_fmap, lookup_seq_lt by lia. done.
Qed.

(** ** Loops that fill the polynomials of a vector *)

(** The innermost loop: [w] values appended to polynomial [i]. *)
Lemma fill_round (i : nat) (r : list array) (l : list Z) (base : nat) (v : nat → Z) n :
  (i < length r)%nat → r !!! i = of_list l → length l = base →
  Poly.for_loop 0 n (λ k r, <[i := wr (r !!! i) (base + k) (v k)]> r) r
  = <[i := of_list (l ++ (v <$> seq 0 n))]> r.
Proof.
  intros Hi Hr Hl. induction n as [|n IH].
  - rewrite for_loop_0. cbn [seq fmap list_fmap]. rewrite app_nil_r, <- Hr.
    symmetry. apply list_insert_id. by apply list_lookup_lookup_total_lt.
  - rewrite for_loop_snoc, IH. cbn [Nat.add].
    rewrite list_lookup_total_insert_eq by done.
    rewrite list_insert_insert_eq. f_equal.
    rewrite wr_append
      by (rewrite length_of_list, length_app, length_fmap, length_seq; lia).
    rewrite seq_S, fmap_app. cbn [Nat.add fmap list_fmap].
    unfold of_list. by rewrite !fmap_app, app_assoc.
Qed.

(** The loop on the groups of polynomial [i]: the state is [(aa, r)], a
    group reads at [aa] and advances it by [step]. *)
Lemma fill_polynomial (i w step G : nat) (val : nat → nat → Z) aa0 (r0 : list array) :
  (0 < w)%nat → (i < length r0)%nat → r0 !!! i = [] →
  Poly.for_loop 0 G (λ j '(aa, r),
      ((aa + step)%nat,
       Poly.for_loop 0 w (λ k r, <[i := wr (r !!! i) (w * j + k) (val aa k)]> r) r))
    (aa0, r0)
  = ((aa0 + step * G)%nat,
     <[i := of_list ((λ m, val (aa0 + step * (m / w))%nat (m mod w)%nat)
                       <$> seq 0 (w * G))]> r0).
Proof.
  intros Hw Hi Hr0. induction G as [|G IH].
  - rewrite for_loop_0, !Nat.mul_0_r, Nat.add_0_r.
    f_equal. change (of_list _) with ([] : array).
    rewrite <- Hr0. symmetry. apply list_insert_id.
    by apply list_lookup_lookup_total_lt.
  - rewrite for_loop_snoc, IH. cbn [Nat.add]. f_equal; [lia|].
    set (g := λ m : nat, val (aa0 + step * (m / w))%nat (m mod w)%nat).
    rewrite (fill_round i _ (g <$> seq 0 (w * G)) (w * G)
               (val (aa0 + step * G)%nat) w).
    + rewrite list_insert_insert_eq. do 2 f_equal.
      replace (w * S G)%nat with (w * G + w)%nat by lia.
      rewrite seq_app, fmap_app. f_equal. cbn [Nat.add].
      replace (seq (w * G) w) with (Nat.add (w * G) <$> seq 0 w)
        by (rewrite fmap_add_seq; f_equal; lia).
      rewrite <- list_fmap_compose.
      apply list_fmap_ext. intros k x Hx.
      apply lookup_seq in Hx as [-> Hk]. cbn [Nat.add]. unfold compose, g.
      by destruct (div_mod_block w G k Hk) as [-> ->].
    + by rewrite length_insert.
    + by rewrite list_lookup_total_insert_eq by done.
    + by rewrite length_fmap, length_seq.
Qed.

(** The loop on the polynomials: [K] polynomials of [w * G] values, read
    from consecutive groups. *)
Lemma fill_vector (K w step G : nat) (val : nat → nat → Z) :
  (0 < w)%nat →
  Poly.for_loop 0 K (λ i st,
      Poly.for_loop 0 G (λ j '(aa, r),
        ((aa + step)%nat,
         Poly.for_loop 0 w (λ k r, <[i := wr (r !!! i) (w * j + k) (val aa k)]> r) r))
      st)
    (0%nat, replicate K ([] : array))
  = ((step * G * K)%nat,
     (λ i, of_list ((λ m, val (step * (G * i + m / w))%nat (m mod w)%nat)
                      <$> seq 0 (w * G))) <$> seq 0 K).
Proof.
  intros Hw.
  set (full := λ i : nat,
    of_list ((λ m, val (step * (G * i + m / w))%nat (m mod w)%nat) <$> seq 0 (w * G))).
  assert (∀ n, (n ≤ K)%nat →
    Poly.for_loop 0 n (λ i st,
      Poly.for_loop 0 G (λ j '(aa, r),
        ((aa + step)%nat,
         Poly.for_loop 0 w (λ k r, <[i := wr (r !!! i) (w * j + k) (val aa k)]> r) r))
      st)
    (0%nat, replicate K ([] : array))
    = ((step * G * n)%nat, (full <$> seq 0 n) ++ replicate (K - n) [])) as Hloop.
  { induction n as [|n IH]; intros Hn.
    - rewrite for_loop_0, Nat.mul_0_r, Nat.sub_0_r. done.
    - rewrite for_loop_snoc, IH by lia. cbn [Nat.add].
      rewrite fill_polynomial; [|done|..].
      + f_equal; [lia|].
        rewrite insert_app_r_alt by (rewrite length_fmap, length_seq; lia).
        rewrite length_fmap, length_seq, Nat.sub_diag.
        replace (K - n)%nat with (S (K - S n)) by lia. cbn [replicate].
        rewrite seq_S, fmap_app. cbn [Nat.add fmap list_fmap].
        rewrite <- app_assoc. f_equal. cbn [insert list_insert app].
        f_equal. unfold full. f_equal.
        apply list_fmap_ext. intros k x _. f_equal. lia.
      + rewrite length_app, length_fmap, length_seq, length_replicate. lia.
      + rewrite lookup_total_app_r by (rewrite length_fmap, length_seq; lia).
        rewrite length_fmap, length_seq, Nat.sub_diag.
        by replace (K - n)%nat with (S (K - S n)) by lia. }
  rewrite (Hloop K) by lia. by rewrite Nat.sub_diag, app_nil_r.
Qed.

(** A loop that rewrites element [i] of a list in round [i]. *)
Lemma for_loop_map {A : Type} `{Inhabited A} (g : A → A) K (v : list A) i :
  (K ≤ length v)%nat →
  Poly.for_loop 0 K (λ i r, <[i := g (r !!! i)]> r) v !!! i
  = if decide (i < K)%nat then g (v !!! i) else v !!! i.
Proof.
  intros HK.
  enough (length (Poly.for_loop 0 K (λ i r, <[i := g (r !!! i)]> r) v) = length v
          ∧ ∀ i, Poly.for_loop 0 K (λ i r, <[i := g (r !!! i)]> r) v !!! i
                 = if decide (i < K)%nat then g (v !!! i) else v !!! i)
    as [_ Hall] by apply Hall.
  clear i. induction K as [|K IH].
  - split; [done|]. intros i. case_decide; [lia|done].
  - destruct IH as [Hlen Hall]; [lia|]. rewrite for_loop_snoc. cbn [Nat.add].
    split; [by rewrite length_insert|]. intros i.
    destruct (decide (i = K)) as [->|Hne].
    + rewrite list_lookup_total_insert_eq by lia. rewrite Hall.
      case_decide; [lia|]. case_decide; [done|lia].
    + rewrite list_lookup_total_insert_ne by done. rewrite Hall.
      repeat case_decide; (done || lia).
Qed.

(** ** [decompressPolyVector] and [compressPolyVector], slot by slot *)

Lemma decompressPolyVector_10 K (a : array) : (K = 2 ∨ K = 3)%nat →
  Poly.decompressPolyVector K a
  = (λ i, of_list ((λ m, decompress10 (rd (unpack10 a (5 * (64 * i + m / 4))) (m mod 4)))
                     <$> seq 0 256)) <$> seq 0 K.
Proof.
  intros HK. unfold Poly.decompressPolyVector. rewrite decide_True by done.
  pose proof (fill_vector K 4 5 64 (λ aa k, decompress10 (rd (unpack10 a aa) k))
                ltac:(lia)) as Hfill.
  apply (f_equal snd) in Hfill. exact Hfill.
Qed.

Lemma decompressPolyVector_11 K (a : array) : ¬ (K = 2 ∨ K = 3)%nat →
  Poly.decompressPolyVector K a
  = (λ i, of_list ((λ m, decompress11 (rd (unpack11 a (11 * (32 * i + m / 8))) (m mod 8)))
                     <$> seq 0 256)) <$> seq 0 K.
Proof.
  intros HK. unfold Poly.decompressPolyVector. rewrite decide_False by done.
  pose proof (fill_vector K 8 11 32 (λ aa k, decompress11 (rd (unpack11 a aa) k))
                ltac:(lia)) as Hfill.
  apply (f_equal snd) in Hfill. exact Hfill.
Qed.

Lemma rd_written (v : nat → Z) n (t : array) k : (k < n)%nat →
  rd (Poly.for_loop 0 n (λ k t, wr t k (v k)) t) k = v k.
Proof.
  intros Hk. apply slot_Some_rd.
  rewrite (for_loop_writes 0 v). case_decide; [|lia]. by rewrite Nat.sub_0_r.
Qed.

Lemma rd_compress10_t (p t : array) j k : (k < 4)%nat →
  rd (Poly.for_loop 0 4 (λ k t,
        wr t k (js_and (div_round_q (js_shl (rd p (4 * j + k)) 10)) 1023)) t) k
  = compress10 (rd p (4 * j + k)).
Proof. apply (rd_written (λ k, compress10 (rd p (4 * j + k)))). Qed.

Lemma rd_compress11_t (p t : array) j k : (k < 8)%nat →
  rd (Poly.for_loop 0 8 (λ k t,
        wr t k (int32 (js_and
          (div_round_q (js_shl (int32 (rd p (8 * j + k))) 11)) 2047))) t) k
  = compress11 (rd p (8 * j + k)).
Proof. apply (rd_written (λ k, compress11 (rd p (8 * j + k)))). Qed.

Lemma compressPolyVector_10 K (v : list array) : (K = 2 ∨ K = 3)%nat →
  length (Poly.compressPolyVector K v) = (5 * (K * 64))%nat
  ∧ ∀ k, (k < 5 * (K * 64))%nat →
      Poly.compressPolyVector K v !!! k
      = Some (pack10 (λ j, compress10
                 (rd (Poly.polyVectorCSubQ K v !!! (k / 5 / 64)%nat)
                     (4 * (k / 5 mod 64) + j))) (k mod 5)).
Proof.
  intros HK. unfold Poly.compressPolyVector. rewrite decide_True by done.
  cbv zeta. set (a := Poly.polyVectorCSubQ K v).
  change (paramsN / 4)%nat with 64%nat.
  rewrite (for_loop_nested K 64 (λ i j '(rr, r, t),
    let t := Poly.for_loop 0 4 (λ k t,
      wr t k (js_and (div_round_q (js_shl (rd (a !!! i) (4 * j + k)) 10)) 1023)) t in
    let r := wr r rr (byte (rd t 0)) in
    let r := wr r (rr + 1)
      (byte (js_or (byte (js_shr (rd t 0) 8)) (byte (js_shl (rd t 1) 2)))) in
    let r := wr r (rr + 2)
      (byte (js_or (byte (js_shr (rd t 1) 6)) (byte (js_shl (rd t 2) 4)))) in
    let r := wr r (rr + 3)
      (byte (js_or (byte (js_shr (rd t 2) 4)) (byte (js_shl (rd t 3) 6)))) in
    let r := wr r (rr + 4) (byte (js_shr (rd t 3) 2)) in
    (rr + 5, r, t)%nat)) by lia.
  apply (for_loop_append3 5 (λ n o,
    pack10 (λ j, compress10 (rd (a !!! (n / 64)%nat) (4 * (n mod 64) + j))) o));
    [lia|].
  intros n r t. eexists. cbv zeta.
  rewrite (rd_compress10_t (a !!! (n / 64)%nat) t (n mod 64) 0),
    (rd_compress10_t (a !!! (n / 64)%nat) t (n mod 64) 1),
    (rd_compress10_t (a !!! (n / 64)%nat) t (n mod 64) 2),
    (rd_compress10_t (a !!! (n / 64)%nat) t (n mod 64) 3) by lia.
  rewrite (wr_append r) by done.
  rewrite (wr_append (r ++ _)) by (rewrite length_app; simpl; lia).
  rewrite (wr_append ((r ++ _) ++ _)) by (rewrite !length_app; simpl; lia).
  rewrite (wr_append (((r ++ _) ++ _) ++ _)) by (rewrite !length_app; simpl; lia).
  rewrite (wr_append ((((r ++ _) ++ _) ++ _) ++ _))
    by (rewrite !length_app; simpl; lia).
  rewrite <- !app_assoc. unfold of_list. cbn [seq fmap list_fmap app pack10].
  reflexivity.
Qed.

Lemma compressPolyVector_11 K (v : list array) : ¬ (K = 2 ∨ K = 3)%nat →
  length (Poly.compressPolyVector K v) = (11 * (K * 32))%nat
  ∧ ∀ k, (k < 11 * (K * 32))%nat →
      Poly.compressPolyVector K v !!! k
      = Some (pack11 (λ j, compress11
                 (rd (Poly.polyVectorCSubQ K v !!! (k / 11 / 32)%nat)
                     (8 * (k / 11 mod 32) + j))) (k mod 11)).
Proof.
  intros HK. unfold Poly.compressPolyVector. rewrite decide_False by done.
  cbv zeta. set (a := Poly.polyVectorCSubQ K v).
  change (paramsN / 8)%nat with 32%nat.
  rewrite (for_loop_nested K 32 (λ i j '(rr, r, t),
    let t := Poly.for_loop 0 8 (λ k t,
      wr t k (int32 (js_and
        (div_round_q (js_shl (int32 (rd (a !!! i) (8 * j + k))) 11)) 2047))) t in
    let r := wr r rr (byte (rd t 0)) in
    let r := wr r (rr + 1) (byte (js_or (js_shr (rd t 0) 8) (js_shl (rd t 1) 3))) in
    let r := wr r (rr + 2) (byte (js_or (js_shr (rd t 1) 5) (js_shl (rd t 2) 6))) in
    let r := wr r (rr + 3) (byte (js_shr (rd t 2) 2)) in
    let r := wr r (rr + 4) (byte (js_or (js_shr (rd t 2) 10) (js_shl (rd t 3) 1))) in
    let r := wr r (rr + 5) (byte (js_or (js_shr (rd t 3) 7) (js_shl (rd t 4) 4))) in
    let r := wr r (rr + 6) (byte (js_or (js_shr (rd t 4) 4) (js_shl (rd t 5) 7))) in
    let r := wr r (rr + 7) (byte (js_shr (rd t 5) 1)) in
    let r := wr r (rr + 8) (byte (js_or (js_shr (rd t 5) 9) (js_shl (rd t 6) 2))) in
    let r := wr r (rr + 9) (byte (js_or (js_shr (rd t 6) 6) (js_shl (rd t 7) 5))) in
    let r := wr r (rr + 10) (byte (js_shr (rd t 7) 3)) in
    (rr + 11, r, t)%nat)) by lia.
  apply (for_loop_append3 11 (λ n o,
    pack11 (λ j, compress11 (rd (a !!! (n / 32)%nat) (8 * (n mod 32) + j))) o));
    [lia|].
  intros n r t. eexists. cbv zeta.
  rewrite (rd_compress11_t (a !!! (n / 32)%nat) t (n mod 32) 0),
    (rd_compress11_t (a !!! (n / 32)%nat) t (n mod 32) 1),
    (rd_compress11_t (a !!! (n / 32)%nat) t (n mod 32) 2),
    (rd_compress11_t (a !!! (n / 32)%nat) t (n mod 32) 3),
    (rd_compress11_t (a !!! (n / 32)%nat) t (n mod 32) 4),
    (rd_compress11_t (a !!! (n / 32)%nat) t (n mod 32) 5),
    (rd_compress11_t (a !!! (n / 32)%nat) t (n mod 32) 6),
    (rd_compress11_t (a !!! (n / 32)%nat) t (n mod 32) 7) by lia.
  rewrite (wr_append r) by done.
  rewrite (wr_append (r ++ _)) by (rewrite length_app; simpl; lia).
  do 9 (match goal with
        | |- context [wr ?l _ _] =>
            rewrite (wr_append l) by (rewrite !length_app; simpl; lia)
        end).
  rewrite <- !app_assoc. unfold of_list. cbn [seq fmap list_fmap app pack11].
  reflexivity.
Qed.

(** ** Bytes and fields of 10 and 11 bits *)

Ltac pow_consts :=
  change (2 ^ 1) with 2 in *; change (2 ^ 2) with 4 in *;
  change (2 ^ 3) with 8 in *; change (2 ^ 4) with 16 in *;
  change (2 ^ 5) with 32 in *; change (2 ^ 6) with 64 in *;
  change (2 ^ 7) with 128 in *; change (2 ^ 8) with 256 in *;
  change (2 ^ 9) with 512 in *; change (2 ^ 10) with 1024 in *;
  change (2 ^ 11) with 2048 in *.

Lemma pow2_bounds s : 0 ≤ s ≤ 11 → 1 ≤ 2 ^ s ≤ 2048.
Proof.
  intros Hs. split.
  - pose proof (Z.pow_pos_nonneg 2 s ltac:(lia) ltac:(lia)). lia.
  - change 2048 with (2 ^ 11). apply Z.pow_le_mono_r; lia.
Qed.

Lemma div_pow2_bounds x s : 0 ≤ x → 0 ≤ s ≤ 11 → 0 ≤ x / 2 ^ s ≤ x.
Proof.
  intros Hx Hs. pose proof (pow2_bounds s Hs).
  split; [apply Z.div_pos; lia|]. apply Z.div_le_upper_bound; nia.
Qed.

(** [(lo >> s) | (hi << k)] when the two parts do not overlap. *)
Lemma js_or_shr_shl lo hi s k :
  0 ≤ s ≤ 11 → 0 ≤ k ≤ 11 → 0 ≤ lo < 65536 → 0 ≤ hi < 65536 →
  lo / 2 ^ s < 2 ^ k →
  js_or (js_shr lo s) (js_shl hi k) = lo / 2 ^ s + hi * 2 ^ k.
Proof.
  intros Hs Hk Hlo Hhi Hfit.
  pose proof (pow2_bounds k Hk). pose proof (div_pow2_bounds lo s ltac:(lia) Hs).
  rewrite (js_shr_byte lo s) by lia.
  apply js_or_shl; [lia|lia|lia|nia].
Qed.

Lemma js_or_shr_shl_shl lo mid hi s k1 k2 :
  0 ≤ s ≤ 11 → 0 ≤ k1 ≤ 11 → 0 ≤ k2 ≤ 11 →
  0 ≤ lo < 65536 → 0 ≤ mid < 65536 → 0 ≤ hi < 65536 →
  lo / 2 ^ s < 2 ^ k1 → lo / 2 ^ s + mid * 2 ^ k1 < 2 ^ k2 →
  js_or (js_or (js_shr lo s) (js_shl mid k1)) (js_shl hi k2)
  = lo / 2 ^ s + mid * 2 ^ k1 + hi * 2 ^ k2.
Proof.
  intros Hs Hk1 Hk2 Hlo Hmid Hhi Hfit1 Hfit2.
  rewrite js_or_shr_shl by done.
  pose proof (pow2_bounds k1 Hk1). pose proof (pow2_bounds k2 Hk2).
  pose proof (div_pow2_bounds lo s ltac:(lia) Hs).
  apply js_or_shl; [lia|nia|lia|nia].
Qed.

Lemma js_and_mask v m : 0 ≤ m ≤ 11 → 0 ≤ v < 2147483648 →
  js_and v (2 ^ m - 1) = v mod 2 ^ m.
Proof. intros Hm Hv. apply js_and_ones; lia. Qed.

(** A field of [m] bits that lies across two or three bytes. *)
Lemma field_of_two lo hi s k m :
  0 ≤ s ≤ 7 → 0 ≤ k ≤ 8 → 0 ≤ m ≤ 11 → 0 ≤ lo < 256 → 0 ≤ hi < 256 →
  lo / 2 ^ s < 2 ^ k →
  js_and (js_or (js_shr (uint16 lo) s) (js_shl (uint16 hi) k)) (2 ^ m - 1)
  = (lo / 2 ^ s + hi * 2 ^ k) mod 2 ^ m.
Proof.
  intros Hs Hk Hm Hlo Hhi Hfit. rewrite !uint16_small by lia.
  rewrite js_or_shr_shl by (done || lia).
  pose proof (pow2_bounds k ltac:(lia)).
  pose proof (div_pow2_bounds lo s ltac:(lia) ltac:(lia)).
  apply js_and_mask; [done|nia].
Qed.

Lemma field_of_first lo hi m :
  0 ≤ m ≤ 11 → 0 ≤ lo < 256 → 0 ≤ hi < 256 →
  js_and (js_or (uint16 lo) (js_shl (uint16 hi) 8)) (2 ^ m - 1)
  = (lo + hi * 2 ^ 8) mod 2 ^ m.
Proof.
  intros Hm Hlo Hhi. rewrite !uint16_small by lia.
  rewrite (js_or_shl lo hi 8) by lia.
  apply js_and_mask; [done|lia].
Qed.

Lemma field_of_three lo mid hi s k1 k2 m :
  0 ≤ s ≤ 7 → 0 ≤ k1 ≤ 8 → 0 ≤ k2 ≤ 11 → 0 ≤ m ≤ 11 →
  0 ≤ lo < 256 → 0 ≤ mid < 256 → 0 ≤ hi < 256 →
  lo / 2 ^ s < 2 ^ k1 → lo / 2 ^ s + mid * 2 ^ k1 < 2 ^ k2 →
  js_and (js_or (js_or (js_shr (uint16 lo) s) (js_shl (uint16 mid) k1))
                (js_shl (uint16 hi) k2)) (2 ^ m - 1)
  = (lo / 2 ^ s + mid * 2 ^ k1 + hi * 2 ^ k2) mod 2 ^ m.
Proof.
  intros Hs Hk1 Hk2 Hm Hlo Hmid Hhi Hfit1 Hfit2. rewrite !uint16_small by lia.
  rewrite js_or_shr_shl_shl by (done || lia).
  pose proof (pow2_bounds k1 ltac:(lia)). pose proof (pow2_bounds k2 ltac:(lia)).
  pose proof (div_pow2_bounds lo s ltac:(lia) ltac:(lia)).
  apply js_and_mask; [done|nia].
Qed.

(** A byte made of the high bits of [lo] and the low bits of [hi]. *)
Lemma byte_of_two lo hi s k :
  0 ≤ s ≤ 11 → 0 ≤ k ≤ 7 → 0 ≤ lo < 2048 → 0 ≤ hi < 2048 →
  lo / 2 ^ s < 2 ^ k →
  byte (js_or (js_shr lo s) (js_shl hi k)) = (lo / 2 ^ s + hi * 2 ^ k) mod 256.
Proof.
  intros Hs Hk Hlo Hhi Hfit.
  rewrite js_or_shr_shl by (done || lia). apply byte_eq.
Qed.

Lemma byte_of_two_bytes lo hi s k :
  0 ≤ s ≤ 11 → 1 ≤ k ≤ 7 → 0 ≤ lo < 2048 → 0 ≤ hi < 2048 →
  lo / 2 ^ s < 2 ^ k →
  byte (js_or (byte (js_shr lo s)) (byte (js_shl hi k)))
  = lo / 2 ^ s + (hi mod 2 ^ (8 - k)) * 2 ^ k.
Proof.
  intros Hs Hk Hlo Hhi Hfit.
  pose proof (pow2_bounds k ltac:(lia)) as Hpk.
  pose proof (pow2_bounds (8 - k) ltac:(lia)) as Hpk'.
  pose proof (div_pow2_bounds lo s ltac:(lia) Hs) as Hd.
  assert (2 ^ (8 - k) * 2 ^ k = 256) as Hprod.
  { rewrite <- Z.pow_add_r by lia. by replace (8 - k + k) with 8 by lia. }
  assert (2 ^ k ≤ 128).
  { change 128 with (2 ^ 7). apply Z.pow_le_mono_r; lia. }
  rewrite (js_shr_byte lo s) by lia.
  rewrite (js_shl_small hi k) by (try nia; lia).
  rewrite !byte_eq. rewrite (Z.mod_small (lo / 2 ^ s)) by lia.
  rewrite <- Hprod at 1. rewrite Z.mul_mod_distr_r by lia.
  pose proof (Z.mod_pos_bound hi (2 ^ (8 - k)) ltac:(lia)).
  rewrite js_or_small by nia.
  rewrite lor_disjoint by lia.
  apply Z.mod_small. nia.
Qed.

Lemma byte_of_one t s : 0 ≤ s ≤ 11 → 0 ≤ t < 2048 →
  byte (js_shr t s) = (t / 2 ^ s) mod 256.
Proof. intros Hs Ht. rewrite (js_shr_byte t s) by lia. apply byte_eq. Qed.

(** *** 10 bits *)

Lemma unpack10_fields (a : array) aa :
  (∀ o, (o < 5)%nat → 0 ≤ rd a (aa + o) < 256) →
  js_and (rd (unpack10 a aa) 0) 1023 = (rd a aa + rd a (aa + 1) * 256) mod 1024
  ∧ js_and (rd (unpack10 a aa) 1) 1023
    = (rd a (aa + 1) / 4 + rd a (aa + 2) * 64) mod 1024
  ∧ js_and (rd (unpack10 a aa) 2) 1023
    = (rd a (aa + 2) / 16 + rd a (aa + 3) * 16) mod 1024
  ∧ js_and (rd (unpack10 a aa) 3) 1023
    = (rd a (aa + 3) / 64 + rd a (aa + 4) * 4) mod 1024.
Proof.
  intros Hb.
  pose proof (Hb 0%nat ltac:(lia)) as H0. rewrite Nat.add_0_r in H0.
  pose proof (Hb 1%nat ltac:(lia)) as H1. pose proof (Hb 2%nat ltac:(lia)) as H2.
  pose proof (Hb 3%nat ltac:(lia)) as H3. pose proof (Hb 4%nat ltac:(lia)) as H4.
  split; [|split; [|split]].
  - exact (field_of_first (rd a aa) (rd a (aa + 1)) 10 ltac:(lia) H0 H1).
  - refine (field_of_two (rd a (aa + 1)) (rd a (aa + 2)) 2 6 10
              ltac:(lia) ltac:(lia) ltac:(lia) H1 H2 _).
    pow_consts. Z.div_mod_to_equations; lia.
  - refine (field_of_two (rd a (aa + 2)) (rd a (aa + 3)) 4 4 10
              ltac:(lia) ltac:(lia) ltac:(lia) H2 H3 _).
    pow_consts. Z.div_mod_to_equations; lia.
  - refine (field_of_two (rd a (aa + 3)) (rd a (aa + 4)) 6 2 10
              ltac:(lia) ltac:(lia) ltac:(lia) H3 H4 _).
    pow_consts. Z.div_mod_to_equations; lia.
Qed.

Lemma pack10_bytes (t : nat → Z) :
  (∀ j, 0 ≤ t j < 1024) →
  pack10 t 0 = t 0%nat mod 256
  ∧ pack10 t 1 = t 0%nat / 256 + (t 1%nat mod 64) * 4
  ∧ pack10 t 2 = t 1%nat / 64 + (t 2%nat mod 16) * 16
  ∧ pack10 t 3 = t 2%nat / 16 + (t 3%nat mod 4) * 64
  ∧ pack10 t 4 = t 3%nat / 4.
Proof.
  intros Ht.
  pose proof (Ht 0%nat) as H0. pose proof (Ht 1%nat) as H1.
  pose proof (Ht 2%nat) as H2. pose proof (Ht 3%nat) as H3.
  cbn [pack10]. split; [|split; [|split; [|split]]].
  - apply byte_eq.
  - refine (byte_of_two_bytes (t 0%nat) (t 1%nat) 8 2 ltac:(lia) ltac:(lia)
              ltac:(lia) ltac:(lia) _).
    pow_consts. Z.div_mod_to_equations; lia.
  - refine (byte_of_two_bytes (t 1%nat) (t 2%nat) 6 4 ltac:(lia) ltac:(lia)
              ltac:(lia) ltac:(lia) _).
    pow_consts. Z.div_mod_to_equations; lia.
  - refine (byte_of_two_bytes (t 2%nat) (t 3%nat) 4 6 ltac:(lia) ltac:(lia)
              ltac:(lia) ltac:(lia) _).
    pow_consts. Z.div_mod_to_equations; lia.
  - rewrite byte_of_one by lia. pow_consts.
    apply Z.mod_small. Z.div_mod_to_equations; lia.
Qed.

Lemma pack10_range (t : nat → Z) o : (∀ j, 0 ≤ t j < 1024) → 0 ≤ pack10 t o < 256.
Proof.
  intros Ht. destruct (pack10_bytes t Ht) as (B0 & B1 & B2 & B3 & B4).
  pose proof (Ht 0%nat) as H0. pose proof (Ht 1%nat) as H1.
  pose proof (Ht 2%nat) as H2. pose proof (Ht 3%nat) as H3.
  destruct o as [|[|[|[|o]]]].
  - rewrite B0. Z.div_mod_to_equations; lia.
  - rewrite B1. Z.div_mod_to_equations; lia.
  - rewrite B2. Z.div_mod_to_equations; lia.
  - rewrite B3. Z.div_mod_to_equations; lia.
  - change (pack10 t (S (S (S (S o))))) with (pack10 t 4). rewrite B4.
    Z.div_mod_to_equations; lia.
Qed.

Lemma pack10_ext (t t' : nat → Z) o :
  (∀ j, (j < 4)%nat → t j = t' j) → pack10 t o = pack10 t' o.
Proof.
  intros Ht.
  pose proof (Ht 0%nat ltac:(lia)) as E0. pose proof (Ht 1%nat ltac:(lia)) as E1.
  pose proof (Ht 2%nat ltac:(lia)) as E2. pose proof (Ht 3%nat ltac:(lia)) as E3.
  destruct o as [|[|[|[|o]]]]; cbn [pack10]; congruence.
Qed.

Lemma unpack10_pack10 (c : array) aa (t : nat → Z) j :
  (∀ j, 0 ≤ t j < 1024) →
  (∀ o, (o < 5)%nat → rd c (aa + o) = pack10 t o) →
  (j < 4)%nat → js_and (rd (unpack10 c aa) j) 1023 = t j.
Proof.
  intros Ht Hc Hj.
  assert (∀ o, (o < 5)%nat → 0 ≤ rd c (aa + o) < 256) as Hb.
  { intros o Ho. rewrite Hc by done. by apply pack10_range. }
  destruct (unpack10_fields c aa Hb) as (F0 & F1 & F2 & F3).
  destruct (pack10_bytes t Ht) as (B0 & B1 & B2 & B3 & B4).
  pose proof (Hc 0%nat ltac:(lia)) as C0. rewrite Nat.add_0_r in C0.
  pose proof (Hc 1%nat ltac:(lia)) as C1. pose proof (Hc 2%nat ltac:(lia)) as C2.
  pose proof (Hc 3%nat ltac:(lia)) as C3. pose proof (Hc 4%nat ltac:(lia)) as C4.
  rewrite C0, ?C1, ?C2, ?C3, ?C4 in *.
  rewrite B0, ?B1, ?B2, ?B3, ?B4 in *.
  pose proof (Ht 0%nat) as H0. pose proof (Ht 1%nat) as H1.
  pose proof (Ht 2%nat) as H2. pose proof (Ht 3%nat) as H3.
  destruct j as [|[|[|[|j]]]]; [..|lia].
  - rewrite F0. clear -H0 H1. Z.div_mod_to_equations; lia.
  - rewrite F1. clear -H0 H1 H2. Z.div_mod_to_equations; lia.
  - rewrite F2. clear -H1 H2 H3. Z.div_mod_to_equations; lia.
  - rewrite F3. clear -H2 H3. Z.div_mod_to_equations; lia.
Qed.

Lemma pack10_unpack10 (a : array) aa o :
  (∀ o, (o < 5)%nat → 0 ≤ rd a (aa + o) < 256) →
  (o < 5)%nat →
  pack10 (λ j, js_and (rd (unpack10 a aa) j) 1023) o = rd a (aa + o).
Proof.
  intros Hb Ho.
  destruct (unpack10_fields a aa Hb) as (F0 & F1 & F2 & F3).
  destruct (pack10_bytes (λ j, js_and (rd (unpack10 a aa) j) 1023))
    as (B0 & B1 & B2 & B3 & B4).
  { intros j. apply (js_and_mask_range _ 10). lia. }
  cbv beta in B0, B1, B2, B3, B4.
  pose proof (Hb 0%nat ltac:(lia)) as H0. rewrite Nat.add_0_r in H0.
  pose proof (Hb 1%nat ltac:(lia)) as H1. pose proof (Hb 2%nat ltac:(lia)) as H2.
  pose proof (Hb 3%nat ltac:(lia)) as H3. pose proof (Hb 4%nat ltac:(lia)) as H4.
  destruct o as [|[|[|[|[|o]]]]]; [..|lia].
  - rewrite B0, F0, Nat.add_0_r. clear -H0 H1. Z.div_mod_to_equations; lia.
  - rewrite B1, F0, F1. clear -H0 H1 H2. Z.div_mod_to_equations; lia.
  - rewrite B2, F1, F2. clear -H1 H2 H3. Z.div_mod_to_equations; lia.
  - rewrite B3, F2, F3. clear -H2 H3 H4. Z.div_mod_to_equations; lia.
  - rewrite B4, F3. clear -H3 H4. Z.div_mod_to_equations; lia.
Qed.

(** *** 11 bits *)

Lemma unpack11_fields (a : array) aa :
  (∀ o, (o < 11)%nat → 0 ≤ rd a (aa + o) < 256) →
  js_and (rd (unpack11 a aa) 0) 2047 = (rd a aa + rd a (aa + 1) * 256) mod 2048
  ∧ js_and (rd (unpack11 a aa) 1) 2047
    = (rd a (aa + 1) / 8 + rd a (aa + 2) * 32) mod 2048
  ∧ js_and (rd (unpack11 a aa) 2) 2047
    = (rd a (aa + 2) / 64 + rd a (aa + 3) * 4 + rd a (aa + 4) * 1024) mod 2048
  ∧ js_and (rd (unpack11 a aa) 3) 2047
    = (rd a (aa + 4) / 2 + rd a (aa + 5) * 128) mod 2048
  ∧ js_and (rd (unpack11 a aa) 4) 2047
    = (rd a (aa + 5) / 16 + rd a (aa + 6) * 16) mod 2048
  ∧ js_and (rd (unpack11 a aa) 5) 2047
    = (rd a (aa + 6) / 128 + rd a (aa + 7) * 2 + rd a (aa + 8) * 512) mod 2048
  ∧ js_and (rd (unpack11 a aa) 6) 2047
    = (rd a (aa + 8) / 4 + rd a (aa + 9) * 64) mod 2048
  ∧ js_and (rd (unpack11 a aa) 7) 2047
    = (rd a (aa + 9) / 32 + rd a (aa + 10) * 8) mod 2048.
Proof.
  intros Hb.
  pose proof (Hb 0%nat ltac:(lia)) as H0. rewrite Nat.add_0_r in H0.
  pose proof (Hb 1%nat ltac:(lia)) as H1. pose proof (Hb 2%nat ltac:(lia)) as H2.
  pose proof (Hb 3%nat ltac:(lia)) as H3. pose proof (Hb 4%nat ltac:(lia)) as H4.
  pose proof (Hb 5%nat ltac:(lia)) as H5. pose proof (Hb 6%nat ltac:(lia)) as H6.
  pose proof (Hb 7%nat ltac:(lia)) as H7. pose proof (Hb 8%nat ltac:(lia)) as H8.
  pose proof (Hb 9%nat ltac:(lia)) as H9. pose proof (Hb 10%nat ltac:(lia)) as H10.
  split; [|split; [|split; [|split; [|split; [|split; [|split]]]]]].
  - exact (field_of_first (rd a aa) (rd a (aa + 1)) 11 ltac:(lia) H0 H1).
  - refine (field_of_two (rd a (aa + 1)) (rd a (aa + 2)) 3 5 11
              ltac:(lia) ltac:(lia) ltac:(lia) H1 H2 _).
    pow_consts. Z.div_mod_to_equations; lia.
  - refine (field_of_three (rd a (aa + 2)) (rd a (aa + 3)) (rd a (aa + 4)) 6 2 10 11
              ltac:(lia) ltac:(lia) ltac:(lia) ltac:(lia) H2 H3 H4 _ _);
      pow_consts; Z.div_mod_to_equations; lia.
  - refine (field_of_two (rd a (aa + 4)) (rd a (aa + 5)) 1 7 11
              ltac:(lia) ltac:(lia) ltac:(lia) H4 H5 _).
    pow_consts. Z.div_mod_to_equations; lia.
  - refine (field_of_two (rd a (aa + 5)) (rd a (aa + 6)) 4 4 11
              ltac:(lia) ltac:(lia) ltac:(lia) H5 H6 _).
    pow_consts. Z.div_mod_to_equations; lia.
  - refine (field_of_three (rd a (aa + 6)) (rd a (aa + 7)) (rd a (aa + 8)) 7 1 9 11
              ltac:(lia) ltac:(lia) ltac:(lia) ltac:(lia) H6 H7 H8 _ _);
      pow_consts; Z.div_mod_to_equations; lia.
  - refine (field_of_two (rd a (aa + 8)) (rd a (aa + 9)) 2 6 11
              ltac:(lia) ltac:(lia) ltac:(lia) H8 H9 _).
    pow_consts. Z.div_mod_to_equations; lia.
  - refine (field_of_two (rd a (aa + 9)) (rd a (aa + 10)) 5 3 11
              ltac:(lia) ltac:(lia) ltac:(lia) H9 H10 _).
    pow_consts. Z.div_mod_to_equations; lia.
Qed.

Lemma pack11_bytes (t : nat → Z) :
  (∀ j, 0 ≤ t j < 2048) →
  pack11 t 0 = t 0%nat mod 256
  ∧ pack11 t 1 = (t 0%nat / 256 + t 1%nat * 8) mod 256
  ∧ pack11 t 2 = (t 1%nat / 32 + t 2%nat * 64) mod 256
  ∧ pack11 t 3 = (t 2%nat / 4) mod 256
  ∧ pack11 t 4 = (t 2%nat / 1024 + t 3%nat * 2) mod 256
  ∧ pack11 t 5 = (t 3%nat / 128 + t 4%nat * 16) mod 256
  ∧ pack11 t 6 = (t 4%nat / 16 + t 5%nat * 128) mod 256
  ∧ pack11 t 7 = (t 5%nat / 2) mod 256
  ∧ pack11 t 8 = (t 5%nat / 512 + t 6%nat * 4) mod 256
  ∧ pack11 t 9 = (t 6%nat / 64 + t 7%nat * 32) mod 256
  ∧ pack11 t 10 = (t 7%nat / 8) mod 256.
Proof.
  intros Ht.
  pose proof (Ht 0%nat) as H0. pose proof (Ht 1%nat) as H1.
  pose proof (Ht 2%nat) as H2. pose proof (Ht 3%nat) as H3.
  pose proof (Ht 4%nat) as H4. pose proof (Ht 5%nat) as H5.
  pose proof (Ht 6%nat) as H6. pose proof (Ht 7%nat) as H7.
  cbn [pack11].
  split; [|split; [|split; [|split; [|split; [|split; [|split; [|split;
    [|split; [|split]]]]]]]]].
  - apply byte_eq.
  - refine (byte_of_two (t 0%nat) (t 1%nat) 8 3 ltac:(lia) ltac:(lia) H0 H1 _).
    pow_consts. Z.div_mod_to_equations; lia.
  - refine (byte_of_two (t 1%nat) (t 2%nat) 5 6 ltac:(lia) ltac:(lia) H1 H2 _).
    pow_consts. Z.div_mod_to_equations; lia.
  - exact (byte_of_one (t 2%nat) 2 ltac:(lia) H2).
  - refine (byte_of_two (t 2%nat) (t 3%nat) 10 1 ltac:(lia) ltac:(lia) H2 H3 _).
    pow_consts. Z.div_mod_to_equations; lia.
  - refine (byte_of_two (t 3%nat) (t 4%nat) 7 4 ltac:(lia) ltac:(lia) H3 H4 _).
    pow_consts. Z.div_mod_to_equations; lia.
  - refine (byte_of_two (t 4%nat) (t 5%nat) 4 7 ltac:(lia) ltac:(lia) H4 H5 _).
    pow_consts. Z.div_mod_to_equations; lia.
  - exact (byte_of_one (t 5%nat) 1 ltac:(lia) H5).
  - refine (byte_of_two (t 5%nat) (t 6%nat) 9 2 ltac:(lia) ltac:(lia) H5 H6 _).
    pow_consts. Z.div_mod_to_equations; lia.
  - refine (byte_of_two (t 6%nat) (t 7%nat) 6 5 ltac:(lia) ltac:(lia) H6 H7 _).
    pow_consts. Z.div_mod_to_equations; lia.
  - exact (byte_of_one (t 7%nat) 3 ltac:(lia) H7).
Qed.

Lemma pack11_range (t : nat → Z) o : 0 ≤ pack11 t o < 256.
Proof.
  destruct o as [|[|[|[|[|[|[|[|[|[|o]]]]]]]]]]; cbn [pack11]; apply byte_range.
Qed.

Lemma pack10_byte_range (t : nat → Z) o : 0 ≤ pack10 t o < 256.
Proof. destruct o as [|[|[|[|o]]]]; cbn [pack10]; apply byte_range. Qed.

Lemma pack11_ext (t t' : nat → Z) o :
  (∀ j, (j < 8)%nat → t j = t' j) → pack11 t o = pack11 t' o.
Proof.
  intros Ht.
  pose proof (Ht 0%nat ltac:(lia)) as E0. pose proof (Ht 1%nat ltac:(lia)) as E1.
  pose proof (Ht 2%nat ltac:(lia)) as E2. pose proof (Ht 3%nat ltac:(lia)) as E3.
  pose proof (Ht 4%nat ltac:(lia)) as E4. pose proof (Ht 5%nat ltac:(lia)) as E5.
  pose proof (Ht 6%nat ltac:(lia)) as E6. pose proof (Ht 7%nat ltac:(lia)) as E7.
  destruct o as [|[|[|[|[|[|[|[|[|[|o]]]]]]]]]]; cbn [pack11]; congruence.
Qed.

Lemma unpack11_pack11 (c : array) aa (t : nat → Z) j :
  (∀ j, 0 ≤ t j < 2048) →
  (∀ o, (o < 11)%nat → rd c (aa + o) = pack11 t o) →
  (j < 8)%nat → js_and (rd (unpack11 c aa) j) 2047 = t j.
Proof.
  intros Ht Hc Hj.
  assert (∀ o, (o < 11)%nat → 0 ≤ rd c (aa + o) < 256) as Hb.
  { intros o Ho. rewrite Hc by done. apply pack11_range. }
  destruct (unpack11_fields c aa Hb) as (F0 & F1 & F2 & F3 & F4 & F5 & F6 & F7).
  destruct (pack11_bytes t Ht)
    as (B0 & B1 & B2 & B3 & B4 & B5 & B6 & B7 & B8 & B9 & B10).
  pose proof (Hc 0%nat ltac:(lia)) as C0. rewrite Nat.add_0_r in C0.
  pose proof (Hc 1%nat ltac:(lia)) as C1. pose proof (Hc 2%nat ltac:(lia)) as C2.
  pose proof (Hc 3%nat ltac:(lia)) as C3. pose proof (Hc 4%nat ltac:(lia)) as C4.
  pose proof (Hc 5%nat ltac:(lia)) as C5. pose proof (Hc 6%nat ltac:(lia)) as C6.
  pose proof (Hc 7%nat ltac:(lia)) as C7. pose proof (Hc 8%nat ltac:(lia)) as C8.
  pose proof (Hc 9%nat ltac:(lia)) as C9. pose proof (Hc 10%nat ltac:(lia)) as C10.
  rewrite C0, ?C1, ?C2, ?C3, ?C4, ?C5, ?C6, ?C7, ?C8, ?C9, ?C10 in *.
  rewrite B0, ?B1, ?B2, ?B3, ?B4, ?B5, ?B6, ?B7, ?B8, ?B9, ?B10 in *.
  pose proof (Ht 0%nat) as H0. pose proof (Ht 1%nat) as H1.
  pose proof (Ht 2%nat) as H2. pose proof (Ht 3%nat) as H3.
  pose proof (Ht 4%nat) as H4. pose proof (Ht 5%nat) as H5.
  pose proof (Ht 6%nat) as H6. pose proof (Ht 7%nat) as H7.
  destruct j as [|[|[|[|[|[|[|[|j]]]]]]]]; [..|lia].
  - rewrite F0. clear -H0 H1. Z.div_mod_to_equations; lia.
  - rewrite F1. clear -H0 H1 H2. Z.div_mod_to_equations; lia.
  - rewrite F2. clear -H1 H2 H3. Z.div_mod_to_equations; lia.
  - rewrite F3. clear -H2 H3 H4. Z.div_mod_to_equations; lia.
  - rewrite F4. clear -H3 H4 H5. Z.div_mod_to_equations; lia.
  - rewrite F5. clear -H4 H5 H6. Z.div_mod_to_equations; lia.
  - rewrite F6. clear -H5 H6 H7. Z.div_mod_to_equations; lia.
  - rewrite F7. clear -H6 H7. Z.div_mod_to_equations; lia.
Qed.

Lemma pack11_unpack11 (a : array) aa o :
  (∀ o, (o < 11)%nat → 0 ≤ rd a (aa + o) < 256) →
  (o < 11)%nat →
  pack11 (λ j, js_and (rd (unpack11 a aa) j) 2047) o = rd a (aa + o).
Proof.
  intros Hb Ho.
  destruct (unpack11_fields a aa Hb) as (F0 & F1 & F2 & F3 & F4 & F5 & F6 & F7).
  destruct (pack11_bytes (λ j, js_and (rd (unpack11 a aa) j) 2047))
    as (B0 & B1 & B2 & B3 & B4 & B5 & B6 & B7 & B8 & B9 & B10).
  { intros j. apply (js_and_mask_range _ 11). lia. }
  cbv beta in B0, B1, B2, B3, B4, B5, B6, B7, B8, B9, B10.
  pose proof (Hb 0%nat ltac:(lia)) as H0. rewrite Nat.add_0_r in H0.
  pose proof (Hb 1%nat ltac:(lia)) as H1. pose proof (Hb 2%nat ltac:(lia)) as H2.
  pose proof (Hb 3%nat ltac:(lia)) as H3. pose proof (Hb 4%nat ltac:(lia)) as H4.
  pose proof (Hb 5%nat ltac:(lia)) as H5. pose proof (Hb 6%nat ltac:(lia)) as H6.
  pose proof (Hb 7%nat ltac:(lia)) as H7. pose proof (Hb 8%nat ltac:(lia)) as H8.
  pose proof (Hb 9%nat ltac:(lia)) as H9. pose proof (Hb 10%nat ltac:(lia)) as H10.
  destruct o as [|[|[|[|[|[|[|[|[|[|[|o]]]]]]]]]]]; [..|lia].
  - rewrite B0, F0, Nat.add_0_r. clear -H0 H1. Z.div_mod_to_equations; lia.
  - rewrite B1, F0, F1. clear -H0 H1 H2. Z.div_mod_to_equations; lia.
  - rewrite B2, F1, F2. clear -H1 H2 H3 H4. Z.div_mod_to_equations; lia.
  - rewrite B3, F2. clear -H2 H3 H4. Z.div_mod_to_equations; lia.
  - rewrite B4, F2, F3. clear -H2 H3 H4 H5. Z.div_mod_to_equations; lia.
  - rewrite B5, F3, F4. clear -H4 H5 H6. Z.div_mod_to_equations; lia.
  - rewrite B6, F4, F5. clear -H5 H6 H7 H8. Z.div_mod_to_equations; lia.
  - rewrite B7, F5. clear -H6 H7 H8. Z.div_mod_to_equations; lia.
  - rewrite B8, F5, F6. clear -H6 H7 H8 H9. Z.div_mod_to_equations; lia.
  - rewrite B9, F6, F7. clear -H8 H9 H10. Z.div_mod_to_equations; lia.
  - rewrite B10, F7. clear -H9 H10. Z.div_mod_to_equations; lia.
Qed.

(** ** Compression of vectors to 10 and 11 bits *)

Lemma mask10_range y : 0 ≤ js_and y 1023 < 1024.
Proof. apply (js_and_mask_range y 10). lia. Qed.

Lemma mask11_range y : 0 ≤ js_and y 2047 < 2048.
Proof. apply (js_and_mask_range y 11). lia. Qed.

Lemma decompress10_masked z : 0 ≤ z < 1024 →
  0 ≤ js_shr (uint32 z * paramsQ + 512) 10 < paramsQ
  ∧ compress10 (js_shr (uint32 z * paramsQ + 512) 10) = z.
Proof. intros Hz. by_cases_below 1024. Qed.

Lemma decompress11_masked z : 0 ≤ z < 2048 →
  0 ≤ js_shr (uint32 z * paramsQ + 1024) 11 < paramsQ
  ∧ compress11 (js_shr (uint32 z * paramsQ + 1024) 11) = z.
Proof. intros Hz. by_cases_below 2048. Qed.

Lemma decompress10_range y : 0 ≤ decompress10 y < paramsQ.
Proof. apply decompress10_masked, mask10_range. Qed.

Lemma decompress11_range y : 0 ≤ decompress11 y < paramsQ.
Proof. apply decompress11_masked, mask11_range. Qed.

Lemma compress_decompress10 y : compress10 (decompress10 y) = js_and y 1023.
Proof. apply decompress10_masked, mask10_range. Qed.

Lemma compress_decompress11 y : compress11 (decompress11 y) = js_and y 2047.
Proof. apply decompress11_masked, mask11_range. Qed.

Lemma compress10_range x : 0 ≤ compress10 x < 1024.
Proof. apply mask10_range. Qed.

Lemma int32_small n : -2147483648 ≤ n ≤ 2147483647 → int32 n = n.
Proof. intros Hn. unfold int32. cbv zeta. repeat case_decide; lia. Qed.

Lemma compress11_range x : 0 ≤ compress11 x < 2048.
Proof.
  unfold compress11.
  pose proof (mask11_range (div_round_q (js_shl (int32 x) 11))).
  rewrite int32_small; lia.
Qed.

Lemma compress10_error x : 0 ≤ x < paramsQ →
  distance_mod_q (decompress10 (compress10 x)) x ≤ 2.
Proof. intros Hx. unfold paramsQ in Hx. by_cases_below 3329. Qed.

Lemma compress11_error x : 0 ≤ x < paramsQ →
  distance_mod_q (decompress11 (compress11 x)) x ≤ 1.
Proof. intros Hx. unfold paramsQ in Hx. by_cases_below 3329. Qed.

Lemma decompress10_mask y y' :
  js_and y 1023 = js_and y' 1023 → decompress10 y = decompress10 y'.
Proof. unfold decompress10. by intros ->. Qed.

Lemma decompress11_mask y y' :
  js_and y 2047 = js_and y' 2047 → decompress11 y = decompress11 y'.
Proof. unfold decompress11. by intros ->. Qed.

Lemma mask_small t m : 0 ≤ m ≤ 11 → 0 ≤ t < 2 ^ m → js_and t (2 ^ m - 1) = t.
Proof.
  intros Hm Ht. pose proof (pow2_bounds m Hm).
  rewrite js_and_mask by lia. apply Z.mod_small. lia.
Qed.

(** Polynomial [i] of a vector given by its coefficients. *)
Lemma lookup_vector (f : nat → nat → Z) K n i : (i < K)%nat →
  ((λ i, of_list (f i <$> seq 0 n)) <$> seq 0 K) !!! i = of_list (f i <$> seq 0 n).
Proof.
  intros Hi. apply list_lookup_total_correct.
  by rewrite list_lookup_fmap, lookup_seq_lt by done.
Qed.

Lemma rd_vector (f : nat → nat → Z) K n i m : (i < K)%nat → (m < n)%nat →
  rd (((λ i, of_list (f i <$> seq 0 n)) <$> seq 0 K) !!! i) m = f i m.
Proof.
  intros Hi Hm. rewrite lookup_vector by done. apply rd_of_list.
  by rewrite list_lookup_fmap, lookup_seq_lt by done.
Qed.

Lemma rd_decompressPolyVector_10 K (a : array) i g j :
  (K = 2 ∨ K = 3)%nat → (i < K)%nat → (g < 64)%nat → (j < 4)%nat →
  rd (Poly.decompressPolyVector K a !!! i) (4 * g + j)
  = decompress10 (rd (unpack10 a (5 * (64 * i + g))) j).
Proof.
  intros HK Hi Hg Hj. rewrite decompressPolyVector_10 by done.
  rewrite (rd_vector (λ i m,
    decompress10 (rd (unpack10 a (5 * (64 * i + m / 4))) (m mod 4)))) by lia.
  by destruct (div_mod_block 4 g j Hj) as [-> ->].
Qed.

Lemma rd_decompressPolyVector_11 K (a : array) i g j :
  ¬ (K = 2 ∨ K = 3)%nat → (i < K)%nat → (g < 32)%nat → (j < 8)%nat →
  rd (Poly.decompressPolyVector K a !!! i) (8 * g + j)
  = decompress11 (rd (unpack11 a (11 * (32 * i + g))) j).
Proof.
  intros HK Hi Hg Hj. rewrite decompressPolyVector_11 by done.
  rewrite (rd_vector (λ i m,
    decompress11 (rd (unpack11 a (11 * (32 * i + m / 8))) (m mod 8)))) by lia.
  by destruct (div_mod_block 8 g j Hj) as [-> ->].
Qed.

Lemma length_decompressPolyVector K (a : array) :
  length (Poly.decompressPolyVector K a) = K.
Proof.
  destruct (decide (K = 2 ∨ K = 3)%nat) as [HK|HK].
  - rewrite decompressPolyVector_10 by done. by rewrite length_fmap, length_seq.
  - rewrite decompressPolyVector_11 by done. by rewrite length_fmap, length_seq.
Qed.

Lemma rd_polyVectorCSubQ K (v : list array) i m :
  (K ≤ length v)%nat → (i < K)%nat → (m < 256)%nat →
  rd (Poly.polyVectorCSubQ K v !!! i) m = csubq (rd (v !!! i) m).
Proof.
  intros HK Hi Hm. unfold Poly.polyVectorCSubQ.
  rewrite (for_loop_map Poly.polyConditionalSubQ) by done.
  rewrite decide_True by done. by apply rd_polyConditionalSubQ.
Qed.

Lemma rd_compressPolyVector_10 K (v : list array) i g o :
  (K = 2 ∨ K = 3)%nat → (i < K)%nat → (g < 64)%nat → (o < 5)%nat →
  rd (Poly.compressPolyVector K v) (5 * (64 * i + g) + o)
  = pack10 (λ j, compress10 (rd (Poly.polyVectorCSubQ K v !!! i) (4 * g + j))) o.
Proof.
  intros HK Hi Hg Ho. apply slot_Some_rd.
  rewrite (proj2 (compressPolyVector_10 K v HK)) by nia.
  destruct (div_mod_block 5 (64 * i + g) o Ho) as [-> ->].
  by destruct (div_mod_block 64 i g Hg) as [-> ->].
Qed.

Lemma rd_compressPolyVector_11 K (v : list array) i g o :
  ¬ (K = 2 ∨ K = 3)%nat → (i < K)%nat → (g < 32)%nat → (o < 11)%nat →
  rd (Poly.compressPolyVector K v) (11 * (32 * i + g) + o)
  = pack11 (λ j, compress11 (rd (Poly.polyVectorCSubQ K v !!! i) (8 * g + j))) o.
Proof.
  intros HK Hi Hg Ho. apply slot_Some_rd.
  rewrite (proj2 (compressPolyVector_11 K v HK)) by nia.
  destruct (div_mod_block 11 (32 * i + g) o Ho) as [-> ->].
  by destruct (div_mod_block 32 i g Hg) as [-> ->].
Qed.

(** X20.  Whatever the bytes and for every parameter set [K],
    [decompressPolyVector] returns [K] polynomials of exactly 256
    coefficients, all in [[0, q)]. *)
Theorem decompressPolyVector_coefficients_below_q K (a : array) :
  length (Poly.decompressPolyVector K a) = K
  ∧ Forall (λ p, length p = 256%nat
                 ∧ Forall (λ s, ∃ c, s = Some c ∧ 0 ≤ c < paramsQ) p)
      (Poly.decompressPolyVector K a).
Proof.
  split; [apply length_decompressPolyVector|].
  destruct (decide (K = 2 ∨ K = 3)%nat) as [HK|HK].
  - rewrite decompressPolyVector_10 by done.
    apply Forall_fmap, Forall_forall. intros i _. cbv beta.
    split; [by rewrite length_of_list, length_fmap, length_seq|].
    unfold of_list. rewrite <- list_fmap_compose.
    apply Forall_fmap, Forall_forall. intros m _.
    eexists. split; [reflexivity|]. apply decompress10_range.
  - rewrite decompressPolyVector_11 by done.
    apply Forall_fmap, Forall_forall. intros i _. cbv beta.
    split; [by rewrite length_of_list, length_fmap, length_seq|].
    unfold of_list. rewrite <- list_fmap_compose.
    apply Forall_fmap, Forall_forall. intros m _.
    eexists. split; [reflexivity|]. apply decompress11_range.
Qed.

(** X21.  For a vector of [K] polynomials, [compressPolyVector] returns
    [320 K] bytes (parameter sets 2 and 3) or [352 K] bytes (the others),
    each in [[0, 255]]. *)
Theorem compressPolyVector_returns_bytes K (v : list array) :
  length v = K →
  length (Poly.compressPolyVector K v) = vector_bytes K
  ∧ Forall (λ s, ∃ b, s = Some b ∧ 0 ≤ b ≤ 255) (Poly.compressPolyVector K v).
Proof.
  intros _. unfold vector_bytes. destruct (decide (K = 2 ∨ K = 3)%nat) as [HK|HK].
  - destruct (compressPolyVector_10 K v HK) as [Hlen Hslots].
    split; [rewrite Hlen; lia|]. apply Forall_lookup. intros i s Hs.
    pose proof (lookup_lt_Some _ _ _ Hs) as Hi. rewrite Hlen in Hi.
    apply list_lookup_total_correct in Hs. rewrite Hslots in Hs by done.
    subst s. eexists. split; [done|].
    pose proof (pack10_byte_range
      (λ j, compress10 (rd (Poly.polyVectorCSubQ K v !!! (i / 5 / 64)%nat)
                           (4 * (i / 5 mod 64) + j))) (i mod 5)).
    lia.
  - destruct (compressPolyVector_11 K v HK) as [Hlen Hslots].
    split; [rewrite Hlen; lia|]. apply Forall_lookup. intros i s Hs.
    pose proof (lookup_lt_Some _ _ _ Hs) as Hi. rewrite Hlen in Hi.
    apply list_lookup_total_correct in Hs. rewrite Hslots in Hs by done.
    subst s. eexists. split; [done|].
    pose proof (pack11_range
      (λ j, compress11 (rd (Poly.polyVectorCSubQ K v !!! (i / 11 / 32)%nat)
                           (8 * (i / 11 mod 32) + j))) (i mod 11)).
    lia.
Qed.

Lemma compressPolyVector_returns_bytes_witness :
  length (Poly.compressPolyVector 2 [of_list (replicate 256 5000); of_list (replicate 256 7)])
  = vector_bytes 2
  ∧ Forall (λ s, ∃ b, s = Some b ∧ 0 ≤ b ≤ 255)
      (Poly.compressPolyVector 2 [of_list (replicate 256 5000); of_list (replicate 256 7)]).
Proof.
  apply (compressPolyVector_returns_bytes 2
           [of_list (replicate 256 5000); of_list (replicate 256 7)]).
  reflexivity.
Defined.

(** X22.  Compressing what [decompressPolyVector] returns gives the bytes
    back: for every array [b] of [320 K] bytes (parameter sets 2 and 3) or
    [352 K] bytes (the others),
    [compressPolyVector (decompressPolyVector b)] is [b]. *)
Theorem compressPolyVector_decompressPolyVector K (b : list Z) :
  length b = vector_bytes K → Forall (λ x, 0 ≤ x < 256) b →
  Poly.compressPolyVector K (Poly.decompressPolyVector K (of_list b)) = of_list b.
Proof.
  unfold vector_bytes. intros Hlen Hb.
  pose proof (length_decompressPolyVector K (of_list b)) as Hv.
  destruct (decide (K = 2 ∨ K = 3)%nat) as [HK|HK].
  - destruct (compressPolyVector_10 K (Poly.decompressPolyVector K (of_list b)) HK)
      as [Hlen' Hslots].
    apply array_eq; [rewrite Hlen', length_of_list; lia|].
    intros k. rewrite Hlen'. intros Hk.
    rewrite Hslots, slot_bytes by lia. f_equal.
    pose proof (Nat.div_mod_eq k 5) as Hdm.
    assert (k mod 5 < 5)%nat as Hm by (apply Nat.mod_upper_bound; lia).
    set (n := (k / 5)%nat) in *. set (o := (k mod 5)%nat) in *.
    pose proof (Nat.div_mod_eq n 64) as Hdm'.
    assert (n mod 64 < 64)%nat as Hm' by (apply Nat.mod_upper_bound; lia).
    set (i := (n / 64)%nat) in *. set (g := (n mod 64)%nat) in *.
    assert (i < K)%nat by nia.
    rewrite (pack10_ext _ (λ j, js_and (rd (unpack10 (of_list b) (5 * n)) j) 1023)).
    + rewrite pack10_unpack10; [f_equal; lia| |done].
      intros o' Ho'. apply (rd_bytes b (K * 320)); [done..|lia].
    + intros j Hj. cbv beta.
      rewrite rd_polyVectorCSubQ by lia.
      rewrite rd_decompressPolyVector_10 by done.
      rewrite csubq_small by apply decompress10_range.
      rewrite compress_decompress10. by replace (64 * i + g)%nat with n by lia.
  - destruct (compressPolyVector_11 K (Poly.decompressPolyVector K (of_list b)) HK)
      as [Hlen' Hslots].
    apply array_eq; [rewrite Hlen', length_of_list; lia|].
    intros k. rewrite Hlen'. intros Hk.
    rewrite Hslots, slot_bytes by lia. f_equal.
    pose proof (Nat.div_mod_eq k 11) as Hdm.
    assert (k mod 11 < 11)%nat as Hm by (apply Nat.mod_upper_bound; lia).
    set (n := (k / 11)%nat) in *. set (o := (k mod 11)%nat) in *.
    pose proof (Nat.div_mod_eq n 32) as Hdm'.
    assert (n mod 32 < 32)%nat as Hm' by (apply Nat.mod_upper_bound; lia).
    set (i := (n / 32)%nat) in *. set (g := (n mod 32)%nat) in *.
    assert (i < K)%nat by nia.
    rewrite (pack11_ext _ (λ j, js_and (rd (unpack11 (of_list b) (11 * n)) j) 2047)).
    + rewrite pack11_unpack11; [f_equal; lia| |done].
      intros o' Ho'. apply (rd_bytes b (K * 352)); [done..|lia].
    + intros j Hj. cbv beta.
      rewrite rd_polyVectorCSubQ by lia.
      rewrite rd_decompressPolyVector_11 by done.
      rewrite csubq_small by apply decompress11_range.
      rewrite compress_decompress11. by replace (32 * i + g)%nat with n by lia.
Qed.

Lemma compressPolyVector_decompressPolyVector_witness :
  Poly.compressPolyVector 2 (Poly.decompressPolyVector 2 (of_list (replicate 640 173)))
  = of_list (replicate 640 173).
Proof.
  apply (compressPolyVector_decompressPolyVector 2 (replicate 640 173)).
  - reflexivity.
  - apply Forall_replicate. lia.
Defined.

(** X23.  Decompressing what [compressPolyVector] returns gives every
    coefficient back up to a rounding error: for a vector of [K]
    polynomials, a coefficient in [[0, q)] comes back at a distance modulo
    q of at most 2 (parameter sets 2 and 3, 10 bits) or 1 (the others,
    11 bits). *)
Theorem decompressPolyVector_compressPolyVector_close K (v : list array) i m :
  length v = K → (i < K)%nat → (m < 256)%nat → 0 ≤ rd (v !!! i) m < paramsQ →
  distance_mod_q
    (rd (Poly.decompressPolyVector K (Poly.compressPolyVector K v) !!! i) m)
    (rd (v !!! i) m)
  ≤ (if decide (K = 2 ∨ K = 3)%nat then 2 else 1).
Proof.
  intros Hv Hi Hm Hc. destruct (decide (K = 2 ∨ K = 3)%nat) as [HK|HK].
  - pose proof (Nat.div_mod_eq m 4) as Hdm.
    assert (m mod 4 < 4)%nat as Hj by (apply Nat.mod_upper_bound; lia).
    set (g := (m / 4)%nat) in *. set (j := (m mod 4)%nat) in *.
    assert (g < 64)%nat by lia.
    replace m with (4 * g + j)%nat in * by lia. clear Hdm.
    rewrite rd_decompressPolyVector_10 by done.
    rewrite (decompress10_mask _ (compress10 (rd (v !!! i) (4 * g + j)))).
    + by apply compress10_error.
    + rewrite (mask_small (compress10 _) 10) by (lia || apply compress10_range).
      rewrite (unpack10_pack10 _ _
                 (λ j, compress10 (rd (Poly.polyVectorCSubQ K v !!! i) (4 * g + j))));
        [|intros; apply compress10_range| |done].
      * cbv beta. rewrite rd_polyVectorCSubQ by lia. by rewrite csubq_small.
      * intros o Ho. by apply rd_compressPolyVector_10.
  - pose proof (Nat.div_mod_eq m 8) as Hdm.
    assert (m mod 8 < 8)%nat as Hj by (apply Nat.mod_upper_bound; lia).
    set (g := (m / 8)%nat) in *. set (j := (m mod 8)%nat) in *.
    assert (g < 32)%nat by lia.
    replace m with (8 * g + j)%nat in * by lia. clear Hdm.
    rewrite rd_decompressPolyVector_11 by done.
    rewrite (decompress11_mask _ (compress11 (rd (v !!! i) (8 * g + j)))).
    + by apply compress11_error.
    + rewrite (mask_small (compress11 _) 11) by (lia || apply compress11_range).
      rewrite (unpack11_pack11 _ _
                 (λ j, compress11 (rd (Poly.polyVectorCSubQ K v !!! i) (8 * g + j))));
        [|intros; apply compress11_range| |done].
      * cbv beta. rewrite rd_polyVectorCSubQ by lia. by rewrite csubq_small.
      * intros o Ho. by apply rd_compressPolyVector_11.
Qed.

Lemma decompressPolyVector_compressPolyVector_close_witness :
  distance_mod_q
    (rd (Poly.decompressPolyVector 4
           (Poly.compressPolyVector 4 (replicate 4 (of_list (replicate 256 1000))))
         !!! 2%nat) 77)
    (rd (replicate 4 (of_list (replicate 256 1000)) !!! 2%nat) 77)
  ≤ (if decide (4 = 2 ∨ 4 = 3)%nat then 2 else 1).
Proof.
  apply (decompressPolyVector_compressPolyVector_close 4
           (replicate 4 (of_list (replicate 256 1000))) 2 77).
  - reflexivity.
  - lia.
  - lia.
  - vm_compute. split; [discriminate|reflexivity].
Defined.

(** X24.  The compressed vector and the compressed polynomial fill a
    ciphertext exactly: for the parameter sets 2, 3 and 4, the bytes of
    [compressPolyVector] and of [compressPoly] are together
    [Kyber512CTBytes], [Kyber768CTBytes] and [Kyber1024CTBytes] bytes. *)
Theorem compressed_sizes_are_ciphertext_sizes K (v : list array) (p : array) :
  (K = 2 ∨ K = 3 ∨ K = 4)%nat → length v = K →
  (length (Poly.compressPolyVector K v) + length (Poly.compressPoly K p))%nat
  = ciphertext_bytes K.
Proof.
  intros HK Hv.
  destruct (decide (K = 2 ∨ K = 3)%nat) as [H23|H23].
  - rewrite (proj1 (compressPolyVector_10 K v H23)),
      (proj1 (compressPoly_4_spec K p H23)).
    destruct H23 as [-> | ->]; reflexivity.
  - rewrite (proj1 (compressPolyVector_11 K v H23)),
      (proj1 (compressPoly_5_spec K p H23)).
    assert (K = 4)%nat as -> by lia. reflexivity.
Qed.

Lemma compressed_sizes_are_ciphertext_sizes_witness :
  (length (Poly.compressPolyVector 3 (replicate 3 (of_list (replicate 256 1%Z))))
   + length (Poly.compressPoly 3 (of_list (replicate 256 2%Z))))%nat
  = ciphertext_bytes 3.
Proof.
  apply (compressed_sizes_are_ciphertext_sizes 3
           (replicate 3 (of_list (replicate 256 1))) (of_list (replicate 256 2))).
  - lia.
  - reflexivity.
Defined.

(** ** Operations that write the first 256 slots only *)

Lemma keeps_refl (a : array) : keeps_from_256 a a.
Proof. by split. Qed.

Lemma keeps_trans (a b c : array) :
  keeps_from_256 a b → keeps_from_256 b c → keeps_from_256 a c.
Proof.
  intros [Hl1 Hs1] [Hl2 Hs2]. split; [congruence|].
  intros j Hj. by rewrite Hs2, Hs1.
Qed.

Lemma keeps_wr (a : array) i v :
  (i < 256)%nat → (256 ≤ length a)%nat → keeps_from_256 a (wr a i v).
Proof.
  intros Hi Ha. split; [apply length_wr_lt; lia|].
  intros j Hj. apply slot_wr_ne. lia.
Qed.

Lemma keeps_wr_step (a s : array) i v :
  keeps_from_256 a s → (i < 256)%nat → (256 ≤ length a)%nat →
  keeps_from_256 a (wr s i v).
Proof.
  intros Hs Hi Ha. apply (keeps_trans _ s); [done|].
  apply keeps_wr; [done|]. destruct Hs as [Hl _]. lia.
Qed.

(** A loop whose rounds keep the slots from 256 on. *)
Lemma keeps_for_loop lo n (body : nat → array → array) (a : array) :
  (256 ≤ length a)%nat →
  (∀ i s, (lo ≤ i < lo + n)%nat → (256 ≤ length s)%nat → keeps_from_256 s (body i s)) →
  keeps_from_256 a (Poly.for_loop lo n body a).
Proof.
  intros Ha Hbody.
  refine (for_loop_inv (λ _ s, keeps_from_256 a s) lo n body a _ _).
  - apply keeps_refl.
  - intros i s Hi Hs. eapply keeps_trans; [exact Hs|].
    apply Hbody; [done|]. destruct Hs as [Hl _]. lia.
Qed.

Lemma polyConditionalSubQ_keeps (a : array) :
  (256 ≤ length a)%nat → keeps_from_256 a (Poly.polyConditionalSubQ a).
Proof.
  intros Ha. apply keeps_for_loop; [done|].
  intros i s Hi Hs. unfold paramsN in Hi. cbv zeta.
  do 2 (apply keeps_wr_step; [|lia|done]). apply keeps_refl.
Qed.

Lemma polyReduce_keeps (a : array) :
  (256 ≤ length a)%nat → keeps_from_256 a (Poly.polyReduce a).
Proof.
  intros Ha. apply keeps_for_loop; [done|].
  intros i s Hi Hs. unfold paramsN in Hi. apply keeps_wr; [lia|done].
Qed.

Lemma polyToMont_keeps (a : array) :
  (256 ≤ length a)%nat → keeps_from_256 a (Poly.polyToMont a).
Proof.
  intros Ha. apply keeps_for_loop; [done|].
  intros i s Hi Hs. unfold paramsN in Hi. apply keeps_wr; [lia|done].
Qed.

Lemma subtract_keeps (a b : array) :
  (256 ≤ length a)%nat → keeps_from_256 a (Poly.subtract a b).
Proof.
  intros Ha. apply keeps_for_loop; [done|].
  intros i s Hi Hs. unfold paramsN in Hi. apply keeps_wr; [lia|done].
Qed.

Lemma polyBaseMulMont_round_keeps i (a b : array) :
  (i < 64)%nat → (256 ≤ length a)%nat →
  keeps_from_256 a (Poly.polyBaseMulMont_round i a b).
Proof.
  intros Hi Ha. unfold Poly.polyBaseMulMont_round. cbv zeta.
  do 4 (apply keeps_wr_step; [|lia|done]). apply keeps_refl.
Qed.

Lemma polyBaseMulMont_keeps (a b : array) :
  (256 ≤ length a)%nat → keeps_from_256 a (Poly.polyBaseMulMont a b).
Proof.
  intros Ha. apply keeps_for_loop; [done|].
  intros i s Hi Hs. change (paramsN / 4)%nat with 64%nat in Hi.
  apply polyBaseMulMont_round_keeps; [lia|done].
Qed.

(** The butterflies: the groups of one layer lie below slot 256. *)
Lemma group_loop_length fuel table (body : Z → nat → nat → array → array)
    l start k (r : array) g c :
  (∀ zeta j s, (j + l < length s)%nat → length (body zeta l j s) = length s) →
  (0 < l)%nat → (start = 2 * l * g)%nat → (start + 2 * l * c = 256)%nat →
  (256 ≤ length r)%nat →
  length (snd (Poly.group_loop fuel table body l start k r)) = length r.
Proof.
  intros Hbody Hl. revert start k r g c.
  induction fuel as [|fuel IH]; intros start k r g c Hs Hc Hr; [done|].
  simpl. case_decide as Hlt; [|done].
  destruct c as [|c]; [lia|].
  assert (start + l + l ≤ 256)%nat as Hgroup by nia.
  assert (length (Poly.for_loop start l (body (zeta_at table k) l) r) = length r)
    as Hinner.
  { refine (for_loop_inv (λ _ s, length s = length r) start l _ r _ _); [done|].
    intros j s Hj Hlen. rewrite Hbody; [done|]. rewrite Hlen. lia. }
  rewrite (IH _ _ _ (S g) c) by (rewrite ?Hinner; nia). exact Hinner.
Qed.

Lemma ntt_body_length zeta l j (s : array) :
  (j + l < length s)%nat → length (Poly.ntt_body zeta l j s) = length s.
Proof.
  intros Hj. unfold Poly.ntt_body. cbv zeta.
  rewrite !length_wr. lia.
Qed.

Lemma invNTT_body_length zeta l j (s : array) :
  (j + l < length s)%nat → length (Poly.invNTT_body zeta l j s) = length s.
Proof.
  intros Hj. unfold Poly.invNTT_body. cbv zeta.
  rewrite !length_wr. lia.
Qed.

Lemma ntt_layer_keeps l c k (r : array) : layer_of l c →
  (256 ≤ length r)%nat → keeps_from_256 r (ntt_layer l k r).
Proof.
  intros Hlc Hr. split.
  - destruct Hlc as (Hl & Hc & _). unfold ntt_layer.
    apply (group_loop_length _ _ _ _ _ _ _ 0 c); [|lia..].
    intros zeta j s. apply ntt_body_length.
  - intros j Hj. rewrite (ntt_layer_slot l c) by done. case_decide; [lia|done].
Qed.

Lemma invNTT_layer_keeps l c k (r : array) : layer_of l c →
  (256 ≤ length r)%nat → keeps_from_256 r (invNTT_layer l k r).
Proof.
  intros Hlc Hr. split.
  - destruct Hlc as (Hl & Hc & _). unfold invNTT_layer.
    apply (group_loop_length _ _ _ _ _ _ _ 0 c); [|lia..].
    intros zeta j s. apply invNTT_body_length.
  - intros j Hj. rewrite (invNTT_layer_slot l c) by done. case_decide; [lia|done].
Qed.

Lemma keeps_length (a r : array) :
  keeps_from_256 a r → (256 ≤ length a)%nat → (256 ≤ length r)%nat.
Proof. intros [Hl _] Ha. lia. Qed.

Lemma ntt_keeps (a : array) : (256 ≤ length a)%nat → keeps_from_256 a (Poly.ntt a).
Proof.
  destruct layer_of_values as (L128 & L64 & L32 & L16 & L8 & L4 & L2).
  intros Ha. rewrite ntt_layers.
  pose proof (ntt_layer_keeps _ _ 1 a L128 Ha) as K1.
  pose proof (ntt_layer_keeps _ _ 2 _ L64 (keeps_length _ _ K1 Ha)) as K2.
  pose proof (keeps_trans _ _ _ K1 K2) as T2.
  pose proof (ntt_layer_keeps _ _ 4 _ L32 (keeps_length _ _ T2 Ha)) as K3.
  pose proof (keeps_trans _ _ _ T2 K3) as T3.
  pose proof (ntt_layer_keeps _ _ 8 _ L16 (keeps_length _ _ T3 Ha)) as K4.
  pose proof (keeps_trans _ _ _ T3 K4) as T4.
  pose proof (ntt_layer_keeps _ _ 16 _ L8 (keeps_length _ _ T4 Ha)) as K5.
  pose proof (keeps_trans _ _ _ T4 K5) as T5.
  pose proof (ntt_layer_keeps _ _ 32 _ L4 (keeps_length _ _ T5 Ha)) as K6.
  pose proof (keeps_trans _ _ _ T5 K6) as T6.
  pose proof (ntt_layer_keeps _ _ 64 _ L2 (keeps_length _ _ T6 Ha)) as K7.
  exact (keeps_trans _ _ _ T6 K7).
Qed.

Lemma invNTT_keeps (a : array) :
  (256 ≤ length a)%nat → keeps_from_256 a (Poly.invNTT a).
Proof.
  destruct layer_of_values as (L128 & L64 & L32 & L16 & L8 & L4 & L2).
  intros Ha. rewrite invNTT_layers.
  pose proof (invNTT_layer_keeps _ _ 0 a L2 Ha) as K1.
  pose proof (invNTT_layer_keeps _ _ 64 _ L4 (keeps_length _ _ K1 Ha)) as K2.
  pose proof (keeps_trans _ _ _ K1 K2) as T2.
  pose proof (invNTT_layer_keeps _ _ 96 _ L8 (keeps_length _ _ T2 Ha)) as K3.
  pose proof (keeps_trans _ _ _ T2 K3) as T3.
  pose proof (invNTT_layer_keeps _ _ 112 _ L16 (keeps_length _ _ T3 Ha)) as K4.
  pose proof (keeps_trans _ _ _ T3 K4) as T4.
  pose proof (invNTT_layer_keeps _ _ 120 _ L32 (keeps_length _ _ T4 Ha)) as K5.
  pose proof (keeps_trans _ _ _ T4 K5) as T5.
  pose proof (invNTT_layer_keeps _ _ 124 _ L64 (keeps_length _ _ T5 Ha)) as K6.
  pose proof (keeps_trans _ _ _ T5 K6) as T6.
  pose proof (invNTT_layer_keeps _ _ 126 _ L128 (keeps_length _ _ T6 Ha)) as K7.
  pose proof (keeps_trans _ _ _ T6 K7) as T7.
  eapply keeps_trans; [exact T7|].
  apply keeps_for_loop; [exact (keeps_length _ _ T7 Ha)|].
  intros i s Hi Hs. apply keeps_wr; [lia|done].
Qed.

(** ** The operations on vectors *)

(** A loop that replaces polynomial [i] in round [i]. *)
Lemma vec_map_elements (g : nat → array → array) K (v : list array) :
  length (Poly.for_loop 0 K (λ i r, <[i := g i (r !!! i)]> r) v) = length v
  ∧ ∀ i, Poly.for_loop 0 K (λ i r, <[i := g i (r !!! i)]> r) v !!! i
         = if decide (i < K ∧ i < length v)%nat then g i (v !!! i) else v !!! i.
Proof.
  induction K as [|K [IHlen IH]].
  - split; [done|]. intros i. case_decide; [lia|done].
  - rewrite for_loop_snoc. cbn [Nat.add]. split; [by rewrite length_insert|].
    intros i. destruct (decide (i = K)) as [->|Hne].
    + destruct (decide (K < length v)%nat) as [Hlt|Hge].
      * rewrite list_lookup_total_insert_eq by lia. rewrite IH.
        case_decide; [lia|]. case_decide; [done|lia].
      * rewrite list_insert_ge by lia. rewrite IH.
        case_decide; [lia|]. case_decide; [lia|done].
    + rewrite list_lookup_total_insert_ne by done. rewrite IH.
      repeat case_decide; (done || lia).
Qed.

Lemma vec_map_same256 (g g' : nat → array → array) K (v v' : list array) :
  (∀ i x x', same256 x x' → same256 (g i x) (g' i x')) →
  same256_vec v v' →
  same256_vec (Poly.for_loop 0 K (λ i r, <[i := g i (r !!! i)]> r) v)
              (Poly.for_loop 0 K (λ i r, <[i := g' i (r !!! i)]> r) v').
Proof.
  intros Hg [Hlen Hv].
  destruct (vec_map_elements g K v) as [Hl1 He1].
  destruct (vec_map_elements g' K v') as [Hl2 He2].
  split; [congruence|]. intros i. rewrite He1, He2, <- Hlen.
  case_decide; [by apply Hg|apply Hv].
Qed.

Lemma vec_map_in_place (g : array → array) K :
  on_coefficients_in_place g →
  on_coefficients_in_place_vec
    (λ v, Poly.for_loop 0 K (λ i r, <[i := g (r !!! i)]> r) v).
Proof.
  intros [Hdep Hkeep]. split.
  - intros v v' Hv. apply (vec_map_same256 (λ _, g) (λ _, g)); [|done].
    intros _ x x'. apply Hdep.
  - intros v. destruct (vec_map_elements (λ _, g) K v) as [Hlen He].
    split; [done|]. intros i Hi. rewrite He.
    case_decide; [by apply Hkeep|apply keeps_refl].
Qed.

Lemma polyAdd_new : on_coefficients_new Poly.polyAdd.
Proof.
  split.
  - intros a a' b b'. apply polyAdd_coefficients_only.
  - intros a b. split; [apply length_polyAdd|].
    intros j Hj. rewrite slot_polyAdd. case_decide; [lia|done].
Qed.

Lemma polyVectorAdd_new K : on_coefficients_new_vec K (Poly.polyVectorAdd K).
Proof.
  split.
  - intros a a' b b' Ha [_ Hb]. unfold Poly.polyVectorAdd.
    apply (vec_map_same256 (λ i x, Poly.polyAdd x (b !!! i))
             (λ i x, Poly.polyAdd x (b' !!! i))); [|done].
    intros i x x' Hx. by apply polyAdd_coefficients_only.
  - intros a b. unfold Poly.polyVectorAdd.
    destruct (vec_map_elements (λ i x, Poly.polyAdd x (b !!! i)) K a) as [Hlen He].
    split; [done|]. intros i j Hj. rewrite He.
    case_decide; [|done]. rewrite slot_polyAdd. case_decide; [lia|done].
Qed.

(** ** The operations on the store *)

(** Every array of at least 256 slots is as before from slot 256 on. *)
Lemma store_keeps_trans (h g k : gmap nat array) :
  (∀ l, (256 ≤ length (Store.load h l))%nat →
        keeps_from_256 (Store.load h l) (Store.load g l)) →
  (∀ l, (256 ≤ length (Store.load g l))%nat →
        keeps_from_256 (Store.load g l) (Store.load k l)) →
  ∀ l, (256 ≤ length (Store.load h l))%nat →
       keeps_from_256 (Store.load h l) (Store.load k l).
Proof.
  intros H1 H2 l Hl. eapply keeps_trans; [by apply H1|].
  apply H2. by apply (keeps_length _ _ (H1 l Hl)).
Qed.

Lemma store_same256_insert (h h' : gmap nat array) l (x x' : array) :
  store_same256 h h' → same256 x x' →
  store_same256 (<[l := x]> h) (<[l := x']> h').
Proof.
  intros [Hdom Hs] Hx. split; [by rewrite !dom_insert_L, Hdom|].
  intros l'. destruct (decide (l = l')) as [->|Hne].
  - by rewrite !load_insert_eq.
  - rewrite !load_insert_ne by done. apply Hs.
Qed.

Lemma store_polyBaseMulMont_same256 a b (h h' : gmap nat array) :
  store_same256 h h' →
  store_same256 (Store.polyBaseMulMont a b h).2 (Store.polyBaseMulMont a b h').2.
Proof.
  intros Hh. unfold Store.polyBaseMulMont. cbn [snd].
  apply for_loop_rel; [done|].
  intros i s s' Hi Hs. change (paramsN / 4)%nat with 64%nat in Hi.
  apply store_same256_insert; [done|].
  apply polyBaseMulMont_round_same256; [lia|apply Hs..].
Qed.

Lemma store_polyBaseMulMont_keeps a b (h : gmap nat array) l :
  (256 ≤ length (Store.load h l))%nat →
  keeps_from_256 (Store.load h l) (Store.load (Store.polyBaseMulMont a b h).2 l).
Proof.
  revert l. unfold Store.polyBaseMulMont. cbn [snd].
  refine (for_loop_inv (λ _ (s : gmap nat array),
      ∀ l, (256 ≤ length (Store.load h l))%nat →
           keeps_from_256 (Store.load h l) (Store.load s l))
    0 (paramsN / 4) _ h _ _).
  - intros l _. apply keeps_refl.
  - intros i s Hi IH l Hl. change (paramsN / 4)%nat with 64%nat in Hi.
    destruct (decide (a = l)) as [->|Hne].
    + rewrite load_insert_eq. eapply keeps_trans; [by apply IH|].
      apply polyBaseMulMont_round_keeps; [lia|].
      by apply (keeps_length _ _ (IH l Hl)).
    + rewrite load_insert_ne by done. by apply IH.
Qed.

Lemma load_length_dom (h : gmap nat array) l :
  (256 ≤ length (Store.load h l))%nat → l ∈ dom h.
Proof.
  unfold Store.load. intros Hl. apply elem_of_dom.
  destruct (h !! l); [done|]. simpl in Hl. lia.
Qed.

Lemma store_polyAdd_same256 r t (h h' : gmap nat array) :
  store_same256 h h' →
  (Store.polyAdd r t h).1 = (Store.polyAdd r t h').1
  ∧ store_same256 (Store.polyAdd r t h).2 (Store.polyAdd r t h').2.
Proof.
  intros Hh. unfold Store.polyAdd, Store.alloc. cbn [fst snd].
  destruct Hh as [Hdom Hs]. rewrite Hdom. split; [done|].
  apply store_same256_insert; [by split|].
  apply polyAdd_coefficients_only; apply Hs.
Qed.

Lemma store_polyAdd_keeps r t (h : gmap nat array) l :
  (256 ≤ length (Store.load h l))%nat →
  keeps_from_256 (Store.load h l) (Store.load (Store.polyAdd r t h).2 l).
Proof.
  intros Hl. unfold Store.polyAdd, Store.alloc. cbn [snd].
  rewrite load_insert_ne; [apply keeps_refl|].
  intros <-. by apply (is_fresh (dom h)), load_length_dom.
Qed.

Lemma store_polyReduce_same256 r (h h' : gmap nat array) :
  store_same256 h h' →
  store_same256 (Store.polyReduce r h).2 (Store.polyReduce r h').2.
Proof.
  intros Hh. unfold Store.polyReduce. cbn [snd].
  apply store_same256_insert; [done|].
  apply polyReduce_coefficients_only, Hh.
Qed.

Lemma store_polyReduce_keeps r (h : gmap nat array) l :
  (256 ≤ length (Store.load h l))%nat →
  keeps_from_256 (Store.load h l) (Store.load (Store.polyReduce r h).2 l).
Proof.
  intros Hl. unfold Store.polyReduce. cbn [snd].
  destruct (decide (r = l)) as [->|Hne].
  - rewrite load_insert_eq. by apply polyReduce_keeps.
  - rewrite load_insert_ne by done. apply keeps_refl.
Qed.

Lemma store_polyVectorPointWiseAccMont_in_store K (a b : list nat) :
  on_coefficients_in_store (Store.polyVectorPointWiseAccMont K a b).
Proof.
  split.
  - intros h h' Hh. unfold Store.polyVectorPointWiseAccMont.
    pose proof (store_polyBaseMulMont_same256 (a !!! 0%nat) (b !!! 0%nat) h h' Hh)
      as H0.
    assert ((Store.polyBaseMulMont (a !!! 0%nat) (b !!! 0%nat) h).1
            = (Store.polyBaseMulMont (a !!! 0%nat) (b !!! 0%nat) h').1) as Hr0 by done.
    destruct (Store.polyBaseMulMont (a !!! 0%nat) (b !!! 0%nat) h) as [r0 h0].
    destruct (Store.polyBaseMulMont (a !!! 0%nat) (b !!! 0%nat) h') as [r0' h0'].
    cbn [fst snd] in H0, Hr0. subst r0'.
    match goal with
    | |- context [Poly.for_loop 1 (K - 1) ?f (r0, h0)] =>
        pose proof (for_loop_rel
          (λ (st st' : nat * gmap nat array),
             st.1 = st'.1 ∧ store_same256 st.2 st'.2)
          1 (K - 1) f f (r0, h0) (r0, h0')) as Hloop
    end.
    destruct Hloop as [Hr Hs]; [by split| |].
    { intros i [r s] [r' s'] Hi [Hrr Hss]. cbn [fst snd] in Hrr, Hss. subst r'.
      pose proof (store_polyBaseMulMont_same256 (a !!! i) (b !!! i) s s' Hss) as H1.
      assert ((Store.polyBaseMulMont (a !!! i) (b !!! i) s).1
              = (Store.polyBaseMulMont (a !!! i) (b !!! i) s').1) as Ht by done.
      destruct (Store.polyBaseMulMont (a !!! i) (b !!! i) s) as [t s1].
      destruct (Store.polyBaseMulMont (a !!! i) (b !!! i) s') as [t' s1'].
      cbn [fst snd] in H1, Ht. subst t'.
      by apply store_polyAdd_same256. }
    destruct (Poly.for_loop 1 (K - 1) _ (r0, h0)) as [r1 h1].
    destruct (Poly.for_loop 1 (K - 1) _ (r0, h0')) as [r1' h1'].
    cbn [fst snd] in Hr, Hs. subst r1'.
    split; [done|]. by apply store_polyReduce_same256.
  - intros h. unfold Store.polyVectorPointWiseAccMont.
    pose proof (store_polyBaseMulMont_keeps (a !!! 0%nat) (b !!! 0%nat) h) as H0.
    destruct (Store.polyBaseMulMont (a !!! 0%nat) (b !!! 0%nat) h) as [r0 h0].
    cbn [snd] in H0.
    match goal with
    | |- context [Poly.for_loop 1 (K - 1) ?f (r0, h0)] =>
        assert (∀ l, (256 ≤ length (Store.load h l))%nat →
                  keeps_from_256 (Store.load h l)
                    (Store.load (Poly.for_loop 1 (K - 1) f (r0, h0)).2 l)) as H1;
        [refine (for_loop_inv
           (λ _ (st : nat * gmap nat array),
              ∀ l, (256 ≤ length (Store.load h l))%nat →
                   keeps_from_256 (Store.load h l) (Store.load st.2 l))
           1 (K - 1) f (r0, h0) H0 _)|]
    end.
    { intros i [r s] Hi IH. cbn [snd] in IH.
      pose proof (store_polyBaseMulMont_keeps (a !!! i) (b !!! i) s) as Hm.
      destruct (Store.polyBaseMulMont (a !!! i) (b !!! i) s) as [t s1].
      cbn [snd] in Hm.
      apply (store_keeps_trans h s1); [by apply (store_keeps_trans h s)|].
      intros l Hl. by apply store_polyAdd_keeps. }
    destruct (Poly.for_loop 1 (K - 1) _ (r0, h0)) as [r1 h1]. cbn [snd] in H1.
    apply (store_keeps_trans h h1); [done|].
    intros l Hl. by apply store_polyReduce_keeps.
Qed.

(** ** The slots that [polyBaseMulMont] writes *)

(** What round [i] writes in slot [4 i + o], from the arrays before the
    call. *)
Lemma polyBaseMulMont_round_slots i (s y : array) :
  let z := zeta_at nttZetas (64 + i) in
  Poly.polyBaseMulMont_round i s y !!! (4 * i)%nat
  = Some (modQMulMont (modQMulMont (rd s (4 * i + 1)) (rd y (4 * i + 1))) z
          + modQMulMont (rd s (4 * i)) (rd y (4 * i)))
  ∧ Poly.polyBaseMulMont_round i s y !!! (4 * i + 1)%nat
    = Some (modQMulMont (rd s (4 * i)) (rd y (4 * i + 1))
            + modQMulMont (rd s (4 * i + 1)) (rd y (4 * i)))
  ∧ Poly.polyBaseMulMont_round i s y !!! (4 * i + 2)%nat
    = Some (modQMulMont (modQMulMont (rd s (4 * i + 3)) (rd y (4 * i + 3))) (- z)
            + modQMulMont (rd s (4 * i + 2)) (rd y (4 * i + 2)))
  ∧ Poly.polyBaseMulMont_round i s y !!! (4 * i + 3)%nat
    = Some (modQMulMont (rd s (4 * i + 2)) (rd y (4 * i + 3))
            + modQMulMont (rd s (4 * i + 3)) (rd y (4 * i + 2)))
  ∧ ∀ j, (j < 4 * i ∨ 4 * i + 4 ≤ j)%nat →
         Poly.polyBaseMulMont_round i s y !!! j = s !!! j.
Proof.
  unfold Poly.polyBaseMulMont_round, Poly.nttBaseMuliplier. cbv zeta. cbn [fst snd].
  repeat split.
  - by rewrite !slot_wr_ne, slot_wr_eq by lia.
  - by rewrite !slot_wr_ne, slot_wr_eq by lia.
  - by rewrite !slot_wr_ne, slot_wr_eq by lia.
  - by rewrite slot_wr_eq.
  - intros j Hj. by rewrite !slot_wr_ne by lia.
Qed.

Lemma basemul_products_eqm (x0 x1 y0 y1 z : Z) :
  eqm_q (modQMulMont (modQMulMont x1 y1) z + modQMulMont x0 y0)
        (169 * (x0 * y0 + 169 * z * (x1 * y1)))
  ∧ eqm_q (modQMulMont x0 y1 + modQMulMont x1 y0) (169 * (x0 * y1 + x1 * y0)).
Proof.
  split.
  - rewrite (modQMulMont_eqm (modQMulMont x1 y1) z), (modQMulMont_eqm x1 y1),
      (modQMulMont_eqm x0 y0).
    apply eqm_q_of_eq. ring.
  - rewrite (modQMulMont_eqm x0 y1), (modQMulMont_eqm x1 y0).
    apply eqm_q_of_eq. ring.
Qed.

(** For two distinct arrays, the array of [a] after the call holds the
    products. *)
Lemma polyBaseMulMont_products (x y : array) :
  basemul_products x y (Poly.polyBaseMulMont x y).
Proof.
  assert (∀ n, (n ≤ 64)%nat →
    let s := Poly.for_loop 0 n (λ i a, Poly.polyBaseMulMont_round i a y) x in
    (∀ j, (4 * n ≤ j)%nat → s !!! j = x !!! j)
    ∧ ∀ i, (i < n)%nat →
        let z := zeta_at nttZetas (64 + i) in
        s !!! (4 * i)%nat
        = Some (modQMulMont (modQMulMont (rd x (4 * i + 1)) (rd y (4 * i + 1))) z
                + modQMulMont (rd x (4 * i)) (rd y (4 * i)))
        ∧ s !!! (4 * i + 1)%nat
          = Some (modQMulMont (rd x (4 * i)) (rd y (4 * i + 1))
                  + modQMulMont (rd x (4 * i + 1)) (rd y (4 * i)))
        ∧ s !!! (4 * i + 2)%nat
          = Some (modQMulMont (modQMulMont (rd x (4 * i + 3)) (rd y (4 * i + 3))) (- z)
                  + modQMulMont (rd x (4 * i + 2)) (rd y (4 * i + 2)))
        ∧ s !!! (4 * i + 3)%nat
          = Some (modQMulMont (rd x (4 * i + 2)) (rd y (4 * i + 3))
                  + modQMulMont (rd x (4 * i + 3)) (rd y (4 * i + 2)))) as Hloop.
  { induction n as [|n IH]; intros Hn; cbv zeta.
    - split; [done|]. intros i Hi. lia.
    - destruct IH as [Hrest Hdone]; [lia|]. rewrite for_loop_snoc. cbn [Nat.add].
      set (s := Poly.for_loop 0 n (λ i a, Poly.polyBaseMulMont_round i a y) x) in *.
      destruct (polyBaseMulMont_round_slots n s y) as (S0 & S1 & S2 & S3 & Sother).
      assert (∀ j, (4 * n ≤ j)%nat → rd s j = rd x j) as Hrd.
      { intros j Hj. unfold rd. by rewrite Hrest. }
      split.
      + intros j Hj. rewrite Sother by lia. apply Hrest. lia.
      + intros i Hi. destruct (decide (i = n)) as [->|Hne].
        * rewrite S0, S1, S2, S3. by rewrite !Hrd by lia.
        * rewrite !Sother by lia. apply Hdone. lia. }
  intros i Hi. cbv zeta.
  destruct (Hloop 64%nat ltac:(lia)) as [_ Hdone].
  destruct (Hdone i Hi) as (S0 & S1 & S2 & S3).
  unfold Poly.polyBaseMulMont. change (paramsN / 4)%nat with 64%nat.
  split; [exact S0|]. split; [exact S1|]. split; [exact S2|]. split; [exact S3|].
  rewrite (slot_Some_rd _ _ _ S0), (slot_Some_rd _ _ _ S1),
    (slot_Some_rd _ _ _ S2), (slot_Some_rd _ _ _ S3).
  destruct (basemul_products_eqm (rd x (4 * i)) (rd x (4 * i + 1))
              (rd y (4 * i)) (rd y (4 * i + 1)) (zeta_at nttZetas (64 + i)))
    as [E0 E1].
  destruct (basemul_products_eqm (rd x (4 * i + 2)) (rd x (4 * i + 3))
              (rd y (4 * i + 2)) (rd y (4 * i + 3)) (- zeta_at nttZetas (64 + i)))
    as [E2 E3].
  split; [exact E0|]. split; [exact E1|]. split; [|exact E3].
  rewrite E2. apply eqm_q_of_eq. ring.
Qed.

Lemma dense256_take (a : array) :
  Forall is_Some (take 256 a) → (256 ≤ length a)%nat → dense256 a.
Proof.
  intros Hall Hlen i Hi.
  destruct (lookup_lt_is_Some_2 a i) as [x Hx]; [lia|].
  rewrite (list_lookup_total_correct _ _ _ Hx).
  apply (Forall_lookup_1 _ _ i _ Hall). by rewrite lookup_take_lt.
Qed.

(** C2 (the code departs from the claim).  Whatever the collaborators,
    the ciphertext and the secret key, and whether or not the re-encryption
    differs, the shared secret that [decrypt] returns does not depend on
    the bytes [z] at the end of the secret key: the final hash reads
    [kr1], a view of the digest, and the masking loop writes [kr], a copy
    of it. *)
Theorem decrypt_never_uses_z `{Kem.Collaborators} (K : nat) (ct body z z' : list Z) :
  length body = sk_body_bytes K →
  Kem.decrypt K ct (body ++ z) = Kem.decrypt K ct (body ++ z').
Proof. apply decrypt_ignores_z_aux. Qed.

Lemma decrypt_never_uses_z_witness :
  @Kem.decrypt stand_ins 2 (replicate 768 0) (replicate 1600 9 ++ replicate 32 85)
  = @Kem.decrypt stand_ins 2 (replicate 768 0) (replicate 1600 9 ++ replicate 32 0).
Proof.
  apply (@decrypt_never_uses_z stand_ins 2 (replicate 768 0) (replicate 1600 9)).
  reflexivity.
Defined.

(** C2, on concrete bytes, with the stand-ins for the collaborators: the
    re-encryption differs ([fail] is 1), the masking loop changes the low
    bit of each byte of the copy only (170 becomes 171, with [z] made of
    85), and the shared secret is the hash of the unmasked bytes 170 where
    the specification has those of [z]. *)
Lemma decrypt_on_failure_differs_from_spec :
  let sk := (@Kem.generateKyberKeys stand_ins 2 [] (replicate 32 85)).2 in
  let ct := replicate 768 0 in
  @Kem.decrypt_run stand_ins 2 ct sk
  = (1, replicate 32 171 ++ replicate 32 170, replicate 32 170 ++ replicate 32 7)
  ∧ @Kem.decapsulate_spec stand_ins 2 ct sk = replicate 32 85 ++ replicate 32 7
  ∧ @Kem.decrypt stand_ins 2 ct sk ≠ @Kem.decapsulate_spec stand_ins 2 ct sk.
Proof. vm_compute. repeat split; done. Qed.

(** ** The slots of [polyFromBytes] and [polyFromData] *)

Lemma polyFromBytes_slots (a : array) :
  length (Poly.polyFromBytes a) = paramsPolyBytes
  ∧ Forall is_Some (take 256 (Poly.polyFromBytes a))
  ∧ drop 256 (Poly.polyFromBytes a) = replicate 128 None.
Proof.
  pose proof (length_polyFromBytes a) as Hlen. split; [exact Hlen|]. split.
  - apply Forall_lookup. intros i x Hx.
    pose proof (lookup_lt_Some _ _ _ Hx) as Hi.
    rewrite length_take in Hi. rewrite lookup_take_lt in Hx by lia.
    apply list_lookup_total_correct in Hx. rewrite slot_polyFromBytes in Hx.
    case_decide; [|lia]. by rewrite <- Hx.
  - apply list_eq. intros i. rewrite lookup_drop.
    destruct (decide (i < 128)%nat).
    + rewrite lookup_replicate_2 by done.
      rewrite list_lookup_lookup_total_lt by lia. f_equal.
      rewrite slot_polyFromBytes. case_decide; [lia|done].
    + rewrite (proj2 (lookup_ge_None (replicate 128 _) i))
        by (rewrite length_replicate; lia).
      apply lookup_ge_None. lia.
Qed.

Lemma polyFromData_slots (m : array) :
  length (Poly.polyFromData m) = paramsPolyBytes
  ∧ Forall is_Some (take 256 (Poly.polyFromData m))
  ∧ drop 256 (Poly.polyFromData m) = replicate 128 (Some 0).
Proof.
  pose proof (length_polyFromData m) as Hlen. split; [exact Hlen|]. split.
  - apply Forall_lookup. intros i x Hx.
    pose proof (lookup_lt_Some _ _ _ Hx) as Hi.
    rewrite length_take in Hi. rewrite lookup_take_lt in Hx by lia.
    apply list_lookup_total_correct in Hx. rewrite slot_polyFromData in Hx.
    case_decide; [|lia]. by rewrite <- Hx.
  - apply list_eq. intros i. rewrite lookup_drop.
    destruct (decide (i < 128)%nat).
    + rewrite lookup_replicate_2 by done.
      rewrite list_lookup_lookup_total_lt by lia. f_equal.
      rewrite slot_polyFromData. case_decide; [lia|]. case_decide; [done|lia].
    + rewrite (proj2 (lookup_ge_None (replicate 128 _) i))
        by (rewrite length_replicate; lia).
      apply lookup_ge_None. lia.
Qed.

(** C9.  Whatever their input, [polyFromBytes] and [polyFromData] return
    an array of 384 slots ([paramsPolyBytes]), not of 256: the first 256
    hold the coefficients, and the 128 others are empty for [polyFromBytes]
    and 0 for [polyFromData].  Every operation of [Poly] that takes a
    polynomial works on its first 256 slots only.  The operations in place
    ([polyConditionalSubQ], [polyReduce], [polyToMont], [ntt], [invNTT],
    [polyInvNTTMont], and [polyBaseMulMont] and [subtract] on their first
    argument) give results that agree on the first 256 slots for arguments
    that agree there, and leave the array as it was from slot 256 on; the
    encoders give the same bytes for such arguments; [polyAdd] makes a new
    array with nothing from slot 256 on; the operations on vectors
    ([polyVectorCSubQ], [polyVectorReduce], [polyVectorNTT],
    [polyVectorInvNTTMont], [polyVectorAdd], and
    [polyVectorPointWiseAccMont] on the store) do the same on every
    polynomial. *)
Theorem polyFromBytes_polyFromData_384_slots :
  (∀ a, length (Poly.polyFromBytes a) = paramsPolyBytes
        ∧ Forall is_Some (take 256 (Poly.polyFromBytes a))
        ∧ drop 256 (Poly.polyFromBytes a) = replicate 128 None)
  ∧ (∀ m, length (Poly.polyFromData m) = paramsPolyBytes
          ∧ Forall is_Some (take 256 (Poly.polyFromData m))
          ∧ drop 256 (Poly.polyFromData m) = replicate 128 (Some 0))
  ∧ on_coefficients_in_place Poly.polyConditionalSubQ
  ∧ on_coefficients_in_place Poly.polyReduce
  ∧ on_coefficients_in_place Poly.polyToMont
  ∧ on_coefficients_in_place Poly.ntt
  ∧ on_coefficients_in_place Poly.invNTT
  ∧ on_coefficients_in_place Poly.polyInvNTTMont
  ∧ coefficients_only eq Poly.polyToBytes
  ∧ coefficients_only eq Poly.polyToMsg
  ∧ (∀ K, coefficients_only eq (Poly.compressPoly K))
  ∧ (∀ K, coefficients_only_vec (Poly.compressPolyVector K))
  ∧ (∀ b, on_coefficients_in_place (λ a, Poly.polyBaseMulMont a b))
  ∧ (∀ a, coefficients_only same256 (λ b, Poly.polyBaseMulMont a b))
  ∧ (∀ b, on_coefficients_in_place (λ a, Poly.subtract a b))
  ∧ (∀ a, coefficients_only same256 (λ b, Poly.subtract a b))
  ∧ on_coefficients_new Poly.polyAdd
  ∧ (∀ K, on_coefficients_in_place_vec (Poly.polyVectorCSubQ K))
  ∧ (∀ K, on_coefficients_in_place_vec (Poly.polyVectorReduce K))
  ∧ (∀ K, on_coefficients_in_place_vec (Poly.polyVectorNTT K))
  ∧ (∀ K, on_coefficients_in_place_vec (Poly.polyVectorInvNTTMont K))
  ∧ (∀ K, on_coefficients_new_vec K (Poly.polyVectorAdd K))
  ∧ (∀ K a b, on_coefficients_in_store (Store.polyVectorPointWiseAccMont K a b)).
Proof.
  assert (on_coefficients_in_place Poly.polyConditionalSubQ) as Hcsubq.
  { split; [apply polyConditionalSubQ_coefficients_only|apply polyConditionalSubQ_keeps]. }
  assert (on_coefficients_in_place Poly.polyReduce) as Hreduce.
  { split; [apply polyReduce_coefficients_only|apply polyReduce_keeps]. }
  assert (on_coefficients_in_place Poly.ntt) as Hntt.
  { split; [apply ntt_coefficients_only|apply ntt_keeps]. }
  assert (on_coefficients_in_place Poly.invNTT) as Hinv.
  { split; [apply invNTT_coefficients_only|apply invNTT_keeps]. }
  split; [apply polyFromBytes_slots|]. split; [apply polyFromData_slots|].
  split; [exact Hcsubq|]. split; [exact Hreduce|].
  split; [split; [apply polyToMont_coefficients_only|apply polyToMont_keeps]|].
  split; [exact Hntt|]. split; [exact Hinv|]. split; [exact Hinv|].
  split; [apply polyToBytes_coefficients_only|].
  split; [apply polyToMsg_coefficients_only|].
  split; [apply compressPoly_coefficients_only|].
  split; [intros K v v'; apply compressPolyVector_coefficients_only|].
  split.
  { intros y. split.
    - intros x x' Hx. apply polyBaseMulMont_coefficients_only; [exact Hx|apply same256_refl].
    - intros x Hx. by apply polyBaseMulMont_keeps. }
  split.
  { intros x y y' Hy. apply polyBaseMulMont_coefficients_only; [apply same256_refl|exact Hy]. }
  split.
  { intros y. split.
    - intros x x' Hx. apply subtract_coefficients_only; [exact Hx|apply same256_refl].
    - intros x Hx. by apply subtract_keeps. }
  split.
  { intros x y y' Hy. apply subtract_coefficients_only; [apply same256_refl|exact Hy]. }
  split; [apply polyAdd_new|].
  split; [intros K; exact (vec_map_in_place Poly.polyConditionalSubQ K Hcsubq)|].
  split; [intros K; exact (vec_map_in_place Poly.polyReduce K Hreduce)|].
  split; [intros K; exact (vec_map_in_place Poly.ntt K Hntt)|].
  split; [intros K; exact (vec_map_in_place Poly.polyInvNTTMont K Hinv)|].
  split; [apply polyVectorAdd_new|].
  apply store_polyVectorPointWiseAccMont_in_store.
Qed.

(** C10.  [polyBaseMulMont a b] returns [a] and writes no array but [a];
    when [b] is another array, the array of [a] holds the products after
    the call: in each block of four slots, the two products of
    [nttBaseMuliplier], which modulo q are [2^-16 = 169] times the
    products of the polynomials of degree 1 (for arrays that hold numbers
    in their first 256 slots).  So, for [K >= 2] and vectors of distinct
    allocated arrays, after [polyVectorPointWiseAccMont a b] every
    polynomial [a[j]] holds the products of the old [a[j]] and [b[j]], and
    [b[j]] is unchanged.  On arrays of 2s and of 4s the first four slots
    of [a] become 1033, 2704, 1671 and 2704. *)
Theorem polyBaseMulMont_writes_first_argument :
  (∀ (a b : nat) (h : gmap nat array),
     (Store.polyBaseMulMont a b h).1 = a
     ∧ (∀ l, l ≠ a → (Store.polyBaseMulMont a b h).2 !! l = h !! l)
     ∧ (a ≠ b →
        Store.load (Store.polyBaseMulMont a b h).2 a
        = Poly.polyBaseMulMont (Store.load h a) (Store.load h b))
     ∧ (a ≠ b → dense256 (Store.load h a) → dense256 (Store.load h b) →
        basemul_products (Store.load h a) (Store.load h b)
          (Store.load (Store.polyBaseMulMont a b h).2 a)))
  ∧ (∀ (K : nat) (a b : list nat) (h : gmap nat array) (j : nat),
       (2 ≤ K)%nat → length a = K → length b = K → NoDup (a ++ b) →
       (∀ l, l ∈ a ++ b → l ∈ dom h ∧ dense256 (Store.load h l)) → (j < K)%nat →
       let h' := (Store.polyVectorPointWiseAccMont K a b h).2 in
       Store.load h' (a !!! j)
       = Poly.polyBaseMulMont (Store.load h (a !!! j)) (Store.load h (b !!! j))
       ∧ basemul_products (Store.load h (a !!! j)) (Store.load h (b !!! j))
           (Store.load h' (a !!! j))
       ∧ Store.load h' (b !!! j) = Store.load h (b !!! j))
  ∧ take 4 (Poly.polyBaseMulMont (of_list (replicate 256 2)) (of_list (replicate 256 4)))
    = [Some 1033; Some 2704; Some 1671; Some 2704].
Proof.
  split; [|split; [|by vm_compute]].
  - intros a b h. destruct (store_polyBaseMulMont_frame a b h) as [Hr Hf].
    split; [exact Hr|]. split; [exact Hf|].
    assert (a ≠ b →
      Store.load (Store.polyBaseMulMont a b h).2 a
      = Poly.polyBaseMulMont (Store.load h a) (Store.load h b)) as Heq.
    { intros Hab. rewrite store_polyBaseMulMont by done. cbn [snd].
      apply load_insert_eq. }
    split; [exact Heq|]. intros Hab _ _. rewrite (Heq Hab).
    apply polyBaseMulMont_products.
  - intros K a b h j HK Ha Hb Hnd Hdom Hj.
    destruct (store_polyVectorPointWiseAccMont K a b h HK Ha Hb Hnd
                (λ l Hl, proj1 (Hdom l Hl)) j Hj) as [Heq Hbj].
    cbv zeta. split; [exact Heq|]. split; [|exact Hbj].
    rewrite Heq. apply polyBaseMulMont_products.
Qed.

Lemma polyBaseMulMont_writes_first_argument_witness :
  let h : gmap nat array :=
    <[0%nat := of_list (replicate 256 1)]> (<[1%nat := of_list (replicate 256 2)]>
    (<[2%nat := of_list (replicate 256 3)]> (<[3%nat := of_list (replicate 256 4)]> ∅))) in
  let h' := (Store.polyVectorPointWiseAccMont 2%nat [0; 1]%nat [2; 3]%nat h).2 in
  Store.load h' ([0; 1]%nat !!! 1%nat) !!! 0%nat = Some 1033
  ∧ Store.load h' ([0; 1]%nat !!! 1%nat) !!! 1%nat = Some 2704
  ∧ Store.load h' ([0; 1]%nat !!! 1%nat) !!! 2%nat = Some 1671
  ∧ Store.load h' ([0; 1]%nat !!! 1%nat) !!! 3%nat = Some 2704
  ∧ Store.load h' ([2; 3]%nat !!! 1%nat) = Store.load h ([2; 3]%nat !!! 1%nat).
Proof.
  intros h h'.
  assert (NoDup ([0; 1] ++ [2; 3])%nat) as Hnd.
  { refine (bool_decide_unpack _ _). by vm_compute. }
  assert (∀ l, l ∈ ([0; 1] ++ [2; 3])%nat →
               l ∈ dom h ∧ dense256 (Store.load h l)) as Hdom.
  { intros l Hl.
    assert (l = 0 ∨ l = 1 ∨ l = 2 ∨ l = 3)%nat as Hcases.
    { repeat (apply elem_of_cons in Hl as [->|Hl]; [lia|]).
      by apply elem_of_nil in Hl. }
    destruct Hcases as [->|[->|[->| ->]]];
      (split;
       [apply elem_of_dom; by eexists
       |apply dense256_take;
        [refine (bool_decide_unpack _ _); by vm_compute|vm_compute; lia]]). }
  destruct (proj1 (proj2 polyBaseMulMont_writes_first_argument)
              2%nat [0; 1]%nat [2; 3]%nat h 1%nat
              ltac:(lia) eq_refl eq_refl Hnd Hdom ltac:(lia)) as (_ & Hprod & Hb).
  destruct (Hprod 0%nat ltac:(lia)) as (S0 & S1 & S2 & S3 & _).
  split; [refine (eq_trans S0 _); by vm_compute|].
  split; [refine (eq_trans S1 _); by vm_compute|].
  split; [refine (eq_trans S2 _); by vm_compute|].
  split; [refine (eq_trans S3 _); by vm_compute|].
  exact Hb.
Defined.

